(** * Solo base command: a shallow embedding and its verified properties

    The development follows the abstract class [BaseCommand]: the command
    action wrapper, the derivation of consensus nodes from the remote and
    the local configuration, and the configuration objects that track
    which of their properties were read. *)

From Stdlib Require Import String Ascii ZArith Lia.
From stdpp Require Import base option list gmap strings fin_maps sorting.

(** ** JavaScript values the embedding needs *)

Module Js.

(** An error object: the name of its class, its message and its cause. *)
#[local] Set Warnings "-register-all".
Inductive Error : Type :=
  MkError (className : string) (message : string) (cause : option Error).

#[local] Set Warnings "+register-all".

Definition className (e : Error) : string :=
  match e with MkError c _ _ => c end.
Definition message (e : Error) : string :=
  match e with MkError _ m _ => m end.
Definition cause (e : Error) : option Error :=
  match e with MkError _ _ c => c end.

(** [new SoloError(message, cause)].  The class lives in core/errors.js,
    which is not among the sources at hand; an instance is kept as the
    name of its class and the two arguments of its constructor. *)
Definition SoloError (msg : string) (c : option Error) : Error :=
  MkError "SoloError" msg c.

(** Errors the language itself raises. *)
Definition TypeError (msg : string) : Error := MkError "TypeError" msg None.
Definition RangeError (msg : string) : Error := MkError "RangeError" msg None.

(** How an evaluation completes: with a value or with a thrown error. *)
Inductive Completion (A : Type) : Type :=
| Return (a : A)
| Throw (e : Error).
Arguments Return {A} a.
Arguments Throw {A} e.

(** [e] is what the caller receives when [thrown] reaches it: [thrown] is
    [e] itself or carries [e] along its chain of causes. *)
Fixpoint carries (thrown e : Error) : Prop :=
  thrown = e \/
  match thrown with
  | MkError _ _ (Some c) => carries c e
  | MkError _ _ None => False
  end.

(** The names of the members of [Object.prototype].  A plain object
    inherits them: a read of a key the object does not have as its own
    yields the member of that name. *)
Definition Object_prototype : list string :=
  [ "constructor"; "__defineGetter__"; "__defineSetter__"; "hasOwnProperty";
    "__lookupGetter__"; "__lookupSetter__"; "isPrototypeOf";
    "propertyIsEnumerable"; "toString"; "valueOf"; "__proto__";
    "toLocaleString" ].

(** What [record[key]] evaluates to on a plain object whose own properties
    hold values of type [A]: the value stored under the key, the member of
    [Object.prototype] of that name, or [undefined]. *)
Inductive Member (A : Type) : Type :=
| Stored (a : A)
| Inherited (name : string)
| Undefined.
Arguments Stored {A} a.
Arguments Inherited {A} name.
Arguments Undefined {A}.

#[global] Instance Member_eq_dec {A} `{EqDecision A} : EqDecision (Member A).
Proof. solve_decision. Defined.

(** [record[key]], the own properties of the plain object being [record]. *)
Definition readProperty {A} (record : gmap string A) (key : string) : Member A :=
  match record !! key with
  | Some a => Stored a
  | None =>
      if bool_decide (key ∈ Object_prototype) then Inherited key else Undefined
  end.

(** [record[key] = value] on an object that was created by [{}] and has
    been assigned to only, as far as its own properties go.  The key
    [__proto__] reaches the setter the object inherits, which creates no
    own property; every other key becomes or stays an own property. *)
Definition assignProperty {A} (key : string) (value : A) (record : gmap string A)
  : gmap string A :=
  if decide (key = "__proto__") then record else <[key := value]> record.

(** The text a member of [Object.prototype] is converted to: the object
    itself for [__proto__], a built-in function for the others. *)
Definition memberText (name : string) : string :=
  if decide (name = "__proto__") then "[object Object]"
  else "function " +:+ (if decide (name = "constructor") then "Object" else name)
       +:+ "() { [native code] }".

(** The text of what a read yields, as a concatenation with a string
    takes it. *)
Definition textOf (read : Member string) : string :=
  match read with
  | Stored text => text
  | Inherited name => memberText name
  | Undefined => "undefined"
  end.

(** The text a concatenation takes for a key the record does not have. *)
Definition missingText (key : string) : string :=
  if bool_decide (key ∈ Object_prototype) then memberText key else "undefined".

(** The value of a decimal digit. *)
Definition digit (c : ascii) : option N :=
  let n := N_of_ascii c in
  if ((48 <=? n) && (n <=? 57))%N then Some (n - 48)%N else None.

Fixpoint digits (acc : N) (s : string) : option N :=
  match s with
  | EmptyString => Some acc
  | String c rest =>
      match digit c with
      | Some d => digits (10 * acc + d)%N rest
      | None => None
      end
  end.

(** A key that is an array index: the canonical decimal form of an integer
    below 2^32 - 1. *)
Definition arrayIndex (key : string) : option N :=
  match key with
  | EmptyString => None
  | String "0" EmptyString => Some 0%N
  | String "0" _ => None
  | _ =>
      match digits 0 key with
      | Some n => if (n <? 4294967295)%N then Some n else None
      | None => None
      end
  end.

(** Insertion of an entry among entries in ascending order of their index. *)
Fixpoint insertByIndex {A} (i : N) (entry : string * A)
    (sorted : list (N * (string * A))) : list (N * (string * A)) :=
  match sorted with
  | [] => [(i, entry)]
  | (j, other) :: rest =>
      if (i <? j)%N then (i, entry) :: sorted
      else (j, other) :: insertByIndex i entry rest
  end.

(** The entries of a record whose key is an array index, with their index,
    in ascending order of the index.  The record is given by its entries in
    the order in which they were inserted. *)
Definition indexedEntries {A} (record : list (string * A))
  : list (N * (string * A)) :=
  foldl (fun sorted entry =>
           match arrayIndex entry.1 with
           | Some i => insertByIndex i entry sorted
           | None => sorted
           end) [] record.

(** The own properties of a record in the order in which [Object.keys],
    [Object.values] and [Object.entries] walk them: the array indices in
    ascending order, then the other keys in the order of their insertion. *)
Definition ownEntries {A} (record : list (string * A)) : list (string * A) :=
  (indexedEntries record).*2 ++
  filter (fun entry => arrayIndex entry.1 = None) record.

End Js.

Import Js.

(** ** Data model *)

(** A cluster entry of the remote configuration
    (core/config/remote/cluster.js); a field that is absent, [undefined] or
    [null] is [None]. *)
Module Cluster.
Record t : Type := Build {
  dnsBaseDomain : option string;
  dnsConsensusNodePattern : option string;
}.
End Cluster.

(** A consensus node component as the remote configuration stores it. *)
Module ConsensusNodeComponent.
Record t : Type := Build {
  name : string;
  nodeId : Z;
  namespace : string;
  cluster : string;
}.
End ConsensusNodeComponent.

(** Modelled from the spec: the class [ConsensusNode] of
    core/model/consensus_node.js is not part of the sources at hand; the
    data model gives it eight attributes, which the constructor receives
    in this order and stores.  The [context] is whatever the read of the
    local configuration's [clusterRefs] yields. *)
Module ConsensusNode.
Record t : Type := Build {
  name : string;
  nodeId : Z;
  namespace : string;
  cluster : string;
  context : Member string;
  dnsBaseDomain : string;
  dnsConsensusNodePattern : string;
  fullyQualifiedDomainName : string;
}.
End ConsensusNode.

(** [remoteConfig.components]: the node mapping is kept by its entries in
    the order in which they were inserted, each key once; [None] is an
    absent or undefined [consensusNodes]. *)
Module ComponentsDataWrapper.
Record t : Type := Build {
  consensusNodes : option (list (string * ConsensusNodeComponent.t));
}.
End ComponentsDataWrapper.

(** The remote configuration manager as [BaseCommand] sees it: the loaded
    flag, the cluster map, and the [components] accessor, which yields the
    components, yields [undefined] ([Return None]) or raises. *)
Module RemoteConfigManager.
Record t : Type := Build {
  isLoaded : bool;
  clusters : gmap string Cluster.t;
  components : Completion (option ComponentsDataWrapper.t);
}.
End RemoteConfigManager.

(** The local configuration: the own properties of [clusterRefs], cluster
    reference to context. *)
Module LocalConfig.
Record t : Type := Build {
  clusterRefs : gmap string string;
}.
End LocalConfig.

(** A command flag (types/flag_types.js), with the fields the base command
    and the configuration manager read. *)
Module CommandFlag.
Record t : Type := Build {
  constName : string;
  name : string;
}.
End CommandFlag.

(** The values a configuration object stores.  [VUsedConfigsMap] is the
    reference to the object's own [Map] of usage counts, which the
    constructor assigns to the member [usedConfigs]. *)
Inductive Value : Type :=
| VUndefined
| VBool (b : bool)
| VNumber (z : Z)
| VString (s : string)
| VUsedConfigsMap.

(** [ConfigManager]: the cached flag values, [config.flags]. *)
Module ConfigManager.
Record t : Type := Build {
  flags : gmap string Value;
}.

(** [getFlag]: the cached value of the flag, [undefined] when there is none. *)
Definition getFlag (cm : t) (flag : CommandFlag.t) : Value :=
  match flags cm !! CommandFlag.name flag with
  | Some VUndefined | None => VUndefined
  | Some v => v
  end.
End ConfigManager.

(** An own property of a configuration object: a data property (created by
    an assignment, hence writable and configurable), or an accessor
    property defined by [Object.defineProperty], whose getter and setter
    close over the key they were defined for. *)
Inductive Property : Type :=
| DataProperty (v : Value)
| AccessorProperty (hasSetter : bool) (configurable : bool).

(** An instance of the class [getConfig] builds.  [flags] and
    [extraProperties] are the arguments its methods close over ([None] for
    [undefined] or [null]); [usedConfigs] is the usage [Map];
    [properties] are the instance's own properties; [getterCalls] is not
    program state: it records, latest first, every invocation of a getter,
    so that statements can speak about them. *)
Module NewConfigClass.
Record t : Type := Build {
  flags : option (list CommandFlag.t);
  extraProperties : option (list string);
  usedConfigs : gmap string Z;
  properties : gmap string Property;
  getterCalls : list string;
}.
End NewConfigClass.

(** The state of a [BaseCommand] which the embedded methods read or write.
    Objects live in [objects] and are referred to by their address, so that
    the instance [getConfig] returns and the one [_configMaps] keeps are
    the same object. *)
Module BaseCommand.
Record t : Type := Build {
  configManager : ConfigManager.t;
  localConfig : LocalConfig.t;
  remoteConfigManager : RemoteConfigManager.t;
  _configMaps : gmap string nat;
  objects : gmap nat NewConfigClass.t;
}.
End BaseCommand.

(** ** Evaluation with state and exceptions *)

(** A computation over a state [S]: it completes normally or abruptly and
    leaves a state behind in both cases. *)
Definition M (S A : Type) : Type := S -> Completion A * S.

#[global] Instance M_ret {S} : MRet (M S) := fun A a s => (Return a, s).
#[global] Instance M_bind {S} : MBind (M S) := fun A B f m s =>
  match m s with
  | (Return a, s') => f a s'
  | (Throw e, s') => (Throw e, s')
  end.

Definition gets {S A} (f : S -> A) : M S A := fun s => (Return (f s), s).
Definition modify {S} (f : S -> S) : M S unit := fun s => (Return tt, f s).
Definition throw {S A} (e : Error) : M S A := fun s => (Throw e, s).
Definition lift {S A} (c : Completion A) : M S A := fun s => (c, s).

(** [try { body } catch (e) { handler e }] *)
Definition try_catch {S A} (body : M S A) (handler : Error -> M S A) : M S A :=
  fun s =>
    match body s with
    | (Return a, s') => (Return a, s')
    | (Throw e, s') => handler e s'
    end.

(** [array.forEach(callback)], where the callback updates a local variable
    [acc] of the enclosing function. *)
Fixpoint forEach {S A B} (array : list A) (callback : A -> B -> M S B) (acc : B)
  : M S B :=
  match array with
  | [] => mret acc
  | x :: rest => acc' ← callback x acc; forEach rest callback acc'
  end.

(** ** Rendering of fully-qualified domain names *)

Module Templates.

(** One left-to-right pass over the pattern.  [skip] counts the characters
    of a placeholder that has just been replaced and are still to be
    dropped. *)
Fixpoint substitutePlaceholders (nodeAlias namespace : string) (skip : nat)
    (pattern : string) : string :=
  match pattern with
  | EmptyString => EmptyString
  | String c rest =>
      match skip with
      | S k => substitutePlaceholders nodeAlias namespace k rest
      | O =>
          if String.prefix "${nodeAlias}" pattern
          then nodeAlias +:+ substitutePlaceholders nodeAlias namespace 11 rest
          else if String.prefix "${namespace}" pattern
          then namespace +:+ substitutePlaceholders nodeAlias namespace 11 rest
          else String c (substitutePlaceholders nodeAlias namespace 0 rest)
      end
  end.

(** Modelled from the spec: [Templates.renderConsensusNodeFullyQualifiedDomainName]
    of core/templates.js is not part of the sources at hand.  It receives
    the six arguments [getConsensusNodes] passes and renders the name by
    substituting the placeholders [${nodeAlias}] and [${namespace}] of the
    pattern with the node's alias and namespace; every other text of the
    pattern, unknown placeholders included, stays as it is. *)
Definition renderConsensusNodeFullyQualifiedDomainName
    (nodeAlias : string) (nodeId : Z) (namespace : string) (cluster : string)
    (dnsBaseDomain : string) (dnsConsensusNodePattern : string) : string :=
  substitutePlaceholders nodeAlias namespace 0 dnsConsensusNodePattern.

End Templates.

(** ** Consensus node derivation *)

Definition getRemoteConfigManager : M BaseCommand.t RemoteConfigManager.t :=
  gets BaseCommand.remoteConfigManager.

Definition getLocalConfig : M BaseCommand.t LocalConfig.t :=
  gets BaseCommand.localConfig.

(** [x ?? fallback] *)
Definition nullish {A} (x : option A) (fallback : A) : A := default fallback x.

(** [Object.values(record)] *)
Definition Object_values {A} (record : list (string * A)) : list A :=
  (ownEntries record).*2.

(** The expression [new ConsensusNode(...)] of [getConsensusNodes], for one
    component [node], the cluster map of the remote configuration and the
    [clusterRefs] of the local configuration. *)
Definition newConsensusNode (clusters : gmap string Cluster.t)
    (clusterRefs : gmap string string) (node : ConsensusNodeComponent.t)
  : ConsensusNode.t :=
  ConsensusNode.Build
    (ConsensusNodeComponent.name node)
    (ConsensusNodeComponent.nodeId node)
    (ConsensusNodeComponent.namespace node)
    (ConsensusNodeComponent.cluster node)
    (readProperty clusterRefs (ConsensusNodeComponent.cluster node))
    (nullish (clusters !! ConsensusNodeComponent.cluster node
                ≫= Cluster.dnsBaseDomain) "cluster.local")
    (nullish (clusters !! ConsensusNodeComponent.cluster node
                ≫= Cluster.dnsConsensusNodePattern)
             "network-${nodeAlias}-svc.${namespace}.svc")
    (Templates.renderConsensusNodeFullyQualifiedDomainName
       (ConsensusNodeComponent.name node)
       (ConsensusNodeComponent.nodeId node)
       (ConsensusNodeComponent.namespace node)
       (ConsensusNodeComponent.cluster node)
       (nullish (clusters !! ConsensusNodeComponent.cluster node
                   ≫= Cluster.dnsBaseDomain) "cluster.local")
       (nullish (clusters !! ConsensusNodeComponent.cluster node
                   ≫= Cluster.dnsConsensusNodePattern)
                "network-${nodeAlias}-svc.${namespace}.svc")).

(** The callback of the [forEach] in [getConsensusNodes]: the node derived
    from one component is pushed onto [consensusNodes]. *)
Definition pushConsensusNode (clusters : gmap string Cluster.t)
    (node : ConsensusNodeComponent.t) (consensusNodes : list ConsensusNode.t)
  : M BaseCommand.t (list ConsensusNode.t) :=
  lc ← getLocalConfig;
  mret (consensusNodes ++ [newConsensusNode clusters (LocalConfig.clusterRefs lc) node]).

(** [this.getRemoteConfigManager().components.consensusNodes], which raises
    a [TypeError] when [components] is undefined. *)
Definition readConsensusNodes
  : M BaseCommand.t (option (list (string * ConsensusNodeComponent.t))) :=
  rcm ← getRemoteConfigManager;
  components ← lift (RemoteConfigManager.components rcm);
  match components with
  | None => throw (TypeError "Cannot read properties of undefined (reading 'consensusNodes')")
  | Some c => mret (ComponentsDataWrapper.consensusNodes c)
  end.

(** [getConsensusNodes].  The [try] block either returns early, with
    [Some []], or falls through, with [None]. *)
Definition getConsensusNodes : M BaseCommand.t (list ConsensusNode.t) :=
  let consensusNodes : list ConsensusNode.t := [] in
  rcm ← getRemoteConfigManager;
  if negb (RemoteConfigManager.isLoaded rcm)
  then throw (SoloError "Remote configuration is not loaded, and was expected to be loaded" None)
  else
    rcm ← getRemoteConfigManager;
    let clusters := RemoteConfigManager.clusters rcm in
    early ← try_catch
      (rcm ← getRemoteConfigManager;
       components ← lift (RemoteConfigManager.components rcm);
       match components ≫= ComponentsDataWrapper.consensusNodes with
       | None => mret (Some [])
       | Some _ => mret None
       end)
      (fun _ => mret (Some []));
    match early with
    | Some result => mret result
    | None =>
        nodes ← readConsensusNodes;
        match nodes with
        | None => throw (TypeError "Cannot convert undefined or null to object")
        | Some record =>
            forEach (Object_values record) (pushConsensusNode clusters) consensusNodes
        end
    end.

(** The loop of [getContexts] over the nodes: a context is pushed unless
    [contexts] includes it. *)
Definition collectContexts (nodes : list ConsensusNode.t)
    (contexts : list (Member string)) : list (Member string) :=
  foldl (fun contexts node =>
           if bool_decide (ConsensusNode.context node ∈ contexts)
           then contexts
           else contexts ++ [ConsensusNode.context node])
        contexts nodes.

(** [getContexts] *)
Definition getContexts : M BaseCommand.t (list (Member string)) :=
  let contexts : list (Member string) := [] in
  nodes ← getConsensusNodes;
  mret (collectContexts nodes contexts).

(** [Object.keys(record).includes(key)] on a record kept as a finite map. *)
Definition keysInclude {A} (record : gmap string A) (key : string) : bool :=
  bool_decide (key ∈ (map_to_list record).*1).

(** The loop of [getClusterRefs] over the nodes: a cluster reference is
    assigned the node's context unless it is a key of [clustersRefs]
    already.  [clustersRefs] holds the own properties of the record. *)
Definition collectClusterRefs (nodes : list ConsensusNode.t)
    (clustersRefs : gmap string (Member string)) : gmap string (Member string) :=
  foldl (fun clustersRefs node =>
           if keysInclude clustersRefs (ConsensusNode.cluster node)
           then clustersRefs
           else assignProperty (ConsensusNode.cluster node)
                  (ConsensusNode.context node) clustersRefs)
        clustersRefs nodes.

(** [getClusterRefs] *)
Definition getClusterRefs : M BaseCommand.t (gmap string (Member string)) :=
  let clustersRefs : gmap string (Member string) := ∅ in
  nodes ← getConsensusNodes;
  mret (collectClusterRefs nodes clustersRefs).

(** ** The command action *)

Module CommandAction.

(** What the action does to its collaborators, in the order it does it. *)
Inductive Event : Type :=
| TasksRun
| LoggerError (msg : string) (e : Error)
| ParentClose
| LeaseRelease.

#[global] Instance Event_eq_dec : EqDecision Event.
Proof.
  assert (forall e1 e2 : Error, Decision (e1 = e2)) as Herr.
  { fix IH 1. intros [c1 m1 o1] [c2 m2 o2].
    destruct (decide (c1 = c2)) as [->|]; [|right; congruence].
    destruct (decide (m1 = m2)) as [->|]; [|right; congruence].
    destruct o1 as [x1|], o2 as [x2|]; try (right; congruence).
    - destruct (IH x1 x2) as [->|]; [left; reflexivity|right; congruence].
    - left; reflexivity. }
  intros x y. unfold Decision. decide equality; try apply Herr.
  apply (decide (msg = msg0)).
Defined.

(** A promise, by the instant at which it settles and by how it settles. *)
Record Promise : Type := MkPromise {
  settledAt : nat;
  outcome : Completion unit;
}.

(** A lease, by how the call [lease.release()] completes: it returns a
    promise, or it throws before it returns one. *)
Record Lease : Type := MkLease {
  release : Completion Promise;
}.

(** The command definition handed to the action, by how the call
    [parent.close()] completes: it returns a promise, or it throws before
    it returns one.  [parent.logger.error] records its arguments. *)
Record CommandHandlers : Type := MkCommandHandlers {
  parentClose : Completion Promise;
}.

(** The tasks handed to the builder, by how
    [new Listr([...actionTasks], options)] completes and by how
    [await tasks.run()] completes on the object it builds. *)
Record Tasks : Type := MkTasks {
  construction : Completion unit;
  running : Completion unit;
}.

(** The earliest rejection among promises, the leftmost one on a tie. *)
Fixpoint firstRejection (promises : list Promise) : option (nat * Error) :=
  match promises with
  | [] => None
  | p :: rest =>
      match outcome p, firstRejection rest with
      | Throw e, Some (t, e') =>
          if Nat.leb (settledAt p) t then Some (settledAt p, e) else Some (t, e')
      | Throw e, None => Some (settledAt p, e)
      | Return _, later => later
      end
  end.

(** [await Promise.all(promises)]: rejected with the reason of the first
    promise to reject, fulfilled when all are. *)
Definition Promise_all (promises : list Promise) : Completion unit :=
  match firstRejection promises with
  | Some (_, e) => Throw e
  | None => Return tt
  end.

Definition emit (ev : Event) : M (list Event) unit :=
  modify (fun log => log ++ [ev]).

(** [try { body } catch (e) { handler e } finally { finalizer }]: the
    finalizer always runs, and when it completes abruptly its completion
    replaces the one of the [try] or [catch] block. *)
Definition try_catch_finally {S A} (body : M S A) (handler : Error -> M S A)
    (finalizer : M S unit) : M S A :=
  fun s =>
    let '(completion, s1) := try_catch body handler s in
    match finalizer s1 with
    | (Return _, s2) => (completion, s2)
    | (Throw e, s2) => (Throw e, s2)
    end.

(** [commandActionBuilder(actionTasks, options, errorString, lease)]: the
    function it returns, applied to a command definition.  The [Listr] is
    built before the [try]; in the [finally] block each call is made, and
    recorded, before its promise is pushed.  A [lease] of [None] is
    [null]. *)
Definition commandActionBuilder (actionTasks : Tasks)
    (errorString : string) (lease : option Lease)
    (commandDef : CommandHandlers) : M (list Event) unit :=
  lift (construction actionTasks);;
  try_catch_finally
    (emit TasksRun;; lift (running actionTasks))
    (fun e =>
       emit (LoggerError (errorString +:+ ": " +:+ message e) e);;
       throw (SoloError (errorString +:+ ": " +:+ message e) (Some e)))
    (let promises : list Promise := [] in
     emit ParentClose;;
     closing ← lift (parentClose commandDef);
     let promises := promises ++ [closing] in
     promises ← match lease with
                 | Some l =>
                     emit LeaseRelease;;
                     releasing ← lift (release l);
                     mret (promises ++ [releasing])
                 | None => mret promises
                 end;
     lift (Promise_all promises)).

(** Running the action from an empty record of events. *)
Definition run (actionTasks : Tasks) (errorString : string)
    (lease : option Lease) (commandDef : CommandHandlers)
  : Completion unit * list Event :=
  commandActionBuilder actionTasks errorString lease commandDef [].

(** How often [lease.release()] was invoked. *)
Definition releaseCount (log : list Event) : nat :=
  length (filter (fun ev => ev = LeaseRelease) log).

End CommandAction.

(** ** Configuration objects that track their use *)

Module ConfigObject.

Import NewConfigClass.

Definition setProperties (f : gmap string Property -> gmap string Property)
    (o : NewConfigClass.t) : NewConfigClass.t :=
  Build (flags o) (extraProperties o) (usedConfigs o) (f (properties o))
        (getterCalls o).

Definition setUsedConfigs (f : gmap string Z -> gmap string Z)
    (o : NewConfigClass.t) : NewConfigClass.t :=
  Build (flags o) (extraProperties o) (f (usedConfigs o)) (properties o)
        (getterCalls o).

Definition recordGetterCall (key : string) (o : NewConfigClass.t)
  : NewConfigClass.t :=
  Build (flags o) (extraProperties o) (usedConfigs o) (properties o)
        (key :: getterCalls o).

(** [usedConfigs.get(key) + 1 || 1] *)
Definition nextCount (used : gmap string Z) (key : string) : Z :=
  match used !! key with
  | Some count => if decide (count + 1 = 0)%Z then 1%Z else (count + 1)%Z
  | None => 1%Z
  end.

(** [this[key]].  An accessor property runs the getter defined for [key]:
    it evaluates [this.usedConfigs], counts the use in that map and returns
    [this["_" + key]].  [depth] bounds the nesting of getter calls; the
    calls exceed it as they exceed the call stack. *)
Fixpoint getProperty (depth : nat) (key : string) : M NewConfigClass.t Value :=
  match depth with
  | O => throw (RangeError "Maximum call stack size exceeded")
  | S depth' =>
      props ← gets properties;
      match props !! key with
      | None => mret VUndefined
      | Some (DataProperty v) => mret v
      | Some (AccessorProperty _ _) =>
          modify (recordGetterCall key);;
          map ← getProperty depth' "usedConfigs";
          match map with
          | VUsedConfigsMap =>
              modify (setUsedConfigs (fun used => <[key := nextCount used key]> used));;
              getProperty depth' ("_" +:+ key)
          | _ => throw (TypeError "this.usedConfigs.set is not a function")
          end
      end
  end.

(** [this[key] = value] in strict code.  An accessor property with a
    setter runs it, which assigns [this["_" + key]]; one without a setter
    raises. *)
Fixpoint setProperty (depth : nat) (key : string) (value : Value)
  : M NewConfigClass.t unit :=
  match depth with
  | O => throw (RangeError "Maximum call stack size exceeded")
  | S depth' =>
      props ← gets properties;
      match props !! key with
      | None | Some (DataProperty _) =>
          modify (setProperties (insert key (DataProperty value)))
      | Some (AccessorProperty true _) =>
          setProperty depth' ("_" +:+ key) value
      | Some (AccessorProperty false _) =>
          throw (TypeError "Cannot set property which has only a getter")
      end
  end.

(** Nested getter or setter calls visit a new property each, so their
    depth stays below this bound. *)
Definition callDepth (o : NewConfigClass.t) : nat := 2 + size (properties o).

Definition get (key : string) : M NewConfigClass.t Value :=
  fun o => getProperty (callDepth o) key o.

Definition set (key : string) (value : Value) : M NewConfigClass.t unit :=
  fun o => setProperty (callDepth o) key value o.

(** [Object.defineProperty(this, key, {get, set})], [set] being present
    when [hasSetter].  A new property is not configurable; an existing one
    keeps its configurability, and cannot be redefined if it has none. *)
Definition defineProperty (key : string) (hasSetter : bool)
  : M NewConfigClass.t unit :=
  props ← gets properties;
  match props !! key with
  | None =>
      modify (setProperties (insert key (AccessorProperty hasSetter false)))
  | Some (DataProperty _) =>
      modify (setProperties (insert key (AccessorProperty hasSetter true)))
  | Some (AccessorProperty s true) =>
      modify (setProperties (insert key (AccessorProperty (s || hasSetter) true)))
  | Some (AccessorProperty _ false) =>
      throw (TypeError "Cannot redefine property")
  end.

(** The constructor: the usage map, then one property per flag, then one
    per extra property. *)
Definition constructor (configManager : ConfigManager.t)
  : M NewConfigClass.t unit :=
  set "usedConfigs" VUsedConfigsMap;;
  flags ← gets flags;
  forEach (default [] flags)
    (fun flag _ =>
       set ("_" +:+ CommandFlag.constName flag)
           (ConfigManager.getFlag configManager flag);;
       defineProperty (CommandFlag.constName flag) false) tt;;
  extraProperties ← gets extraProperties;
  forEach (default [] extraProperties)
    (fun name _ =>
       set ("_" +:+ name) (VString "");;
       defineProperty name true) tt.

(** [this.usedConfigs.has(key)] *)
Definition usedConfigsHas (key : string) : M NewConfigClass.t bool :=
  map ← get "usedConfigs";
  match map with
  | VUsedConfigsMap =>
      used ← gets usedConfigs; mret (bool_decide (is_Some (used !! key)))
  | _ => throw (TypeError "this.usedConfigs.has is not a function")
  end.

(** The method [getUnusedConfigs] of the class. *)
Definition getUnusedConfigs : M NewConfigClass.t (list string) :=
  let unusedConfigs : list string := [] in
  flags ← gets flags;
  unusedConfigs ← forEach (default [] flags)
    (fun (flag : CommandFlag.t) (unusedConfigs : list string) =>
       used ← usedConfigsHas (CommandFlag.constName flag);
       mret (if (used : bool) then unusedConfigs
             else unusedConfigs ++ [CommandFlag.constName flag]))
    unusedConfigs;
  extraProperties ← gets extraProperties;
  forEach (default [] extraProperties)
    (fun (item : string) (unusedConfigs : list string) =>
       used ← usedConfigsHas item;
       mret (if (used : bool) then unusedConfigs else unusedConfigs ++ [item]))
    unusedConfigs.

(** [instance.getUnusedConfigs()]: the method of the class, unless an own
    property of that name hides it, whose value is not a function. *)
Definition callGetUnusedConfigs : M NewConfigClass.t (list string) :=
  props ← gets properties;
  match props !! "getUnusedConfigs" with
  | None => getUnusedConfigs
  | Some _ =>
      get "getUnusedConfigs";;
      throw (TypeError "getUnusedConfigs is not a function")
  end.

End ConfigObject.

(** Running a method of the object at address [ref]; the object keeps what
    the method did to it, also when the method throws. *)
Definition onObject {A} (ref : nat) (method : M NewConfigClass.t A)
  : M BaseCommand.t A :=
  fun cmd =>
    match BaseCommand.objects cmd !! ref with
    | None => (Throw (TypeError "Cannot read properties of undefined"), cmd)
    | Some o =>
        let '(completion, o') := method o in
        (completion,
         BaseCommand.Build (BaseCommand.configManager cmd)
           (BaseCommand.localConfig cmd) (BaseCommand.remoteConfigManager cmd)
           (BaseCommand._configMaps cmd)
           (<[ref := o']> (BaseCommand.objects cmd)))
    end.

(** [getConfig]: the new instance is stored under [configName] and
    returned; a constructor that throws leaves the command as it was. *)
Definition getConfig (configName : string) (flags : option (list CommandFlag.t))
    (extraProperties : option (list string)) : M BaseCommand.t nat :=
  fun cmd =>
    let configManager := BaseCommand.configManager cmd in
    match ConfigObject.constructor configManager
            (NewConfigClass.Build flags extraProperties ∅ ∅ []) with
    | (Throw e, _) => (Throw e, cmd)
    | (Return _, newConfigInstance) =>
        let ref := fresh (dom (BaseCommand.objects cmd)) in
        (Return ref,
         BaseCommand.Build configManager
           (BaseCommand.localConfig cmd) (BaseCommand.remoteConfigManager cmd)
           (<[configName := ref]> (BaseCommand._configMaps cmd))
           (<[ref := newConfigInstance]> (BaseCommand.objects cmd)))
    end.

(** [getUnusedConfigs(configName)] of the command. *)
Definition getUnusedConfigs (configName : string) : M BaseCommand.t (list string) :=
  configMaps ← gets BaseCommand._configMaps;
  match configMaps !! configName with
  | None => throw (TypeError "Cannot read properties of undefined (reading 'getUnusedConfigs')")
  | Some ref => onObject ref ConfigObject.callGetUnusedConfigs
  end.

(** What a caller does with a configuration object it holds. *)
Inductive Access : Type :=
| Read (key : string)
| Write (key : string) (value : Value).

#[global] Instance Value_eq_dec : EqDecision Value.
Proof. solve_decision. Defined.

#[global] Instance Access_eq_dec : EqDecision Access.
Proof. solve_decision. Defined.

Definition access (ref : nat) (a : Access) : M BaseCommand.t Value :=
  match a with
  | Read key => onObject ref (ConfigObject.get key)
  | Write key value => onObject ref (ConfigObject.set key value;; mret value)
  end.

(** A sequence of accesses; an access that throws does not undo the ones
    before it, and the caller may go on. *)
Definition accesses (ref : nat) (l : list Access) (cmd : BaseCommand.t)
  : BaseCommand.t :=
  foldl (fun cmd a => (access ref a cmd).2) cmd l.

(** ** Notions the statements use *)

(** The entries of [components.consensusNodes] of a remote configuration;
    there are none when the mapping is absent or cannot be read. *)
Definition nodeRecord (rcm : RemoteConfigManager.t)
  : list (string * ConsensusNodeComponent.t) :=
  match RemoteConfigManager.components rcm with
  | Return (Some c) => default [] (ComponentsDataWrapper.consensusNodes c)
  | _ => []
  end.

(** The entries of the node mapping in the order in which [Object.values]
    walks them. *)
Definition nodeEntries (rcm : RemoteConfigManager.t)
  : list (string * ConsensusNodeComponent.t) :=
  ownEntries (nodeRecord rcm).

(** The keys of the entries are array indices, in ascending order. *)
Definition indexOrdered {A} (entries : list (string * A)) : Prop :=
  Forall (fun entry => is_Some (arrayIndex entry.1)) entries /\
  StronglySorted
    (fun entry1 entry2 =>
       forall i j, arrayIndex entry1.1 = Some i -> arrayIndex entry2.1 = Some j ->
                   (i <= j)%N)
    entries.

(** The distinct elements of a list, each at the place of its first
    occurrence. *)
Fixpoint distinctFirstSeen {A} `{EqDecision A} (l : list A) : list A :=
  match l with
  | [] => []
  | x :: rest => x :: filter (fun y => y ≠ x) (distinctFirstSeen rest)
  end.

(** The first node of a sequence that lies in the cluster [ref]. *)
Definition firstInCluster (ref : string) (nodes : list ConsensusNode.t)
  : option ConsensusNode.t :=
  head (filter (fun node => ConsensusNode.cluster node = ref) nodes).

(** The names a configuration object declares: the flags' [constName]s,
    then the extra properties. *)
Definition declaredNames (flags : option (list CommandFlag.t))
    (extraProperties : option (list string)) : list string :=
  (CommandFlag.constName <$> default [] flags) ++ default [] extraProperties.

(** The members of the class itself. *)
Definition classMember (key : string) : Prop :=
  key = "usedConfigs" \/ key = "getUnusedConfigs".

(** Whether an own property is an accessor property. *)
Definition isAccessor (p : option Property) : bool :=
  match p with
  | Some (AccessorProperty _ _) => true
  | _ => false
  end.


(** What holds of a configuration object that declares the names
    [declared], from its construction on: the members of the class are in
    place, the accessor properties are the declared names, and the usage
    map has a count for the getters that were invoked, and for no other
    key. *)
Definition objectInvariant (declared : list string) (o : NewConfigClass.t)
  : Prop :=
  NewConfigClass.properties o !! "usedConfigs"
    = Some (DataProperty VUsedConfigsMap) /\
  NewConfigClass.properties o !! "getUnusedConfigs" = None /\
  (forall k, isAccessor (NewConfigClass.properties o !! k) = true <-> k ∈ declared) /\
  (forall k, is_Some (NewConfigClass.usedConfigs o !! k)
             <-> k ∈ NewConfigClass.getterCalls o).

(** No declared name is the backing field ["_" + name] of another. *)
Definition aliasFree (declared : list string) : Prop :=
  forall name, name ∈ declared -> ("_" +:+ name) ∉ declared.

(** The character [c] does not occur in the string. *)
Fixpoint charFree (c : ascii) (s : string) : Prop :=
  match s with
  | EmptyString => True
  | String a rest => a ≠ c /\ charFree c rest
  end.

(** ** Sample configurations *)

Definition sampleClusters : gmap string Cluster.t :=
  {[ "cluster-1" := Cluster.Build (Some "example.org")
                      (Some "${nodeAlias}.${namespace}.consensus");
     "cluster-2" := Cluster.Build None None ]}.

Definition sampleNodes : list (string * ConsensusNodeComponent.t) :=
  [ ("node2", ConsensusNodeComponent.Build "node2" 1 "solo" "cluster-2");
    ("node1", ConsensusNodeComponent.Build "node1" 0 "solo" "cluster-1");
    ("node3", ConsensusNodeComponent.Build "node3" 2 "solo" "cluster-3") ].

Definition sampleLocalConfig : LocalConfig.t :=
  LocalConfig.Build {[ "cluster-1" := "kind-one"; "cluster-2" := "kind-two" ]}.

(** A command whose remote configuration has the given loaded flag and
    [components] accessor. *)
Definition sampleCommand (loaded : bool)
    (components : Completion (option ComponentsDataWrapper.t)) : BaseCommand.t :=
  BaseCommand.Build
    (ConfigManager.Build {[ "quiet" := VBool true; "dev" := VBool false ]})
    sampleLocalConfig
    (RemoteConfigManager.Build loaded sampleClusters components)
    ∅ ∅.

Definition loadedCommand : BaseCommand.t :=
  sampleCommand true
    (Return (Some (ComponentsDataWrapper.Build (Some sampleNodes)))).

(** Two nodes that share a cluster reference and differ in their context,
    and a third node in a cluster of its own. *)
Definition sharedClusterNodes : list ConsensusNode.t :=
  [ ConsensusNode.Build "node1" 0 "solo" "cluster-1" (Stored "kind-one")
      "cluster.local" "${nodeAlias}" "node1";
    ConsensusNode.Build "node2" 1 "solo" "cluster-2" Undefined
      "cluster.local" "${nodeAlias}" "node2";
    ConsensusNode.Build "node3" 2 "solo" "cluster-1" (Stored "kind-other")
      "cluster.local" "${nodeAlias}" "node3";
    ConsensusNode.Build "node4" 3 "solo" "cluster-3" (Stored "kind-one")
      "cluster.local" "${nodeAlias}" "node4" ].

(** Node records whose keys are array indices, inserted after a key that
    is none and in descending order. *)
Definition indexedNodes : list (string * ConsensusNodeComponent.t) :=
  [ ("b", ConsensusNodeComponent.Build "node-b" 0 "solo" "cluster-1");
    ("2", ConsensusNodeComponent.Build "node-2" 1 "solo" "cluster-1");
    ("1", ConsensusNodeComponent.Build "node-1" 2 "solo" "cluster-2") ].

(** Node records whose cluster references are names of members of
    [Object.prototype], which the local configuration does not have. *)
Definition inheritedNodes : list (string * ConsensusNodeComponent.t) :=
  [ ("node1", ConsensusNodeComponent.Build "node1" 0 "solo" "constructor");
    ("node2", ConsensusNodeComponent.Build "node2" 1 "solo" "__proto__");
    ("node3", ConsensusNodeComponent.Build "node3" 2 "solo" "cluster-1") ].

(** A loaded command with the given node records. *)
Definition commandWith (nodes : list (string * ConsensusNodeComponent.t))
  : BaseCommand.t :=
  sampleCommand true (Return (Some (ComponentsDataWrapper.Build (Some nodes)))).

(** A task failure, a lease whose release fails, and a command whose
    [parent.close()] throws. *)
Definition taskFailure : Error := MkError "Error" "pod not ready" None.
Definition releaseFailure : Error := MkError "Error" "lease not found" None.
Definition closeFailure : Error := MkError "Error" "client is closed" None.

Definition failingTasks : CommandAction.Tasks :=
  CommandAction.MkTasks (Return tt) (Throw taskFailure).
Definition failingLease : CommandAction.Lease :=
  CommandAction.MkLease (Return (CommandAction.MkPromise 2 (Throw releaseFailure))).
Definition workingLease : CommandAction.Lease :=
  CommandAction.MkLease (Return (CommandAction.MkPromise 2 (Return tt))).
Definition sampleHandlers : CommandAction.CommandHandlers :=
  CommandAction.MkCommandHandlers (Return (CommandAction.MkPromise 1 (Return tt))).
Definition throwingHandlers : CommandAction.CommandHandlers :=
  CommandAction.MkCommandHandlers (Throw closeFailure).

(** A configuration as a command builds it, and what a caller does with
    it: two reads, and writes of extra properties, one of which is never
    read. *)
Definition sampleFlags : option (list CommandFlag.t) :=
  Some [ CommandFlag.Build "devMode" "dev"; CommandFlag.Build "quiet" "quiet";
         CommandFlag.Build "force" "force" ].


Definition sampleExtraProperties : option (list string) :=
  Some [ "nodeClient"; "stagingDir" ].

Definition sampleTrace : list Access :=
  [ Read "quiet"; Write "nodeClient" (VString "solo"); Read "nodeClient";
    Write "stagingDir" (VString "/tmp/staging"); Read "quiet" ].

(** ** Further notions *)

(** How often [parent.close()] was invoked. *)
Definition closeCount (log : list CommandAction.Event) : nat :=
  length (filter (fun ev => ev = CommandAction.ParentClose) log).

(** The calls of [logger.error], in order. *)
Definition loggedErrors (log : list CommandAction.Event) : list (string * Error) :=
  omap (fun ev => match ev with
                  | CommandAction.LoggerError msg e => Some (msg, e)
                  | _ => None
                  end) log.

(** How the [finally] block completes: the call of [parent.close()], with
    a lease the call of [lease.release()], then
    [await Promise.all(promises)]. *)
Definition cleanup (lease : option CommandAction.Lease)
    (commandDef : CommandAction.CommandHandlers) : Completion unit :=
  match CommandAction.parentClose commandDef with
  | Throw failure => Throw failure
  | Return closing =>
      match lease with
      | None => CommandAction.Promise_all [closing]
      | Some l =>
          match CommandAction.release l with
          | Throw failure => Throw failure
          | Return releasing => CommandAction.Promise_all [closing; releasing]
          end
      end
  end.

(** What an access does to the object itself. *)
Definition objectAccess (a : Access) : M NewConfigClass.t Value :=
  match a with
  | Read key => ConfigObject.get key
  | Write key value => ConfigObject.set key value;; mret value
  end.

(** The value of the last write to [key] in a sequence of accesses,
    [initial] when there is none. *)
Definition lastWritten (key : string) (initial : Value) (trace : list Access)
  : Value :=
  foldl (fun current a =>
           match a with
           | Write k v => if decide (k = key) then v else current
           | Read _ => current
           end) initial trace.

(** How often [key] is read in a sequence of accesses. *)
Definition readCount (key : string) (trace : list Access) : nat :=
  length (filter (fun a => a = Read key) trace).

(** The declarations of the constructor, in its order: the name, the
    initial value of the backing field, and whether there is a setter. *)
Definition flagDeclaration (configManager : ConfigManager.t)
    (flag : CommandFlag.t) : string * Value * bool :=
  (CommandFlag.constName flag, ConfigManager.getFlag configManager flag, false).

Definition extraDeclaration (name : string) : string * Value * bool :=
  (name, VString "", true).

Definition declarations (configManager : ConfigManager.t)
    (flags : option (list CommandFlag.t)) (extraProperties : option (list string))
  : list (string * Value * bool) :=
  (flagDeclaration configManager <$> default [] flags) ++
  (extraDeclaration <$> default [] extraProperties).

(** One declaration: the backing field is assigned, the accessor defined. *)
Definition declare (d : string * Value * bool) : M NewConfigClass.t unit :=
  ConfigObject.set ("_" +:+ d.1.1) d.1.2;;
  ConfigObject.defineProperty d.1.1 d.2.

(** Names a constructor can declare one after the other: no name twice,
    none the backing field of another, none a member of the class. *)
Definition wellFormedNames (names : list string) : Prop :=
  NoDup names /\ aliasFree names /\ forall name, name ∈ names -> ~ classMember name.

(** The names of declarations. *)
Definition declaredAs (done : list (string * Value * bool)) : list string :=
  (fun d => d.1.1) <$> done.

(** An object on which exactly [done] has been declared, with the current
    values of the backing fields: the members of the class are in place,
    every declared name is an accessor property that cannot be redefined,
    with a setter or without, its backing field is a data property, and
    there are no other properties. *)
Definition declaredState (done : list (string * Value * bool))
    (o : NewConfigClass.t) : Prop :=
  NewConfigClass.properties o !! "usedConfigs"
    = Some (DataProperty VUsedConfigsMap) /\
  NewConfigClass.properties o !! "getUnusedConfigs" = None /\
  (forall k, isAccessor (NewConfigClass.properties o !! k) = true
             <-> k ∈ declaredAs done) /\
  (forall k v, NewConfigClass.properties o !! k = Some (DataProperty v) ->
               k = "usedConfigs" \/ exists n, n ∈ declaredAs done /\ k = "_" +:+ n) /\
  (forall d, d ∈ done ->
             NewConfigClass.properties o !! d.1.1
               = Some (AccessorProperty d.2 false) /\
             NewConfigClass.properties o !! ("_" +:+ d.1.1)
               = Some (DataProperty d.1.2)).

(** The declarations with the values a sequence of accesses leaves in the
    backing fields: those of names with a setter follow the writes. *)
Definition afterWrites (trace : list Access) (done : list (string * Value * bool))
  : list (string * Value * bool) :=
  (fun d : string * Value * bool =>
     (d.1.1, if d.2 then lastWritten d.1.1 d.1.2 trace else d.1.2, d.2))
    <$> done.

(** Flags that declare a name twice. *)
Definition repeatedFlags : option (list CommandFlag.t) :=
  Some [ CommandFlag.Build "quiet" "quiet"; CommandFlag.Build "force" "force";
         CommandFlag.Build "quiet" "q" ].

(** ** Values files per cluster *)

Section ValuesFiles.

(** [Flags.KEY_COMMON], [Flags.parseValuesFilesInput] and [path.join] come
    from modules outside the class: they are parameters.  The parser
    yields the record of files per cluster reference in the order in which
    [Object.entries] walks it, or throws. *)
Variables (KEY_COMMON : string)
          (parseValuesFilesInput : string -> Completion (list (string * list string)))
          (path_join : list string -> string).

(** [if (text)] on an optional string: [undefined] and the empty string are
    falsy. *)
Definition truthyString (text : option string) : option string :=
  match text with
  | Some EmptyString | None => None
  | Some s => Some s
  end.

(** [Object.keys(record)] of a record kept as a finite map. *)
Definition Object_keys {A} (record : gmap string A) : list string :=
  (map_to_list record).*1.

(** [valuesFiles[key] += suffix], for an own key of a parsed input.  A key
    that the record lacks reads what the record inherits, or [undefined];
    the concatenation turns either into text. *)
Definition appendTo (key suffix : string) (valuesFiles : gmap string string)
  : gmap string string :=
  <[key := textOf (readProperty valuesFiles key) +:+ suffix]> valuesFiles.

(** [valuesFiles[key] += suffix] for every key of the record. *)
Definition appendToAll (suffix : string) (valuesFiles : gmap string string)
  : gmap string string :=
  (fun value => value +:+ suffix) <$> valuesFiles.

(** The [--values] arguments of a list of files. *)
Definition valuesArguments (files : list string) : string :=
  foldl (fun vf file => vf +:+ " --values " +:+ file) "" files.

(** The loop over the entries of a parsed input. *)
Definition addParsed (parsed : list (string * list string))
    (valuesFiles : gmap string string) : gmap string string :=
  foldl (fun valuesFiles entry =>
           let vf := valuesArguments entry.2 in
           if decide (entry.1 = KEY_COMMON)
           then appendToAll vf valuesFiles
           else appendTo entry.1 vf valuesFiles)
        valuesFiles parsed.

(** An optional input, parsed and added. *)
Definition addInput (input : option string) (valuesFiles : gmap string string)
  : Completion (gmap string string) :=
  match truthyString input with
  | None => Return valuesFiles
  | Some text =>
      match parseValuesFilesInput text with
      | Return parsed => Return (addParsed parsed valuesFiles)
      | Throw e => Throw e
      end
  end.

(** [BaseCommand.prepareValuesFilesMap] *)
Definition prepareValuesFilesMap {A} (clusterRefs : gmap string A)
    (chartDirectory profileValuesFile valuesFileInput : option string)
  : Completion (gmap string string) :=
  let valuesFiles : gmap string string := {[ KEY_COMMON := "" ]} in
  let valuesFiles :=
    foldl (fun valuesFiles clusterRef => <[clusterRef := ""]> valuesFiles)
          valuesFiles (Object_keys clusterRefs) in
  let valuesFiles :=
    match truthyString chartDirectory with
    | Some directory =>
        let chartValuesFile :=
          path_join [directory; "solo-deployment"; "values.yaml"] in
        appendToAll (" --values " +:+ chartValuesFile) valuesFiles
    | None => valuesFiles
    end in
  match addInput profileValuesFile valuesFiles with
  | Throw e => Throw e
  | Return valuesFiles =>
      match addInput valuesFileInput valuesFiles with
      | Throw e => Throw e
      | Return valuesFiles =>
          Return (if decide (1 < size valuesFiles)
                  then delete KEY_COMMON valuesFiles
                  else valuesFiles)
      end
  end.

(** What the entries of a parsed input contribute to one cluster
    reference: the arguments of the entries under that reference and
    under the common key, in the order of the entries. *)
Definition argumentsFor (parsed : list (string * list string)) (ref : string)
  : string :=
  foldr (fun entry rest =>
           (if decide (entry.1 = KEY_COMMON \/ entry.1 = ref)
            then valuesArguments entry.2 else "") +:+ rest)
        "" parsed.

(** The argument for the chart's default values file, when a chart
    directory is given. *)
Definition chartArguments (chartDirectory : option string) : string :=
  match truthyString chartDirectory with
  | Some directory =>
      " --values " +:+ path_join [directory; "solo-deployment"; "values.yaml"]
  | None => ""
  end.

(** The parsed entries of an optional input; none when it is falsy. *)
Definition parsedInput (input : option string) : Completion (list (string * list string)) :=
  match truthyString input with
  | None => Return []
  | Some text => parseValuesFilesInput text
  end.

End ValuesFiles.

(** Sample parameters for the values files: a common key, a parser that
    reads [file] as a common file and [cluster=file] as a file of that
    cluster, and a join of path segments with [/]. *)
Definition sampleKeyCommon : string := "_COMMON_".

Fixpoint splitAtEquals (text : string) : option (string * string) :=
  match text with
  | EmptyString => None
  | String c rest =>
      if Ascii.eqb c "="
      then Some (EmptyString, rest)
      else match splitAtEquals rest with
           | Some (key, file) => Some (String c key, file)
           | None => None
           end
  end.

Definition sampleParse (text : string)
  : Completion (list (string * list string)) :=
  match splitAtEquals text with
  | Some (key, file) => Return [(key, [file])]
  | None => Return [(sampleKeyCommon, [text])]
  end.

Definition samplePathJoin (segments : list string) : string :=
  String.concat "/" segments.

Definition sampleClusterRefs : gmap string string :=
  {[ "cluster-1" := "kind-one"; "cluster-2" := "kind-two" ]}.

(** ** The configuration manager *)

(** [new MissingArgumentError(message)] of core/errors.js. *)
Definition MissingArgumentError (msg : string) : Error :=
  MkError "MissingArgumentError" msg None.

(** [ConfigManager.hasFlag] *)
Definition hasFlag (cm : ConfigManager.t) (flag : CommandFlag.t) : bool :=
  match ConfigManager.flags cm !! CommandFlag.name flag with
  | Some VUndefined | None => false
  | Some _ => true
  end.

(** [this.config.flags[key] = value] *)
Definition storeFlag (key : string) (value : Value) (cm : ConfigManager.t)
  : ConfigManager.t :=
  ConfigManager.Build (<[key := value]> (ConfigManager.flags cm)).

(** The truth value of a value in a condition. *)
Definition truthy (v : Value) : bool :=
  match v with
  | VUndefined => false
  | VBool b => b
  | VNumber z => negb (z =? 0)%Z
  | VString s => negb (String.eqb s "")
  | VUsedConfigsMap => true
  end.

(** [object[key]] of an object kept as a finite map: a key that is missing
    reads [undefined]. *)
Definition readKey (object : gmap string Value) (key : string) : Value :=
  default VUndefined (object !! key).

Section ConfigManagerMethods.

(** The flags [namespace], [clusterSetupNamespace] and [quiet], the map
    [allFlagsMap] and the fields [definition.defaultValue],
    [definition.disablePrompt] and [prompt] of a flag come from
    commands/flags.js; [NamespaceName] comes from the kube resources.  They
    are parameters.  A prompt is kept as the function from the current
    value of the flag to the input it resolves to, or the error it rejects
    with. *)
Variables (namespace clusterSetupNamespace quiet : CommandFlag.t)
          (instanceofNamespaceName : Value -> bool)
          (NamespaceName_of : Value -> Completion Value)
          (allFlagsMap : gmap string CommandFlag.t)
          (defaultValue : CommandFlag.t -> Value)
          (disablePrompt : CommandFlag.t -> bool)
          (prompt : CommandFlag.t -> option (Value -> Completion Value)).

(** [ConfigManager.setFlag]; [None] is a flag that is [undefined]. *)
Definition setFlag (flag : option CommandFlag.t) (value : Value)
  : M ConfigManager.t unit :=
  match flag with
  | None => throw (MissingArgumentError "flag must have a name")
  | Some flag =>
      let name := CommandFlag.name flag in
      if decide (name = "")
      then throw (MissingArgumentError "flag must have a name")
      else if decide (name = CommandFlag.name namespace \/
                      name = CommandFlag.name clusterSetupNamespace)
      then
        if instanceofNamespaceName value
        then modify (storeFlag name value)
        else
          namespaceName ← lift (NamespaceName_of value);
          modify (storeFlag name namespaceName)
      else modify (storeFlag name value)
  end.

(** The body of the loop of [applyPrecedence] for one key of [aliases]. *)
Definition applyPrecedenceTo (cm : ConfigManager.t)
    (argv : gmap string Value) (key : string) : gmap string Value :=
  match allFlagsMap !! key with
  | Some flag =>
      if decide (readKey argv key <> VUndefined)
      then argv
      else if hasFlag cm flag
      then <[key := ConfigManager.getFlag cm flag]> argv
      else <[key := defaultValue flag]> argv
  | None => argv
  end.

(** [ConfigManager.applyPrecedence] *)
Definition applyPrecedence {A} (cm : ConfigManager.t)
    (argv : gmap string Value) (aliases : gmap string A) : gmap string Value :=
  foldl (applyPrecedenceTo cm) argv (Object_keys aliases).

(** [ConfigManager.executePrompt]: the loop stops at the first flag with a
    prompt once the flag [quiet] is set. *)
Fixpoint executePrompt (flagList : list CommandFlag.t) : M ConfigManager.t unit :=
  match flagList with
  | [] => mret tt
  | flag :: rest =>
      match (if disablePrompt flag then None else prompt flag) with
      | None => executePrompt rest
      | Some ask =>
          isQuiet ← gets (fun cm => ConfigManager.getFlag cm quiet);
          if truthy isQuiet
          then mret tt
          else
            current ← gets (fun cm => ConfigManager.getFlag cm flag);
            input ← lift (ask current);
            setFlag (Some flag) input;;
            executePrompt rest
      end
  end.

(** The flags of a list that [executePrompt] may prompt for. *)
Definition prompted (flagList : list CommandFlag.t) : list CommandFlag.t :=
  filter (fun flag => disablePrompt flag = false /\ is_Some (prompt flag)) flagList.

End ConfigManagerMethods.

(** ** The home directories *)

(** What [setupHomeDirectory] writes to the logger. *)
Inductive LogEntry : Type :=
| DebugSetupDirectory (dirPath : Value)
| LoggedError (e : Error).

Section HomeDirectory.

(** The file system is that of the host: its states and the two calls
    [fs.existsSync] and [fs.mkdirSync(dirPath, {recursive: true})] are
    parameters, and so are the directories of core/constants.js and the
    flag [cacheDir]. *)
Variables (FS : Type)
          (existsSync : Value -> FS -> bool)
          (mkdirSync : Value -> FS -> Completion unit * FS)
          (SOLO_HOME_DIR SOLO_LOGS_DIR SOLO_CACHE_DIR SOLO_VALUES_DIR : string)
          (cacheDir : CommandFlag.t).

(** The file system and the log of the command. *)
Record Host : Type := MkHost {
  fileSystem : FS;
  logged : list LogEntry;
}.

Definition log (entry : LogEntry) : M Host unit :=
  modify (fun host => MkHost (fileSystem host) (logged host ++ [entry])).

Definition mkdir (dirPath : Value) : M Host unit :=
  fun host =>
    let '(completion, fs) := mkdirSync dirPath (fileSystem host) in
    (completion, MkHost fs (logged host)).

(** The directories [setupHomeDirectory] sets up when it is given none. *)
Definition homeDirectories (cm : ConfigManager.t) : list Value :=
  [ VString SOLO_HOME_DIR;
    VString SOLO_LOGS_DIR;
    (let cached := ConfigManager.getFlag cm cacheDir in
     if truthy cached then cached else VString SOLO_CACHE_DIR);
    VString SOLO_VALUES_DIR ].

(** The callback of the loop over the directories. *)
Definition setupDirectory (dirPath : Value) (_ : unit) : M Host unit :=
  present ← gets (fun host => existsSync dirPath (fileSystem host));
  (if negb present then mkdir dirPath else mret tt);;
  log (DebugSetupDirectory dirPath).

(** [BaseCommand.setupHomeDirectory] *)
Definition setupHomeDirectory (cm : ConfigManager.t) (dirs : list Value)
  : M Host (list Value) :=
  let dirs := match dirs with [] => homeDirectories cm | _ => dirs end in
  try_catch
    (forEach dirs setupDirectory tt)
    (fun e =>
       log (LoggedError e);;
       throw (SoloError ("failed to create directory: " +:+ message e) (Some e)));;
  mret dirs.

End HomeDirectory.

Arguments MkHost {FS}.
Arguments fileSystem {FS}.
Arguments logged {FS}.
Arguments log {FS}.
Arguments mkdir {FS}.
Arguments setupDirectory {FS}.
Arguments setupHomeDirectory {FS}.

(** What [fs.mkdirSync] is taken to do when it returns: the directory
    exists afterwards, and so does whatever existed before. *)
Definition mkdirSyncCreates {FS : Type} (existsSync : Value -> FS -> bool)
    (mkdirSync : Value -> FS -> Completion unit * FS) : Prop :=
  forall dirPath fs fs',
    mkdirSync dirPath fs = (Return tt, fs') ->
    existsSync dirPath fs' = true /\
    forall other, existsSync other fs = true -> existsSync other fs' = true.

(** Sample parameters of the configuration manager and of the host. *)
Definition namespaceFlag : CommandFlag.t := CommandFlag.Build "namespace" "namespace".
Definition clusterSetupNamespaceFlag : CommandFlag.t :=
  CommandFlag.Build "clusterSetupNamespace" "cluster-setup-namespace".
Definition quietFlag : CommandFlag.t := CommandFlag.Build "quiet" "quiet".
Definition devFlag : CommandFlag.t := CommandFlag.Build "devMode" "dev".
Definition forceFlag : CommandFlag.t := CommandFlag.Build "force" "force".
Definition cacheDirFlag : CommandFlag.t := CommandFlag.Build "cacheDir" "cache-dir".

Definition sampleAllFlagsMap : gmap string CommandFlag.t :=
  {[ "quiet" := quietFlag; "dev" := devFlag; "force" := forceFlag;
     "cache-dir" := cacheDirFlag ]}.

Definition sampleDefaultValue (flag : CommandFlag.t) : Value :=
  if decide (CommandFlag.name flag = "cache-dir")
  then VString "/home/solo/cache" else VBool false.

(** What the user entered, and the aliases of the command. *)
Definition sampleArgv : gmap string Value := {[ "dev" := VBool true ]}.

Definition sampleAliases : gmap string string :=
  {[ "dev" := "d"; "quiet" := "q"; "force" := "f" ]}.

Definition sampleConfigManager (quiet : bool) : ConfigManager.t :=
  ConfigManager.Build {[ "quiet" := VBool quiet; "dev" := VBool false ]}.

(** Every flag but [dev] has a prompt, which answers [true]. *)
Definition samplePrompt (flag : CommandFlag.t)
  : option (Value -> Completion Value) :=
  if decide (CommandFlag.name flag = "dev") then None
  else Some (fun _ => Return (VBool true)).

(** A file system kept as the list of its directories; [/proc/solo] cannot
    be created. *)
Definition homeFailure : Error :=
  MkError "Error" "EACCES: permission denied" None.

Definition sampleExistsSync (dirPath : Value) (fs : list Value) : bool :=
  bool_decide (dirPath ∈ fs).

Definition sampleMkdirSync (dirPath : Value) (fs : list Value)
  : Completion unit * list Value :=
  if decide (dirPath = VString "/proc/solo")
  then (Throw homeFailure, fs)
  else (Return tt, dirPath :: fs).

Definition sampleHost : Host (list Value) :=
  MkHost [VString "/home/solo"] [].

(** * Properties *)

(** ** The order of own properties *)

Section OwnProperties.

Context {A : Type}.

Implicit Types (record : list (string * A)) (sorted : list (N * (string * A))).

Lemma insertByIndex_Permutation i entry sorted :
  insertByIndex i entry sorted ≡ₚ (i, entry) :: sorted.
Proof.
  induction sorted as [|[j other] rest IH]; cbn [insertByIndex]; [done|].
  destruct (i <? j)%N; [done|]. rewrite IH. apply Permutation_swap.
Qed.

Lemma foldl_insertByIndex_Permutation record sorted :
  (foldl (fun sorted entry =>
            match arrayIndex entry.1 with
            | Some i => insertByIndex i entry sorted
            | None => sorted
            end) sorted record).*2
  ≡ₚ sorted.*2 ++ filter (fun entry => arrayIndex entry.1 ≠ None) record.
Proof.
  revert sorted. induction record as [|entry record IH]; intros sorted;
    cbn [foldl].
  - by rewrite filter_nil, app_nil_r.
  - rewrite IH. destruct (arrayIndex entry.1) as [i|] eqn:Hi.
    + rewrite filter_cons_True by by rewrite Hi.
      rewrite insertByIndex_Permutation. cbn. apply Permutation_middle.
    + rewrite filter_cons_False; [done|]. rewrite Hi. by intros ?.
Qed.

(** The walk visits every entry of the record once. *)
Lemma ownEntries_Permutation record : ownEntries record ≡ₚ record.
Proof.
  unfold ownEntries, indexedEntries.
  rewrite foldl_insertByIndex_Permutation. cbn [fmap list_fmap app].
  rewrite <- (filter_app_complement (fun entry => arrayIndex entry.1 ≠ None) record)
    at 3.
  f_equiv. apply reflexive_eq, list_filter_iff. intros entry.
  destruct (arrayIndex entry.1) as [n|]; split.
  - done.
  - intros H. by destruct H.
  - intros _ H. by apply H.
  - done.
Qed.

(** Without array indices among the keys the walk follows the order of
    insertion. *)
Lemma ownEntries_insertion_order record :
  (forall entry, entry ∈ record -> arrayIndex entry.1 = None) ->
  ownEntries record = record.
Proof.
  intros Hnone. unfold ownEntries, indexedEntries.
  assert (forall sorted,
            foldl (fun sorted entry =>
                     match arrayIndex entry.1 with
                     | Some i => insertByIndex i entry sorted
                     | None => sorted
                     end) sorted record = sorted) as ->.
  { induction record as [|entry record IH]; intros sorted; cbn [foldl]; [done|].
    rewrite (Hnone entry) by by left. apply IH. intros e He. apply Hnone. by right. }
  cbn [fmap list_fmap app].
  induction record as [|entry record IH]; [done|].
  rewrite filter_cons_True by (apply Hnone; by left). f_equal.
  apply IH. intros e He. apply Hnone. by right.
Qed.

Lemma insertByIndex_sorted i entry sorted :
  StronglySorted (fun x y => (x.1 <= y.1)%N) sorted ->
  StronglySorted (fun x y => (x.1 <= y.1)%N) (insertByIndex i entry sorted).
Proof.
  induction 1 as [|[j other] rest Hrest IH Hall]; cbn [insertByIndex].
  - repeat constructor.
  - destruct (i <? j)%N eqn:Hlt.
    + apply N.ltb_lt in Hlt. constructor; [by constructor|].
      constructor; [cbn; lia|].
      eapply Forall_impl; [exact Hall|]. intros x Hx. cbn in *. lia.
    + apply N.ltb_ge in Hlt. constructor; [exact IH|].
      rewrite insertByIndex_Permutation. by constructor.
Qed.

Lemma indexOrdered_sorted sorted :
  StronglySorted (fun x y => (x.1 <= y.1)%N) sorted ->
  Forall (fun x => arrayIndex x.2.1 = Some x.1) sorted ->
  indexOrdered sorted.*2.
Proof.
  intros Hs Hi. split.
  - apply Forall_fmap. eapply Forall_impl; [exact Hi|].
    intros x Hx. cbn. by rewrite Hx.
  - induction Hs as [|x rest Hrest IH Hall]; [constructor|].
    apply Forall_cons in Hi as [Hx Hi]. cbn [fmap list_fmap].
    constructor; [by apply IH|]. apply Forall_fmap.
    apply Forall_forall. intros y Hy i j Hxi Hyj. cbn in *.
    rewrite Forall_forall in Hall, Hi. specialize (Hall y Hy).
    specialize (Hi y Hy). rewrite Hx in Hxi. rewrite Hi in Hyj.
    injection Hxi as <-. injection Hyj as <-. exact Hall.
Qed.

(** The array indices are walked in ascending order. *)
Lemma indexedEntries_ordered record : indexOrdered (indexedEntries record).*2.
Proof.
  unfold indexedEntries.
  assert (forall sorted,
            StronglySorted (fun x y => (x.1 <= y.1)%N) sorted ->
            Forall (fun x => arrayIndex x.2.1 = Some x.1) sorted ->
            StronglySorted (fun x y => (x.1 <= y.1)%N)
              (foldl (fun sorted entry =>
                        match arrayIndex entry.1 with
                        | Some i => insertByIndex i entry sorted
                        | None => sorted
                        end) sorted record) /\
            Forall (fun x => arrayIndex x.2.1 = Some x.1)
              (foldl (fun sorted entry =>
                        match arrayIndex entry.1 with
                        | Some i => insertByIndex i entry sorted
                        | None => sorted
                        end) sorted record)) as Hfold.
  { induction record as [|entry record IH]; intros sorted Hs Hi; cbn [foldl];
      [done|].
    destruct (arrayIndex entry.1) as [i|] eqn:Hentry; [|by apply IH].
    apply IH; [by apply insertByIndex_sorted|].
    rewrite insertByIndex_Permutation. by constructor. }
  destruct (Hfold []) as [Hs Hi]; [constructor..|].
  by apply indexOrdered_sorted.
Qed.

End OwnProperties.

(** ** Consensus node derivation *)

Section Derivation.

Implicit Types (cmd : BaseCommand.t) (node : ConsensusNodeComponent.t).

Lemma forEach_pushConsensusNode clusters (l : list ConsensusNodeComponent.t)
    (acc : list ConsensusNode.t) cmd :
  forEach l (pushConsensusNode clusters) acc cmd =
  (Return (acc ++ (newConsensusNode clusters
                     (LocalConfig.clusterRefs (BaseCommand.localConfig cmd)) <$> l)),
   cmd).
Proof.
  revert acc. induction l as [|node l IH]; intros acc; simpl.
  - by rewrite app_nil_r.
  - unfold mbind, M_bind at 1. simpl. rewrite IH. by rewrite <- app_assoc.
Qed.

(** What [getConsensusNodes] evaluates to, in every state. *)
Lemma getConsensusNodes_eval cmd :
  getConsensusNodes cmd =
  if RemoteConfigManager.isLoaded (BaseCommand.remoteConfigManager cmd)
  then (Return (newConsensusNode
                  (RemoteConfigManager.clusters (BaseCommand.remoteConfigManager cmd))
                  (LocalConfig.clusterRefs (BaseCommand.localConfig cmd))
                <$> Object_values (nodeRecord (BaseCommand.remoteConfigManager cmd))),
        cmd)
  else (Throw (SoloError "Remote configuration is not loaded, and was expected to be loaded" None),
        cmd).
Proof.
  unfold getConsensusNodes, nodeRecord, readConsensusNodes, try_catch, lift,
    getRemoteConfigManager, gets, throw, mbind, M_bind, mret, M_ret.
  cbn. destruct (RemoteConfigManager.isLoaded _); cbn; [|done].
  destruct (RemoteConfigManager.components _) as [[[[record|]]|]|e] eqn:Hc;
    cbn; rewrite ?Hc; cbn; try done.
  by rewrite forEach_pushConsensusNode.
Qed.

(** C2, as the code has it: when the remote configuration is not loaded,
    [getConsensusNodes] throws a [SoloError] with the message below, so it
    returns no nodes, and it leaves the command as it was. *)
Theorem getConsensusNodes_not_loaded cmd :
  RemoteConfigManager.isLoaded (BaseCommand.remoteConfigManager cmd) = false ->
  getConsensusNodes cmd =
  (Throw (SoloError "Remote configuration is not loaded, and was expected to be loaded" None),
   cmd).
Proof. intros Hl. by rewrite getConsensusNodes_eval, Hl. Qed.

Lemma getConsensusNodes_not_loaded_witness :
  RemoteConfigManager.isLoaded
    (BaseCommand.remoteConfigManager (sampleCommand false (Return None))) = false /\
  getConsensusNodes (sampleCommand false (Return None)) =
  (Throw (SoloError "Remote configuration is not loaded, and was expected to be loaded" None),
   sampleCommand false (Return None)).
Proof.
  split; [reflexivity|].
  apply (getConsensusNodes_not_loaded (sampleCommand false (Return None))).
  reflexivity.
Defined.

(** C2, as stated, fails: on a command whose remote configuration is not
    loaded, the error thrown is not of a class [ConfigurationError]. *)
Lemma getConsensusNodes_not_loaded_no_ConfigurationError :
  ~ exists e,
      (getConsensusNodes (sampleCommand false (Return None))).1 = Throw e /\
      className e = "ConfigurationError".
Proof.
  intros (e & He & Hc). rewrite getConsensusNodes_eval in He. simpl in He.
  injection He as <-. discriminate Hc.
Qed.

(** C3: with a loaded remote configuration whose [components] accessor
    raises, yields [undefined], or yields components without
    [consensusNodes], [getConsensusNodes] returns the empty sequence and
    does not throw. *)
Theorem getConsensusNodes_without_nodes cmd :
  RemoteConfigManager.isLoaded (BaseCommand.remoteConfigManager cmd) = true ->
  (exists e, RemoteConfigManager.components (BaseCommand.remoteConfigManager cmd)
             = Throw e) \/
  RemoteConfigManager.components (BaseCommand.remoteConfigManager cmd)
    = Return None \/
  RemoteConfigManager.components (BaseCommand.remoteConfigManager cmd)
    = Return (Some (ComponentsDataWrapper.Build None)) ->
  getConsensusNodes cmd = (Return [], cmd).
Proof.
  intros Hl Hc. rewrite getConsensusNodes_eval, Hl. unfold nodeRecord.
  by destruct Hc as [[e ->]|[->| ->]].
Qed.

Lemma getConsensusNodes_without_nodes_witness :
  getConsensusNodes (sampleCommand true (Throw (TypeError "components")))
    = (Return [], sampleCommand true (Throw (TypeError "components"))) /\
  getConsensusNodes (sampleCommand true (Return None))
    = (Return [], sampleCommand true (Return None)) /\
  getConsensusNodes
    (sampleCommand true (Return (Some (ComponentsDataWrapper.Build None))))
    = (Return [],
       sampleCommand true (Return (Some (ComponentsDataWrapper.Build None)))).
Proof.
  split; [|split].
  - apply (getConsensusNodes_without_nodes
             (sampleCommand true (Throw (TypeError "components"))));
      [reflexivity|]. left. eexists. reflexivity.
  - apply (getConsensusNodes_without_nodes (sampleCommand true (Return None)));
      [reflexivity|]. right. left. reflexivity.
  - apply (getConsensusNodes_without_nodes
             (sampleCommand true (Return (Some (ComponentsDataWrapper.Build None)))));
      [reflexivity|]. right. right. reflexivity.
Defined.

(** A returned sequence is the image of the node record, entry by entry. *)
Lemma getConsensusNodes_returned cmd nodes :
  (getConsensusNodes cmd).1 = Return nodes ->
  nodes = newConsensusNode
            (RemoteConfigManager.clusters (BaseCommand.remoteConfigManager cmd))
            (LocalConfig.clusterRefs (BaseCommand.localConfig cmd))
          <$> Object_values (nodeRecord (BaseCommand.remoteConfigManager cmd)).
Proof.
  rewrite getConsensusNodes_eval.
  destruct (RemoteConfigManager.isLoaded _); simpl; congruence.
Qed.

Lemma getConsensusNodes_lookup cmd nodes i key node :
  (getConsensusNodes cmd).1 = Return nodes ->
  nodeEntries (BaseCommand.remoteConfigManager cmd) !! i = Some (key, node) ->
  nodes !! i =
  Some (newConsensusNode
          (RemoteConfigManager.clusters (BaseCommand.remoteConfigManager cmd))
          (LocalConfig.clusterRefs (BaseCommand.localConfig cmd)) node).
Proof.
  intros ->%getConsensusNodes_returned Hi. unfold Object_values.
  fold (nodeEntries (BaseCommand.remoteConfigManager cmd)).
  by rewrite !list_lookup_fmap, Hi.
Qed.

(** C4: the node derived from a node record takes its DNS base domain and
    its DNS node-name pattern from the cluster entry of the record's
    cluster reference; where the entry or the field is absent, they are the
    literals [cluster.local] and
    [network-${nodeAlias}-svc.${namespace}.svc].  The records are taken at
    their place in the walk of the mapping, which visits each of them
    ([ownEntries_Permutation]). *)
Theorem getConsensusNodes_dns_fallback cmd nodes i key node :
  (getConsensusNodes cmd).1 = Return nodes ->
  nodeEntries (BaseCommand.remoteConfigManager cmd) !! i = Some (key, node) ->
  exists derived,
    nodes !! i = Some derived /\
    ConsensusNode.dnsBaseDomain derived =
      match RemoteConfigManager.clusters (BaseCommand.remoteConfigManager cmd)
              !! ConsensusNodeComponent.cluster node with
      | Some {| Cluster.dnsBaseDomain := Some domain |} => domain
      | _ => "cluster.local"
      end /\
    ConsensusNode.dnsConsensusNodePattern derived =
      match RemoteConfigManager.clusters (BaseCommand.remoteConfigManager cmd)
              !! ConsensusNodeComponent.cluster node with
      | Some {| Cluster.dnsConsensusNodePattern := Some pattern |} => pattern
      | _ => "network-${nodeAlias}-svc.${namespace}.svc"
      end.
Proof.
  intros Hn Hi. eexists. split; [by eapply getConsensusNodes_lookup|].
  simpl. by destruct (RemoteConfigManager.clusters _ !! _) as [[[d|] [p|]]|].
Qed.

Lemma getConsensusNodes_dns_fallback_witness :
  exists n2 n1 n3,
    (getConsensusNodes loadedCommand).1 = Return [n2; n1; n3] /\
    (ConsensusNode.dnsBaseDomain n1 = "example.org" /\
     ConsensusNode.dnsConsensusNodePattern n1 = "${nodeAlias}.${namespace}.consensus") /\
    (ConsensusNode.dnsBaseDomain n2 = "cluster.local" /\
     ConsensusNode.dnsConsensusNodePattern n2 = "network-${nodeAlias}-svc.${namespace}.svc") /\
    (ConsensusNode.dnsBaseDomain n3 = "cluster.local" /\
     ConsensusNode.dnsConsensusNodePattern n3 = "network-${nodeAlias}-svc.${namespace}.svc").
Proof.
  destruct (getConsensusNodes_dns_fallback loadedCommand _ 0%nat "node2"
              (ConsensusNodeComponent.Build "node2" 1 "solo" "cluster-2")
              eq_refl eq_refl) as (n2 & H2 & D2 & P2).
  destruct (getConsensusNodes_dns_fallback loadedCommand _ 1%nat "node1"
              (ConsensusNodeComponent.Build "node1" 0 "solo" "cluster-1")
              eq_refl eq_refl) as (n1 & H1 & D1 & P1).
  destruct (getConsensusNodes_dns_fallback loadedCommand _ 2%nat "node3"
              (ConsensusNodeComponent.Build "node3" 2 "solo" "cluster-3")
              eq_refl eq_refl) as (n3 & H3 & D3 & P3).
  exists n2, n1, n3.
  injection H2 as <-. injection H1 as <-. injection H3 as <-.
  repeat split; first [reflexivity | assumption].
Defined.

(** C6, as the code has it: the context of a derived node is what the
    read [clusterRefs[node.cluster]] of the local configuration yields, and
    deriving the node does not fail.  For a cluster reference the local
    configuration has no entry for, that is [undefined] unless the
    reference is the name of a member of [Object.prototype], and that
    member otherwise; no default takes its place. *)
Theorem getConsensusNodes_context cmd nodes i key node :
  (getConsensusNodes cmd).1 = Return nodes ->
  nodeEntries (BaseCommand.remoteConfigManager cmd) !! i = Some (key, node) ->
  exists derived,
    nodes !! i = Some derived /\
    ConsensusNode.context derived =
      readProperty (LocalConfig.clusterRefs (BaseCommand.localConfig cmd))
        (ConsensusNodeComponent.cluster node) /\
    (forall context,
       LocalConfig.clusterRefs (BaseCommand.localConfig cmd)
         !! ConsensusNodeComponent.cluster node = Some context ->
       ConsensusNode.context derived = Stored context) /\
    (LocalConfig.clusterRefs (BaseCommand.localConfig cmd)
       !! ConsensusNodeComponent.cluster node = None ->
     (ConsensusNodeComponent.cluster node ∉ Object_prototype ->
      ConsensusNode.context derived = Undefined) /\
     (ConsensusNodeComponent.cluster node ∈ Object_prototype ->
      ConsensusNode.context derived =
        Inherited (ConsensusNodeComponent.cluster node))).
Proof.
  intros Hn Hi. eexists. split; [by eapply getConsensusNodes_lookup|].
  cbn [ConsensusNode.context newConsensusNode]. unfold readProperty.
  split; [done|]. split.
  - by intros context ->.
  - intros ->. split; intros Hmember.
    + by rewrite bool_decide_eq_false_2.
    + by rewrite bool_decide_eq_true_2.
Qed.

Lemma getConsensusNodes_context_witness :
  exists derived,
    (exists n2 n1, (getConsensusNodes loadedCommand).1 = Return [n2; n1; derived]) /\
    ConsensusNode.cluster derived = "cluster-3" /\
    LocalConfig.clusterRefs sampleLocalConfig !! "cluster-3" = None /\
    ConsensusNode.context derived = Undefined.
Proof.
  destruct (getConsensusNodes_context loadedCommand _ 2%nat "node3"
              (ConsensusNodeComponent.Build "node3" 2 "solo" "cluster-3")
              eq_refl eq_refl) as (n3 & H3 & C3 & _ & N3).
  exists n3. injection H3 as <-.
  split; [do 2 eexists; reflexivity|].
  repeat split; first [reflexivity | idtac].
Defined.

(** C6, as stated, fails: the cluster reference [constructor] is absent
    from the local configuration's [clusterRefs], and the context of the
    node derived from the record is not [undefined]: it is the member of
    that name which the record inherits. *)
Lemma getConsensusNodes_context_inherited_member :
  exists derived rest,
    (getConsensusNodes (commandWith inheritedNodes)).1 = Return (derived :: rest) /\
    LocalConfig.clusterRefs
      (BaseCommand.localConfig (commandWith inheritedNodes))
      !! ConsensusNode.cluster derived = None /\
    ConsensusNode.context derived = Inherited "constructor" /\
    ConsensusNode.context derived ≠ Undefined.
Proof. do 2 eexists. repeat split; [reflexivity..|discriminate]. Qed.

(** C7, as the code has it: with a loaded remote configuration,
    [getConsensusNodes] returns one node per entry of
    [components.consensusNodes], in the order in which [Object.values]
    walks the entries.  The walk takes the entries
    whose key is an array index first, in ascending order of the index,
    and then the other entries in the order of their insertion; so the
    nodes follow the order of insertion when no key is an array index. *)
Theorem getConsensusNodes_order cmd :
  RemoteConfigManager.isLoaded (BaseCommand.remoteConfigManager cmd) = true ->
  exists nodes indexed,
    (getConsensusNodes cmd).1 = Return nodes /\
    length nodes = length (nodeRecord (BaseCommand.remoteConfigManager cmd)) /\
    nodes ≡ₚ
      newConsensusNode
        (RemoteConfigManager.clusters (BaseCommand.remoteConfigManager cmd))
        (LocalConfig.clusterRefs (BaseCommand.localConfig cmd))
      <$> (nodeRecord (BaseCommand.remoteConfigManager cmd)).*2 /\
    nodes =
      newConsensusNode
        (RemoteConfigManager.clusters (BaseCommand.remoteConfigManager cmd))
        (LocalConfig.clusterRefs (BaseCommand.localConfig cmd))
      <$> (indexed ++
           filter (fun entry => arrayIndex entry.1 = None)
             (nodeRecord (BaseCommand.remoteConfigManager cmd))).*2 /\
    indexed ≡ₚ filter (fun entry => arrayIndex entry.1 ≠ None)
                 (nodeRecord (BaseCommand.remoteConfigManager cmd)) /\
    indexOrdered indexed /\
    ((forall entry, entry ∈ nodeRecord (BaseCommand.remoteConfigManager cmd) ->
                    arrayIndex entry.1 = None) ->
     nodes =
       newConsensusNode
         (RemoteConfigManager.clusters (BaseCommand.remoteConfigManager cmd))
         (LocalConfig.clusterRefs (BaseCommand.localConfig cmd))
       <$> (nodeRecord (BaseCommand.remoteConfigManager cmd)).*2).
Proof.
  intros Hl.
  exists (newConsensusNode
            (RemoteConfigManager.clusters (BaseCommand.remoteConfigManager cmd))
            (LocalConfig.clusterRefs (BaseCommand.localConfig cmd))
          <$> Object_values (nodeRecord (BaseCommand.remoteConfigManager cmd))),
    (indexedEntries (nodeRecord (BaseCommand.remoteConfigManager cmd))).*2.
  split; [by rewrite getConsensusNodes_eval, Hl|].
  unfold Object_values. split; [|split; [|split; [done|split; [|split]]]].
  - by rewrite !length_fmap, ownEntries_Permutation.
  - by rewrite ownEntries_Permutation.
  - unfold indexedEntries.
    by rewrite foldl_insertByIndex_Permutation.
  - apply indexedEntries_ordered.
  - intros Hnone. by rewrite ownEntries_insertion_order.
Qed.

Lemma getConsensusNodes_order_witness :
  exists nodes,
    (getConsensusNodes loadedCommand).1 = Return nodes /\
    length nodes = 3%nat /\
    ConsensusNode.name <$> nodes = ["node2"; "node1"; "node3"].
Proof.
  destruct (getConsensusNodes_order loadedCommand eq_refl)
    as (nodes & indexed & Hn & Hlen & _ & _ & _ & _ & Hinsertion).
  exists nodes. split; [exact Hn|]. split; [exact Hlen|].
  rewrite Hinsertion; [reflexivity|].
  intros entry Hin.
  repeat (apply elem_of_cons in Hin as [->|Hin]; [reflexivity|]).
  by apply elem_of_nil in Hin.
Defined.

(** C7, as stated, fails: the entries were inserted under the keys [b],
    [2] and [1] in this order, and the nodes come in the order [1], [2],
    [b]: the keys that are array indices are walked first, sorted. *)
Lemma getConsensusNodes_order_sorts_array_indices :
  ConsensusNodeComponent.name <$> indexedNodes.*2 = ["node-b"; "node-2"; "node-1"] /\
  exists nodes,
    (getConsensusNodes (commandWith indexedNodes)).1 = Return nodes /\
    ConsensusNode.name <$> nodes = ["node-1"; "node-2"; "node-b"].
Proof. split; [reflexivity|]. eexists. split; reflexivity. Qed.

(** C9: [getConsensusNodes] leaves the command, and so both
    configurations, as they were; a second call returns what the first one
    did; and the result depends on the remote and the local configuration
    only. *)
Theorem getConsensusNodes_pure cmd :
  (getConsensusNodes cmd).2 = cmd /\
  (getConsensusNodes (getConsensusNodes cmd).2).1 = (getConsensusNodes cmd).1 /\
  (forall cmd',
     BaseCommand.remoteConfigManager cmd' = BaseCommand.remoteConfigManager cmd ->
     BaseCommand.localConfig cmd' = BaseCommand.localConfig cmd ->
     (getConsensusNodes cmd').1 = (getConsensusNodes cmd).1).
Proof.
  assert ((getConsensusNodes cmd).2 = cmd) as Hs.
  { rewrite getConsensusNodes_eval. by destruct (RemoteConfigManager.isLoaded _). }
  split; [done|]. split; [by rewrite Hs|].
  intros cmd' Hr Hc. rewrite !getConsensusNodes_eval, Hr, Hc.
  by destruct (RemoteConfigManager.isLoaded _).
Qed.

Lemma getConsensusNodes_pure_witness :
  (getConsensusNodes loadedCommand).2 = loadedCommand /\
  (getConsensusNodes
     (BaseCommand.Build (ConfigManager.Build ∅) sampleLocalConfig
        (BaseCommand.remoteConfigManager loadedCommand)
        {[ "deploy" := 0%nat ]} ∅)).1
  = (getConsensusNodes loadedCommand).1.
Proof.
  destruct (getConsensusNodes_pure loadedCommand) as (Hs & _ & Hf).
  split; [exact Hs|]. apply Hf; reflexivity.
Defined.

End Derivation.

(** ** Distinct contexts and cluster references *)

Section DistinctViews.

Context {A : Type} `{EqDecision A}.

Lemma distinctFirstSeen_filter (P : A -> Prop) `{!forall x, Decision (P x)}
    (l : list A) :
  distinctFirstSeen (filter P l) = filter P (distinctFirstSeen l).
Proof.
  induction l as [|x l IH]; [done|]. simpl.
  destruct (decide (P x)) as [HP|HP].
  - rewrite !filter_cons_True by done. simpl. f_equal.
    rewrite IH, !list_filter_filter. apply list_filter_iff. tauto.
  - rewrite !filter_cons_False by done. rewrite IH.
    symmetry. apply list_filter_filter_l. by intros y Hy ->.
Qed.

Lemma elem_of_distinctFirstSeen (l : list A) x :
  x ∈ distinctFirstSeen l <-> x ∈ l.
Proof.
  induction l as [|y l IH]; [done|]. simpl.
  rewrite !elem_of_cons, list_elem_of_filter, IH.
  destruct (decide (x = y)); tauto.
Qed.

Lemma NoDup_distinctFirstSeen (l : list A) : NoDup (distinctFirstSeen l).
Proof.
  induction l as [|y l IH]; simpl; constructor.
  - rewrite list_elem_of_filter. by intros [? _].
  - by apply NoDup_filter.
Qed.

End DistinctViews.

Lemma collectContexts_spec nodes contexts :
  collectContexts nodes contexts =
  contexts ++ distinctFirstSeen
                (filter (fun c => c ∉ contexts) (ConsensusNode.context <$> nodes)).
Proof.
  unfold collectContexts. revert contexts.
  induction nodes as [|node nodes IH]; intros contexts; simpl.
  - by rewrite app_nil_r.
  - rewrite IH. case_bool_decide as Hin.
    + by rewrite filter_cons_False by (by intros ?).
    + rewrite filter_cons_True by done. simpl.
      rewrite <- app_assoc. simpl. do 2 f_equal.
      rewrite distinctFirstSeen_filter. symmetry.
      rewrite distinctFirstSeen_filter, list_filter_filter.
      apply list_filter_iff. intros c.
      rewrite elem_of_app, list_elem_of_singleton. tauto.
Qed.

Lemma keysInclude_spec {A} (record : gmap string A) key :
  keysInclude record key = bool_decide (is_Some (record !! key)).
Proof.
  unfold keysInclude. apply bool_decide_ext.
  rewrite list_elem_of_fmap. split.
  - intros ([k v] & -> & Hkv). apply elem_of_map_to_list in Hkv. eauto.
  - intros [v Hv]. exists (key, v). split; [done|].
    by apply elem_of_map_to_list.
Qed.

Lemma collectClusterRefs_lookup nodes (clustersRefs : gmap string (Member string)) ref :
  collectClusterRefs nodes clustersRefs !! ref =
  match clustersRefs !! ref with
  | Some context => Some context
  | None =>
      if decide (ref = "__proto__") then None
      else ConsensusNode.context <$> firstInCluster ref nodes
  end.
Proof.
  unfold collectClusterRefs, firstInCluster. revert clustersRefs.
  induction nodes as [|node nodes IH]; intros clustersRefs; cbn [foldl].
  - rewrite filter_nil. destruct (clustersRefs !! ref); [done|].
    by destruct (decide _).
  - rewrite IH, keysInclude_spec. rewrite filter_cons. unfold assignProperty.
    case_bool_decide as Hin.
    { destruct (decide (ConsensusNode.cluster node = ref)) as [Heq|Hne]; [|done].
      subst ref. destruct Hin as [v Hv]. by rewrite Hv. }
    apply eq_None_not_Some in Hin.
    destruct (decide (ConsensusNode.cluster node = "__proto__")) as [Hproto|Hproto].
    { destruct (clustersRefs !! ref) as [context|] eqn:Href; [done|].
      destruct (decide (ref = "__proto__")) as [->|Hne]; [done|].
      rewrite decide_False by congruence. done. }
    destruct (decide (ConsensusNode.cluster node = ref)) as [Heq|Hne].
    + subst ref. rewrite lookup_insert_eq, Hin.
      by rewrite decide_False.
    + by rewrite lookup_insert_ne.
Qed.

Lemma getContexts_eval cmd nodes :
  (getConsensusNodes cmd).1 = Return nodes ->
  (getContexts cmd).1 = Return (collectContexts nodes []) /\
  (getClusterRefs cmd).1 = Return (collectClusterRefs nodes ∅).
Proof.
  unfold getContexts, getClusterRefs, mbind, M_bind.
  destruct (getConsensusNodes cmd) as [[r|e] s]; simpl; [|done].
  by intros [= ->].
Qed.

Lemma firstInCluster_skip ref (before rest : list ConsensusNode.t) :
  (forall node, node ∈ before -> ConsensusNode.cluster node ≠ ref) ->
  firstInCluster ref (before ++ rest) = firstInCluster ref rest.
Proof.
  unfold firstInCluster. induction before as [|node before IH]; intros Hb; [done|].
  simpl. rewrite filter_cons_False by (apply Hb; left).
  apply IH. intros n Hn. apply Hb. by right.
Qed.

(** C8, as the code has it: [getContexts] returns the contexts of the
    derived nodes, each once, in the order in which they are first seen;
    [getClusterRefs] returns a record with one entry per cluster reference
    of the nodes other than [__proto__], whose value is the context of the
    first node with that reference, and with no entry for [__proto__].
    The loops do so on every sequence of nodes: of two nodes that share
    such a cluster reference and differ in their context, the first one
    decides the entry. *)
Theorem getContexts_getClusterRefs_first_seen :
  (forall nodes,
     collectContexts nodes [] = distinctFirstSeen (ConsensusNode.context <$> nodes) /\
     NoDup (collectContexts nodes []) /\
     (forall context, context ∈ collectContexts nodes [] <->
                      exists node, node ∈ nodes /\ ConsensusNode.context node = context) /\
     (forall ref, ref ≠ "__proto__" ->
                  collectClusterRefs nodes ∅ !! ref =
                  ConsensusNode.context <$> firstInCluster ref nodes) /\
     collectClusterRefs nodes ∅ !! "__proto__" = None) /\
  (forall cmd nodes,
     (getConsensusNodes cmd).1 = Return nodes ->
     (getContexts cmd).1 =
       Return (distinctFirstSeen (ConsensusNode.context <$> nodes)) /\
     exists clustersRefs,
       (getClusterRefs cmd).1 = Return clustersRefs /\
       (forall ref, ref ≠ "__proto__" ->
                    clustersRefs !! ref =
                    ConsensusNode.context <$> firstInCluster ref nodes) /\
       clustersRefs !! "__proto__" = None) /\
  (forall before first between second after,
     ConsensusNode.cluster first = ConsensusNode.cluster second ->
     ConsensusNode.cluster first ≠ "__proto__" ->
     (forall node, node ∈ before ->
                   ConsensusNode.cluster node ≠ ConsensusNode.cluster first) ->
     collectClusterRefs (before ++ first :: between ++ second :: after) ∅
       !! ConsensusNode.cluster first = Some (ConsensusNode.context first)).
Proof.
  assert (forall nodes,
            collectContexts nodes [] =
            distinctFirstSeen (ConsensusNode.context <$> nodes)) as Hctx.
  { intros nodes. rewrite collectContexts_spec. simpl. f_equal.
    induction (ConsensusNode.context <$> nodes) as [|c l IH]; [done|].
    rewrite filter_cons_True by apply not_elem_of_nil. by f_equal. }
  assert (forall nodes ref, ref ≠ "__proto__" ->
            collectClusterRefs nodes ∅ !! ref =
            ConsensusNode.context <$> firstInCluster ref nodes) as Href.
  { intros nodes ref Hne.
    by rewrite collectClusterRefs_lookup, lookup_empty, decide_False. }
  assert (forall nodes, collectClusterRefs nodes ∅ !! "__proto__" = None) as Hproto.
  { intros nodes. by rewrite collectClusterRefs_lookup, lookup_empty. }
  split; [|split].
  - intros nodes. rewrite Hctx. split; [done|].
    split; [apply NoDup_distinctFirstSeen|]. split; [|split; [apply Href|apply Hproto]].
    intros context. rewrite elem_of_distinctFirstSeen, list_elem_of_fmap.
    split; intros (node & ? & ?); eauto.
  - intros cmd nodes [Hc Hr]%getContexts_eval. rewrite Hc, Hctx.
    split; [done|]. eauto.
  - intros before first between second after _ Hne Hb.
    rewrite Href, firstInCluster_skip by done.
    unfold firstInCluster. by rewrite filter_cons_True.
Qed.

Lemma getContexts_getClusterRefs_first_seen_witness :
  (getContexts loadedCommand).1 =
    Return [Stored "kind-two"; Stored "kind-one"; Undefined] /\
  collectContexts sharedClusterNodes [] =
    [Stored "kind-one"; Undefined; Stored "kind-other"] /\
  collectClusterRefs sharedClusterNodes ∅ !! "cluster-1" = Some (Stored "kind-one").
Proof.
  destruct getContexts_getClusterRefs_first_seen as (Hloops & Hcmd & Hfirst).
  split; [|split].
  - edestruct (Hcmd loadedCommand) as [Hc _]; [reflexivity|].
    rewrite Hc. reflexivity.
  - destruct (Hloops sharedClusterNodes) as [Hc _]. rewrite Hc. reflexivity.
  - apply (Hfirst []
             (ConsensusNode.Build "node1" 0 "solo" "cluster-1" (Stored "kind-one")
                "cluster.local" "${nodeAlias}" "node1")
             [ConsensusNode.Build "node2" 1 "solo" "cluster-2" Undefined
                "cluster.local" "${nodeAlias}" "node2"]
             (ConsensusNode.Build "node3" 2 "solo" "cluster-1" (Stored "kind-other")
                "cluster.local" "${nodeAlias}" "node3")
             [ConsensusNode.Build "node4" 3 "solo" "cluster-3" (Stored "kind-one")
                "cluster.local" "${nodeAlias}" "node4"]).
    + reflexivity.
    + discriminate.
    + intros node Hnode. by apply elem_of_nil in Hnode.
Defined.

(** C8, as stated, fails: a derived node lies in the cluster [__proto__],
    and the record [getClusterRefs] returns has no entry for that cluster
    reference; it has two entries for the three distinct cluster
    references of the nodes. *)
Lemma getClusterRefs_no_entry_for_proto :
  exists nodes clustersRefs,
    (getConsensusNodes (commandWith inheritedNodes)).1 = Return nodes /\
    (getClusterRefs (commandWith inheritedNodes)).1 = Return clustersRefs /\
    ConsensusNode.cluster <$> nodes = ["constructor"; "__proto__"; "cluster-1"] /\
    clustersRefs !! "__proto__" = None /\
    size clustersRefs = 2%nat.
Proof. do 2 eexists. repeat split; reflexivity. Qed.

(** ** Rendering of fully-qualified domain names *)

Section Rendering.

Import Templates.

Variables (nodeAlias namespace : string).

Abbreviation subst := (substitutePlaceholders nodeAlias namespace 0).

Lemma append_cons c (s t : string) : String c s +:+ t = String c (s +:+ t).
Proof. reflexivity. Qed.

Lemma append_empty (t : string) : "" +:+ t = t.
Proof. reflexivity. Qed.

Lemma prefix_cons a s1 b s2 :
  String.prefix (String a s1) (String b s2) =
  if ascii_dec a b then String.prefix s1 s2 else false.
Proof. reflexivity. Qed.

Lemma prefix_empty s : String.prefix "" s = true.
Proof. by destruct s. Qed.

Lemma subst_cons c rest :
  subst (String c rest) =
  if String.prefix "${nodeAlias}" (String c rest)
  then nodeAlias +:+ substitutePlaceholders nodeAlias namespace 11 rest
  else if String.prefix "${namespace}" (String c rest)
  then namespace +:+ substitutePlaceholders nodeAlias namespace 11 rest
  else String c (subst rest).
Proof. reflexivity. Qed.

Lemma subst_nodeAlias pattern :
  subst ("${nodeAlias}" +:+ pattern) = nodeAlias +:+ subst pattern.
Proof. simpl. by destruct pattern. Qed.

Lemma subst_namespace pattern :
  subst ("${namespace}" +:+ pattern) = namespace +:+ subst pattern.
Proof. simpl. by destruct pattern. Qed.

Lemma subst_other_char c pattern :
  c ≠ "$"%char -> subst (String c pattern) = String c (subst pattern).
Proof.
  intros Hc. rewrite subst_cons, !prefix_cons.
  by destruct (ascii_dec "$" c) as [<-|_].
Qed.

Lemma subst_literal literal pattern :
  charFree "$" literal ->
  subst (literal +:+ pattern) = literal +:+ subst pattern.
Proof.
  induction literal as [|c literal IH]; [done|]. intros [Hc Hfree].
  change (String c literal +:+ pattern) with (String c (literal +:+ pattern)).
  rewrite subst_other_char by done. by rewrite IH.
Qed.

Lemma prefix_placeholder word key rest :
  charFree "}" word -> charFree "}" key ->
  String.prefix (word +:+ "}") (key +:+ "}" +:+ rest) = true -> key = word.
Proof.
  revert key. induction word as [|a word IH]; intros [|c key];
    cbn [charFree]; rewrite ?append_cons, ?append_empty, ?prefix_cons.
  - done.
  - intros _ [Hc _]. by destruct (ascii_dec "}" c) as [<-|].
  - intros [Ha _] _. by destruct (ascii_dec a "}") as [->|].
  - intros [_ Hw] [_ Hk]. destruct (ascii_dec a c) as [->|]; [|done].
    intros Hp. f_equal. by apply IH.
Qed.

Lemma subst_unknown_placeholder key pattern :
  key ≠ "nodeAlias" -> key ≠ "namespace" ->
  charFree "$" key -> charFree "}" key ->
  subst ("${" +:+ key +:+ "}" +:+ pattern) =
  "${" +:+ key +:+ "}" +:+ subst pattern.
Proof.
  intros Ha Hn Hd Hb.
  change ("${" +:+ key +:+ "}" +:+ pattern)
    with (String "$" (String "{" (key +:+ "}" +:+ pattern))).
  assert (String.prefix "nodeAlias}" (key +:+ "}" +:+ pattern) = false) as Hpa.
  { apply not_true_is_false. intros Hp. apply Ha.
    by apply (prefix_placeholder "nodeAlias" key pattern). }
  assert (String.prefix "namespace}" (key +:+ "}" +:+ pattern) = false) as Hpn.
  { apply not_true_is_false. intros Hp. apply Hn.
    by apply (prefix_placeholder "namespace" key pattern). }
  rewrite subst_cons, !prefix_cons.
  destruct (ascii_dec "$" "$") as [_|]; [|done].
  destruct (ascii_dec "{" "{") as [_|]; [|done].
  rewrite Hpa, Hpn. f_equal.
  change (String "{" (key +:+ "}" +:+ pattern))
    with (("{" +:+ key) +:+ "}" +:+ pattern).
  assert (forall a b c : string, (a +:+ b) +:+ c = a +:+ b +:+ c) as Hassoc.
  { intros a b c. induction a as [|x a IH]; [done|].
    by rewrite !append_cons, IH. }
  rewrite <- Hassoc, subst_literal.
  - by rewrite Hassoc.
  - simpl. split; [done|]. clear -Hd.
    induction key as [|x key IH]; simpl; [done|].
    destruct Hd as [Hx Hd]. auto.
Qed.

End Rendering.

(** C5: the fully-qualified domain name of a derived node is the rendering
    of its resolved pattern with the record's alias and namespace.
    Rendering copies the text of the pattern, replaces [${nodeAlias}] by
    the alias and [${namespace}] by the namespace, and copies every other
    placeholder as it is; the pattern
    [network-${nodeAlias}-svc.${namespace}.svc] with alias [node1] and
    namespace [ns1] renders [network-node1-svc.ns1.svc]. *)
Theorem renderConsensusNodeFullyQualifiedDomainName_substitutes :
  (forall cmd nodes i key node,
     (getConsensusNodes cmd).1 = Return nodes ->
     nodeEntries (BaseCommand.remoteConfigManager cmd) !! i = Some (key, node) ->
     exists derived,
       nodes !! i = Some derived /\
       ConsensusNode.fullyQualifiedDomainName derived =
       Templates.renderConsensusNodeFullyQualifiedDomainName
         (ConsensusNodeComponent.name node) (ConsensusNodeComponent.nodeId node)
         (ConsensusNodeComponent.namespace node) (ConsensusNodeComponent.cluster node)
         (ConsensusNode.dnsBaseDomain derived)
         (ConsensusNode.dnsConsensusNodePattern derived)) /\
  (forall nodeAlias nodeId namespace cluster dnsBaseDomain,
     let render :=
       Templates.renderConsensusNodeFullyQualifiedDomainName
         nodeAlias nodeId namespace cluster dnsBaseDomain in
     render "" = "" /\
     (forall literal pattern,
        charFree "$" literal ->
        render (literal +:+ pattern) = literal +:+ render pattern) /\
     (forall pattern,
        render ("${nodeAlias}" +:+ pattern) = nodeAlias +:+ render pattern) /\
     (forall pattern,
        render ("${namespace}" +:+ pattern) = namespace +:+ render pattern) /\
     (forall key pattern,
        key ≠ "nodeAlias" -> key ≠ "namespace" ->
        charFree "$" key -> charFree "}" key ->
        render ("${" +:+ key +:+ "}" +:+ pattern) =
        "${" +:+ key +:+ "}" +:+ render pattern)) /\
  (forall nodeId cluster dnsBaseDomain,
     Templates.renderConsensusNodeFullyQualifiedDomainName
       "node1" nodeId "ns1" cluster dnsBaseDomain
       "network-${nodeAlias}-svc.${namespace}.svc" =
     "network-node1-svc.ns1.svc").
Proof.
  split; [|split].
  - intros cmd nodes i key node Hn Hi. eexists.
    split; [by eapply getConsensusNodes_lookup|]. reflexivity.
  - intros nodeAlias nodeId namespace cluster dnsBaseDomain render.
    unfold render, Templates.renderConsensusNodeFullyQualifiedDomainName.
    split; [reflexivity|].
    split; [apply subst_literal|].
    split; [apply subst_nodeAlias|].
    split; [apply subst_namespace|].
    apply subst_unknown_placeholder.
  - reflexivity.
Qed.

Lemma renderConsensusNodeFullyQualifiedDomainName_substitutes_witness :
  (exists n2 n1 n3,
     (getConsensusNodes loadedCommand).1 = Return [n2; n1; n3] /\
     ConsensusNode.fullyQualifiedDomainName n1 = "node1.solo.consensus" /\
     ConsensusNode.fullyQualifiedDomainName n2 = "network-node2-svc.solo.svc") /\
  Templates.renderConsensusNodeFullyQualifiedDomainName
    "node1" 0 "ns1" "cluster-1" "cluster.local"
    "${cluster}.${nodeAlias}" = "${cluster}.node1" /\
  Templates.renderConsensusNodeFullyQualifiedDomainName
    "node1" 0 "ns1" "cluster-1" "cluster.local"
    "network-${nodeAlias}-svc.${namespace}.svc" = "network-node1-svc.ns1.svc".
Proof.
  destruct renderConsensusNodeFullyQualifiedDomainName_substitutes
    as (Hnodes & Hrules & Hexample).
  split; [|split].
  - destruct (Hnodes loadedCommand _ 0%nat "node2"
                (ConsensusNodeComponent.Build "node2" 1 "solo" "cluster-2")
                eq_refl eq_refl) as (n2 & H2 & F2).
    destruct (Hnodes loadedCommand _ 1%nat "node1"
                (ConsensusNodeComponent.Build "node1" 0 "solo" "cluster-1")
                eq_refl eq_refl) as (n1 & H1 & F1).
    injection H2 as <-. injection H1 as <-.
    do 3 eexists. repeat split; reflexivity.
  - destruct (Hrules "node1" 0%Z "ns1" "cluster-1" "cluster.local")
      as (_ & _ & _ & _ & Hunknown).
    etrans; [apply (Hunknown "cluster" ".${nodeAlias}")|reflexivity];
      first [discriminate | cbn; repeat split; discriminate].
  - apply Hexample.
Defined.

(** ** The command action *)

Section Action.

Import CommandAction.

Lemma releaseCount_app log1 log2 :
  releaseCount (log1 ++ log2) = (releaseCount log1 + releaseCount log2)%nat.
Proof. unfold releaseCount. by rewrite filter_app, length_app. Qed.

(** The completion and the events of the action. *)
Lemma run_eval actionTasks errorString lease commandDef :
  run actionTasks errorString lease commandDef =
  match construction actionTasks with
  | Throw failure => (Throw failure, [])
  | Return _ =>
      (match cleanup lease commandDef with
       | Throw failure => Throw failure
       | Return _ =>
           match running actionTasks with
           | Return _ => Return tt
           | Throw e => Throw (SoloError (errorString +:+ ": " +:+ message e) (Some e))
           end
       end,
       [TasksRun] ++
       match running actionTasks with
       | Return _ => []
       | Throw e => [LoggerError (errorString +:+ ": " +:+ message e) e]
       end ++ [ParentClose] ++
       match parentClose commandDef, lease with
       | Return _, Some _ => [LeaseRelease]
       | _, _ => []
       end)
  end.
Proof.
  unfold run, commandActionBuilder, try_catch_finally, try_catch, emit, modify,
    lift, throw, mbind, M_bind, mret, M_ret, cleanup.
  destruct (construction actionTasks) as [[]|failure]; [|done].
  destruct (running actionTasks) as [[]|e],
    (parentClose commandDef) as [closing|failure], lease as [l|]; cbn;
    try done.
  all: try (destruct (release l) as [releasing|failure]; cbn).
  all: try done.
  all: by destruct (Promise_all _) as [[]|failure].
Qed.

(** C1, as the code has it.  With a lease and the task list built:
    [lease.release()] is invoked exactly once, whether the tasks complete
    or throw, provided [parent.close()] returns its promise; when
    [parent.close()] throws instead, [lease.release()] is not invoked and
    the caller receives what [parent.close()] threw.  When the tasks throw
    [e] and the clean-up succeeds, the caller receives a [SoloError] whose
    message is the error string followed by the message of [e] and whose
    cause is [e]; when the clean-up fails, the caller receives that
    failure. *)
Theorem commandAction_releases_lease actionTasks errorString lease commandDef :
  construction actionTasks = Return tt ->
  (forall closing,
     parentClose commandDef = Return closing ->
     releaseCount (run actionTasks errorString (Some lease) commandDef).2 = 1%nat) /\
  (forall failure,
     parentClose commandDef = Throw failure ->
     releaseCount (run actionTasks errorString (Some lease) commandDef).2 = 0%nat /\
     (run actionTasks errorString (Some lease) commandDef).1 = Throw failure) /\
  (forall e,
     running actionTasks = Throw e ->
     match cleanup (Some lease) commandDef with
     | Return _ =>
         (run actionTasks errorString (Some lease) commandDef).1 =
         Throw (SoloError (errorString +:+ ": " +:+ message e) (Some e))
     | Throw failure =>
         (run actionTasks errorString (Some lease) commandDef).1 = Throw failure
     end) /\
  (running actionTasks = Return tt ->
   (run actionTasks errorString (Some lease) commandDef).1 =
   cleanup (Some lease) commandDef) /\
  (forall closing releasing,
     parentClose commandDef = Return closing ->
     release lease = Return releasing ->
     cleanup (Some lease) commandDef = Promise_all [closing; releasing]).
Proof.
  intros Hnew. rewrite run_eval, Hnew. cbn [fst snd].
  split; [|split; [|split; [|split]]].
  - intros closing ->. by destruct (running actionTasks).
  - intros failure Hclose. unfold cleanup. rewrite Hclose.
    split; [by destruct (running actionTasks)|done].
  - intros e ->. by destruct (cleanup _ _).
  - intros ->. by destruct (cleanup _ _) as [[]|].
  - intros closing releasing Hclose Hrelease. unfold cleanup.
    by rewrite Hclose, Hrelease.
Qed.

Lemma commandAction_releases_lease_witness :
  releaseCount (run failingTasks "Error starting node"
                  (Some workingLease) sampleHandlers).2 = 1%nat /\
  (run failingTasks "Error starting node"
     (Some workingLease) sampleHandlers).1 =
  Throw (SoloError "Error starting node: pod not ready" (Some taskFailure)) /\
  releaseCount (run failingTasks "Error starting node"
                  (Some workingLease) throwingHandlers).2 = 0%nat.
Proof.
  destruct (commandAction_releases_lease failingTasks
              "Error starting node" workingLease sampleHandlers eq_refl)
    as (Hcount & _ & Hthrow & _).
  destruct (commandAction_releases_lease failingTasks
              "Error starting node" workingLease throwingHandlers eq_refl)
    as (_ & Hskip & _).
  split; [exact (Hcount _ eq_refl)|].
  split; [exact (Hthrow taskFailure eq_refl)|].
  exact (proj1 (Hskip closeFailure eq_refl)).
Defined.

(** C1, as stated, fails: the tasks throw, the release of the lease fails,
    and the caller receives the failure of the release, which does not
    carry the error of the tasks. *)
Lemma commandAction_release_failure_masks_error :
  (run failingTasks "Error starting node"
     (Some failingLease) sampleHandlers).1 = Throw releaseFailure /\
  ~ carries releaseFailure taskFailure.
Proof.
  split; [reflexivity|]. simpl. intros [Heq|[]]. discriminate Heq.
Qed.

End Action.

(** ** Configuration objects *)

Section ConfigObjects.

Import NewConfigClass ConfigObject.

Implicit Types (o : NewConfigClass.t) (key : string) (depth : nat).


Lemma length_underscore key :
  String.length ("_" +:+ key) = S (String.length key).
Proof. reflexivity. Qed.



Lemma getProperty_S depth key o :
  getProperty (S depth) key o =
  match properties o !! key with
  | None => (Return VUndefined, o)
  | Some (DataProperty v) => (Return v, o)
  | Some (AccessorProperty _ _) =>
      match getProperty depth "usedConfigs" (recordGetterCall key o) with
      | (Return VUsedConfigsMap, o1) =>
          getProperty depth ("_" +:+ key)
            (setUsedConfigs (fun used => <[key := nextCount used key]> used) o1)
      | (Return _, o1) =>
          (Throw (TypeError "this.usedConfigs.set is not a function"), o1)
      | (Throw e, o1) => (Throw e, o1)
      end
  end.
Proof.
  cbn [getProperty]. unfold mbind, M_bind, gets, modify, mret, M_ret, throw.
  destruct (properties o !! key) as [[v|s c]|]; try reflexivity.
  destruct (getProperty depth "usedConfigs" (recordGetterCall key o))
    as [[[]|e] o1]; reflexivity.
Qed.

Lemma eta o :
  o = Build (flags o) (extraProperties o) (usedConfigs o) (properties o)
        (getterCalls o).
Proof. by destruct o. Qed.


Lemma classMember_underscore key : ~ classMember ("_" +:+ key).
Proof. intros [H|H]; discriminate H. Qed.

(** An assignment to a key that is no member of the class changes data
    properties only, and neither the usage map nor the recorded calls. *)
Lemma setProperty_spec depth key value o :
  ~ classMember key ->
  exists r props',
    setProperty depth key value o =
      (r, Build (flags o) (extraProperties o) (usedConfigs o) props'
            (getterCalls o)) /\
    props' !! "usedConfigs" = properties o !! "usedConfigs" /\
    props' !! "getUnusedConfigs" = properties o !! "getUnusedConfigs" /\
    (forall k, isAccessor (props' !! k) = isAccessor (properties o !! k)).
Proof.
  revert key. induction depth as [|depth IH]; intros key Hkey.
  { eexists _, (properties o). by rewrite <- eta. }
  cbn [setProperty]. unfold mbind, M_bind, gets, modify, throw.
  assert (isAccessor (properties o !! key) = false ->
          <[key := DataProperty value]> (properties o) !! "usedConfigs"
            = properties o !! "usedConfigs" /\
          <[key := DataProperty value]> (properties o) !! "getUnusedConfigs"
            = properties o !! "getUnusedConfigs" /\
          forall k, isAccessor (<[key := DataProperty value]> (properties o) !! k)
                    = isAccessor (properties o !! k)) as Hframe.
  { intros Hk. split; [|split].
    - apply lookup_insert_ne. intros ->. apply Hkey. by left.
    - apply lookup_insert_ne. intros ->. apply Hkey. by right.
    - intros k. destruct (decide (key = k)) as [<-|Hne].
      + by rewrite lookup_insert_eq, Hk.
      + by rewrite lookup_insert_ne. }
  destruct (properties o !! key) as [[v|[] c]|] eqn:Hk.
  - eexists _, _. split; [reflexivity|]. by apply Hframe.
  - apply IH, classMember_underscore.
  - eexists _, (properties o). by rewrite <- eta.
  - eexists _, _. split; [reflexivity|]. by apply Hframe.
Qed.

(** [defineProperty] turns [key] into an accessor property or throws; it
    touches no other property. *)
Lemma defineProperty_spec key hasSetter o :
  exists r props',
    defineProperty key hasSetter o =
      (r, Build (flags o) (extraProperties o) (usedConfigs o) props'
            (getterCalls o)) /\
    (forall k, k ≠ key -> props' !! k = properties o !! k) /\
    (forall k, isAccessor (properties o !! k) = true ->
               isAccessor (props' !! k) = true) /\
    (r = Return tt -> isAccessor (props' !! key) = true).
Proof.
  unfold defineProperty, mbind, M_bind, gets, modify, throw.
  destruct (properties o !! key) as [[v|s []]|] eqn:Hk.
  2: { eexists _, _. split; [reflexivity|]. split; [|split].
       - intros k Hne. by rewrite lookup_insert_ne.
       - intros k Hacc. destruct (decide (key = k)) as [<-|Hne].
         + by rewrite lookup_insert_eq. + by rewrite lookup_insert_ne.
       - by rewrite lookup_insert_eq. }
  2: { eexists _, (properties o). rewrite <- eta.
       split; [reflexivity|]. split; [done|]. split; [done|]. done. }
  all: eexists _, _; (split; [reflexivity|]); split; [|split].
  all: try (intros k Hne; by rewrite lookup_insert_ne).
  all: try (by rewrite lookup_insert_eq).
  all: intros k Hacc; destruct (decide (key = k)) as [<-|Hne];
    [by rewrite lookup_insert_eq|by rewrite lookup_insert_ne].
Qed.

(** One declaration of the constructor: the backing field is assigned and
    the accessor property defined. *)
Lemma declare_step declared o name value hasSetter o' :
  objectInvariant declared o -> ~ classMember name ->
  (set ("_" +:+ name) value;; defineProperty name hasSetter) o = (Return tt, o') ->
  objectInvariant (declared ++ [name]) o' /\
  flags o' = flags o /\ extraProperties o' = extraProperties o /\
  getterCalls o' = getterCalls o.
Proof.
  intros (Hmap & Hmeth & Hacc & Hused) Hname. unfold mbind, M_bind, set.
  destruct (setProperty_spec (callDepth o) ("_" +:+ name) value o
              (classMember_underscore name))
    as (r1 & props1 & -> & Hmap1 & Hmeth1 & Hacc1).
  destruct r1 as [[]|e]; [|done].
  destruct (defineProperty_spec name hasSetter
              (Build (flags o) (extraProperties o) (usedConfigs o) props1
                 (getterCalls o)))
    as (r2 & props2 & -> & Hother & Hmono & Hdef).
  cbn [flags extraProperties usedConfigs properties getterCalls] in *.
  intros [= -> <-]. split; [|done]. repeat split; cbn.
  - rewrite Hother, Hmap1; [done|]. intros Heq. apply Hname. by left.
  - rewrite Hother, Hmeth1; [done|]. intros Heq. apply Hname. by right.
  - intros Hk. apply elem_of_app. destruct (decide (k = name)) as [->|Hne].
    + right. by left.
    + left. apply Hacc. by rewrite <- Hacc1, <- Hother.
  - intros [Hk| ->%list_elem_of_singleton]%elem_of_app.
    + apply Hmono. rewrite Hacc1. by apply Hacc.
    + by apply Hdef.
  - apply Hused.
  - apply Hused.
Qed.

(** A [forEach] that returns has kept what every step keeps. *)
Lemma forEach_invariant {S A} (f : A -> unit -> M S unit)
    (Inv : list A -> S -> Prop) (l : list A) :
  (forall done x s s',
     x ∈ l -> Inv done s -> f x tt s = (Return tt, s') -> Inv (done ++ [x]) s') ->
  forall done s s',
    Inv done s -> forEach l f tt s = (Return tt, s') -> Inv (done ++ l) s'.
Proof.
  induction l as [|x l IH]; intros Hstep done s s' Hinv; simpl.
  - intros [= <-]. by rewrite app_nil_r.
  - unfold mbind, M_bind. destruct (f x tt s) as [[[]|e] s1] eqn:Hf; [|done].
    intros Hrest. rewrite (assoc_L (++) done [x] l : done ++ x :: l = _).
    apply (IH (fun done x s s' Hx => Hstep done x s s' (list_elem_of_further _ _ _ Hx))
              _ s1); [|done].
    eapply Hstep; [by left|done|done].
Qed.

Lemma setProperty_S depth key value o :
  setProperty (S depth) key value o =
  match properties o !! key with
  | None | Some (DataProperty _) =>
      (Return tt, setProperties (insert key (DataProperty value)) o)
  | Some (AccessorProperty true _) => setProperty depth ("_" +:+ key) value o
  | Some (AccessorProperty false _) =>
      (Throw (TypeError "Cannot set property which has only a getter"), o)
  end.
Proof.
  cbn [setProperty]. unfold mbind, M_bind, gets, modify, throw.
  by destruct (properties o !! key) as [[v|[] c]|].
Qed.

Lemma set_usedConfigs_fresh F E :
  set "usedConfigs" VUsedConfigsMap (Build F E ∅ ∅ []) =
  (Return tt, Build F E ∅ {[ "usedConfigs" := DataProperty VUsedConfigsMap ]} []).
Proof.
  unfold set, callDepth. cbn [Nat.add]. rewrite setProperty_S. cbn [properties].
  rewrite lookup_empty. unfold setProperties. cbn.
  by rewrite insert_empty.
Qed.

(** The constructor, when it returns: the object declares the flags and the
    extra properties, and no getter has been invoked. *)
Lemma constructor_spec cm F E o :
  (forall name, name ∈ declaredNames F E -> ~ classMember name) ->
  constructor cm (Build F E ∅ ∅ []) = (Return tt, o) ->
  objectInvariant (declaredNames F E) o /\
  flags o = F /\ extraProperties o = E /\ getterCalls o = [].
Proof.
  intros Hnames. unfold constructor.
  unfold mbind at 1, M_bind at 1. rewrite set_usedConfigs_fresh.
  unfold mbind at 1, M_bind at 1, gets at 1. cbn [flags].
  unfold mbind at 1, M_bind at 1.
  set (Inv := fun (declared : list string) o =>
                objectInvariant declared o /\
                flags o = F /\ extraProperties o = E /\ getterCalls o = []).
  destruct (forEach (default [] F) _ tt _) as [[[]|e] o1] eqn:Hflags; [|done].
  apply (forEach_invariant _
           (fun done o => Inv (CommandFlag.constName <$> done) o) _) with (done := [])
    in Hflags.
  - destruct Hflags as (Hinv1 & HF1 & HE1 & Hcalls1). simpl in Hinv1.
    unfold mbind at 1, M_bind at 1, gets at 1. rewrite HE1.
    intros Hextra.
    apply (forEach_invariant _
             (fun done o => Inv ((CommandFlag.constName <$> default [] F) ++ done) o) _)
      with (done := []) in Hextra; [done| |].
    + intros done name s s' Hname (Hinv & HF & HE & Hcalls) Hstep.
      apply declare_step with (declared := (CommandFlag.constName <$> default [] F) ++ done)
        in Hstep as (Hinv' & HF' & HE' & Hcalls'); [|done|].
      * unfold Inv. rewrite (assoc_L (++)). split; [done|]. repeat split; congruence.
      * apply Hnames. unfold declaredNames. apply elem_of_app. by right.
    + rewrite app_nil_r. by unfold Inv.
  - intros done flag s s' Hflag (Hinv & HF & HE & Hcalls) Hstep.
    apply declare_step with (declared := CommandFlag.constName <$> done)
      in Hstep as (Hinv' & HF' & HE' & Hcalls'); [|done|].
    + unfold Inv. rewrite fmap_app. split; [done|]. repeat split; congruence.
    + apply Hnames. unfold declaredNames. apply elem_of_app. left.
      by apply list_elem_of_fmap_2.
  - repeat split; cbn; try done.
    + intros Hk. destruct (decide (k = "usedConfigs")) as [->|Hne].
      * by rewrite lookup_singleton_eq in Hk.
      * by rewrite lookup_singleton_ne in Hk.
    + by intros ?%elem_of_nil.
    + rewrite lookup_empty. by intros [? ?].
    + by intros ?%elem_of_nil.
Qed.



Lemma usedConfigsHas_spec declared o key :
  objectInvariant declared o ->
  usedConfigsHas key o =
  (Return (bool_decide (is_Some (usedConfigs o !! key))), o).
Proof.
  intros (Hmap & _). unfold usedConfigsHas, mbind, M_bind, get, callDepth.
  cbn [Nat.add]. by rewrite getProperty_S, Hmap.
Qed.

Lemma forEach_collect {A} (g : A -> list string -> M NewConfigClass.t (list string))
    (f : A -> string) (P : string -> Prop) `{!forall n, Decision (P n)}
    o (l : list A) (acc : list string) :
  (forall x acc,
     g x acc o = (Return (if decide (P (f x)) then acc ++ [f x] else acc), o)) ->
  forEach l g acc o = (Return (acc ++ filter P (f <$> l)), o).
Proof.
  intros Hg. revert acc. induction l as [|x l IH]; intros acc; simpl.
  - by rewrite app_nil_r.
  - unfold mbind, M_bind. rewrite Hg, IH, filter_cons.
    destruct (decide (P (f x))); [|done]. by rewrite <- app_assoc.
Qed.

(** The method [getUnusedConfigs] on a constructed object: the declared
    names whose getter was not invoked, in the order of declaration. *)
Lemma callGetUnusedConfigs_spec declared o :
  objectInvariant declared o ->
  declaredNames (flags o) (extraProperties o) = declared ->
  callGetUnusedConfigs o =
  (Return (filter (fun name => name ∉ getterCalls o) declared), o).
Proof.
  intros Hinv <-. pose proof Hinv as (Hmap & Hmeth & Hacc & Hused).
  unfold callGetUnusedConfigs, mbind, M_bind, gets. rewrite Hmeth.
  unfold getUnusedConfigs, mbind, M_bind, gets.
  rewrite (forEach_collect _ CommandFlag.constName (fun name => name ∉ getterCalls o)).
  - rewrite (forEach_collect _ id (fun name => name ∉ getterCalls o)).
    + unfold declaredNames. by rewrite filter_app, list_fmap_id.
    + intros item acc. unfold mbind, M_bind.
      rewrite (usedConfigsHas_spec _ _ _ Hinv). unfold mret, M_ret, id.
      destruct (decide (item ∉ getterCalls o)) as [Hn|Hn].
      * rewrite bool_decide_eq_false_2; [done|]. by rewrite Hused.
      * rewrite bool_decide_eq_true_2; [done|]. rewrite Hused.
        by apply dec_stable.
  - intros flag acc. unfold mbind, M_bind.
    rewrite (usedConfigsHas_spec _ _ _ Hinv). unfold mret, M_ret.
    destruct (decide (CommandFlag.constName flag ∉ getterCalls o)) as [Hn|Hn].
    + rewrite bool_decide_eq_false_2; [done|]. by rewrite Hused.
    + rewrite bool_decide_eq_true_2; [done|]. rewrite Hused.
      by apply dec_stable.
Qed.

End ConfigObjects.

(** ** Unused configurations *)

Section Tracking.

Implicit Types (cmd : BaseCommand.t) (o : NewConfigClass.t).

(** What [getConfig] leaves behind when it returns. *)
Lemma getConfig_spec configName flags extraProperties cmd ref cmd1 :
  (forall name, name ∈ declaredNames flags extraProperties -> ~ classMember name) ->
  getConfig configName flags extraProperties cmd = (Return ref, cmd1) ->
  exists o,
    BaseCommand.objects cmd1 !! ref = Some o /\
    BaseCommand._configMaps cmd1 !! configName = Some ref /\
    objectInvariant (declaredNames flags extraProperties) o /\
    declaredNames (NewConfigClass.flags o) (NewConfigClass.extraProperties o)
      = declaredNames flags extraProperties /\
    NewConfigClass.getterCalls o = [].
Proof.
  intros Hnames. unfold getConfig.
  destruct (ConfigObject.constructor _ _) as [[[]|e] o] eqn:Hnew; [|done].
  intros [= <- <-]. cbn.
  apply constructor_spec in Hnew as (Hinv & HF & HE & Hcalls); [|done].
  exists o. by rewrite !lookup_insert_eq, HF, HE.
Qed.



(** [getUnusedConfigs] of the command, for a constructed object. *)
Lemma getUnusedConfigs_spec declared configName ref cmd o :
  BaseCommand._configMaps cmd !! configName = Some ref ->
  BaseCommand.objects cmd !! ref = Some o ->
  objectInvariant declared o ->
  declaredNames (NewConfigClass.flags o) (NewConfigClass.extraProperties o)
    = declared ->
  (getUnusedConfigs configName cmd).1 =
  Return (filter (fun name => name ∉ NewConfigClass.getterCalls o) declared).
Proof.
  intros Hmaps Hobj Hinv Hdecl.
  unfold getUnusedConfigs, mbind, M_bind, gets, onObject.
  by rewrite Hmaps, Hobj, (callGetUnusedConfigs_spec declared o Hinv Hdecl).
Qed.





End Tracking.

(** * Further properties *)

(** ** The command action, with or without a lease *)

Section ActionCleanup.

Import CommandAction.

Lemma Promise_all_fulfilled promises :
  Promise_all promises = Return tt <->
  forall p, p ∈ promises -> outcome p = Return tt.
Proof.
  unfold Promise_all.
  assert (firstRejection promises = None <->
          forall p, p ∈ promises -> outcome p = Return tt) as H.
  { induction promises as [|p promises IH]; simpl.
    - split; [by intros _ p ?%elem_of_nil|done].
    - destruct (outcome p) as [[]|e] eqn:Hp.
      + rewrite IH. split.
        * intros Hall q [->|Hq]%elem_of_cons; auto.
        * intros Hall q Hq. apply Hall. by right.
      + split.
        * destruct (firstRejection promises) as [[t e']|]; [|done].
          by destruct (Nat.leb _ _).
        * intros Hall. specialize (Hall p (list_elem_of_here _ _)). congruence. }
  destruct (firstRejection promises) as [[t e]|].
  - split; [done|]. intros Hall. by apply H in Hall.
  - split; [|done]. intros _. by apply H.
Qed.

(** X1: when the task list cannot be built, the action throws what the
    construction threw and nothing is run, closed or released.  When it is
    built, [parent.close()] is invoked exactly once on every path, after
    the tasks have run; [lease.release()] is invoked after it, once,
    exactly when there is a lease and [parent.close()] returned its
    promise, and not at all otherwise. *)
Theorem commandAction_closes_parent actionTasks errorString lease commandDef :
  (forall failure,
     construction actionTasks = Throw failure ->
     run actionTasks errorString lease commandDef = (Throw failure, [])) /\
  (construction actionTasks = Return tt ->
   let released :=
     match parentClose commandDef, lease with
     | Return _, Some _ => true
     | _, _ => false
     end in
   closeCount (run actionTasks errorString lease commandDef).2 = 1%nat /\
   releaseCount (run actionTasks errorString lease commandDef).2 =
     (if released then 1%nat else 0%nat) /\
   exists during,
     (run actionTasks errorString lease commandDef).2 =
       TasksRun :: during ++
       (ParentClose :: if released then [LeaseRelease] else []) /\
     (ParentClose ∉ during) /\ (LeaseRelease ∉ during)).
Proof.
  rewrite run_eval. split.
  - by intros failure ->.
  - intros ->. cbv zeta. cbn [snd].
    destruct (running actionTasks) as [[]|e],
      (parentClose commandDef) as [closing|failure], lease as [l|]; cbn.
    all: split; [done|]; split; [done|].
    all: first [ exists []; split; [done|]; split; by intros ?%elem_of_nil
               | eexists [_]; split; [done|];
                 split; intros ?%list_elem_of_singleton; done ].
Qed.

(** X2: the action returns normally exactly when the task list is built,
    the tasks complete, and [parent.close()] and, with a lease,
    [lease.release()] return promises that are fulfilled. *)
Theorem commandAction_returns_iff actionTasks errorString lease commandDef :
  (run actionTasks errorString lease commandDef).1 = Return tt <->
  construction actionTasks = Return tt /\
  running actionTasks = Return tt /\
  (exists closing,
     parentClose commandDef = Return closing /\ outcome closing = Return tt) /\
  (forall l, lease = Some l ->
     exists releasing,
       release l = Return releasing /\ outcome releasing = Return tt).
Proof.
  rewrite run_eval.
  assert (cleanup lease commandDef = Return tt <->
          (exists closing,
             parentClose commandDef = Return closing /\
             outcome closing = Return tt) /\
          (forall l, lease = Some l ->
             exists releasing,
               release l = Return releasing /\ outcome releasing = Return tt))
    as Hall.
  { unfold cleanup.
    destruct (parentClose commandDef) as [closing|failure].
    2: { split; [done|]. by intros [(closing & ? & _) _]. }
    destruct lease as [l|].
    - destruct (release l) as [releasing|failure] eqn:Hrelease.
      + rewrite Promise_all_fulfilled. split.
        * intros H. split.
          -- exists closing. split; [done|]. apply H. by left.
          -- intros l' [= <-]. exists releasing. split; [done|].
             apply H. right. by left.
        * intros [(c & [= <-] & Hc) Hr] p [->|Hp]%elem_of_cons; [done|].
          apply list_elem_of_singleton in Hp as ->.
          destruct (Hr l eq_refl) as (r & Hr' & Hout).
          rewrite Hrelease in Hr'. by injection Hr' as <-.
      + split; [done|]. intros [_ Hr].
        destruct (Hr l eq_refl) as (r & Hr' & _). by rewrite Hrelease in Hr'.
    - rewrite Promise_all_fulfilled. split.
      + intros H. split; [|done]. exists closing. split; [done|].
        apply H. by left.
      + intros [(c & [= <-] & Hc) _] p Hp.
        by apply list_elem_of_singleton in Hp as ->. }
  destruct (construction actionTasks) as [[]|failure]; cbn [fst].
  2: { split; [done|]. by intros [? _]. }
  destruct (cleanup lease commandDef) as [[]|failure].
  - destruct (running actionTasks) as [[]|e].
    + split; [intros _; split; [done|split; [done|by apply Hall]]|done].
    + split; [done|]. by intros (_ & ? & _).
  - split; [done|]. intros (_ & _ & H). by apply Hall in H.
Qed.

(** X3: [logger.error] is called exactly when the tasks throw, once, with
    the error string followed by the message of the error, and with the
    error; a failure of [parent.close()] or of [lease.release()] is not
    logged, and neither is a failure to build the task list. *)
Theorem commandAction_logs_task_error actionTasks errorString lease commandDef :
  loggedErrors (run actionTasks errorString lease commandDef).2 =
  match construction actionTasks, running actionTasks with
  | Return _, Throw e => [(errorString +:+ ": " +:+ message e, e)]
  | _, _ => []
  end.
Proof.
  rewrite run_eval.
  destruct (construction actionTasks) as [[]|failure]; [|done]. cbn [snd].
  by destruct (running actionTasks) as [[]|e],
    (parentClose commandDef) as [closing|failure'], lease as [l|].
Qed.

End ActionCleanup.

(** ** Contexts and cluster references of the derived nodes *)

Section DerivedViews.

Implicit Types (cmd : BaseCommand.t).

Lemma getContexts_run cmd :
  getContexts cmd =
  (match (getConsensusNodes cmd).1 with
   | Return nodes => Return (collectContexts nodes [])
   | Throw e => Throw e
   end, cmd) /\
  getClusterRefs cmd =
  (match (getConsensusNodes cmd).1 with
   | Return nodes => Return (collectClusterRefs nodes ∅)
   | Throw e => Throw e
   end, cmd).
Proof.
  unfold getContexts, getClusterRefs, mbind, M_bind.
  rewrite getConsensusNodes_eval.
  by destruct (RemoteConfigManager.isLoaded _).
Qed.

(** X4: [getContexts] and [getClusterRefs] never change the command, and
    they fail exactly as [getConsensusNodes] does: with its error, and in
    particular with the [SoloError] of a remote configuration that is not
    loaded. *)
Theorem getContexts_getClusterRefs_fail_as_nodes cmd :
  (getContexts cmd).2 = cmd /\ (getClusterRefs cmd).2 = cmd /\
  (forall e,
     (getConsensusNodes cmd).1 = Throw e <->
     (getContexts cmd).1 = Throw e) /\
  (forall e,
     (getConsensusNodes cmd).1 = Throw e <->
     (getClusterRefs cmd).1 = Throw e) /\
  (RemoteConfigManager.isLoaded (BaseCommand.remoteConfigManager cmd) = false ->
   (getContexts cmd).1 =
     Throw (SoloError "Remote configuration is not loaded, and was expected to be loaded" None) /\
   (getClusterRefs cmd).1 =
     Throw (SoloError "Remote configuration is not loaded, and was expected to be loaded" None)).
Proof.
  destruct (getContexts_run cmd) as [-> ->]. cbn [fst snd].
  split; [done|]. split; [done|]. split; [|split].
  - intros e. destruct ((getConsensusNodes cmd).1); split; congruence.
  - intros e. destruct ((getConsensusNodes cmd).1); split; congruence.
  - intros Hl. rewrite getConsensusNodes_eval, Hl. done.
Qed.

Lemma getContexts_getClusterRefs_fail_as_nodes_witness :
  (getContexts (sampleCommand false (Return None))).1 =
    Throw (SoloError "Remote configuration is not loaded, and was expected to be loaded" None) /\
  (getClusterRefs (sampleCommand false (Return None))).1 =
    Throw (SoloError "Remote configuration is not loaded, and was expected to be loaded" None).
Proof.
  destruct (getContexts_getClusterRefs_fail_as_nodes
              (sampleCommand false (Return None))) as (_ & _ & _ & _ & H).
  apply H. reflexivity.
Defined.

Lemma firstInCluster_Some ref nodes node :
  firstInCluster ref nodes = Some node ->
  node ∈ nodes /\ ConsensusNode.cluster node = ref.
Proof.
  unfold firstInCluster. intros H.
  assert (node ∈ filter (fun n => ConsensusNode.cluster n = ref) nodes) as Hin.
  { destruct (filter _ nodes) as [|n l]; [done|]. injection H as ->. by left. }
  apply list_elem_of_filter in Hin. tauto.
Qed.

Lemma firstInCluster_None ref nodes :
  firstInCluster ref nodes = None <->
  ref ∉ (ConsensusNode.cluster <$> nodes).
Proof.
  unfold firstInCluster. rewrite list_elem_of_fmap. split.
  - intros H (node & -> & Hin).
    assert (node ∈ filter (fun n => ConsensusNode.cluster n = ConsensusNode.cluster node) nodes)
      as Hf by by apply list_elem_of_filter.
    destruct (filter _ nodes); [by apply elem_of_nil in Hf|done].
  - intros H. destruct (filter _ nodes) as [|n l] eqn:Hf; [done|]. exfalso.
    assert (n ∈ filter (fun n0 => ConsensusNode.cluster n0 = ref) nodes) as Hin
      by (rewrite Hf; by left).
    apply list_elem_of_filter in Hin as [Hc Hin]. apply H. eauto.
Qed.

(** X5: with a loaded remote configuration, [getClusterRefs] returns a
    record with an entry for exactly the cluster references of the node
    records other than [__proto__]; the value of the entry is what the
    read [clusterRefs[ref]] of the local configuration yields: the context
    stored there, and for a reference the local configuration lacks
    [undefined], or the member of [Object.prototype] of that name. *)
Theorem getClusterRefs_restricts_local_config cmd :
  RemoteConfigManager.isLoaded (BaseCommand.remoteConfigManager cmd) = true ->
  exists clustersRefs,
    (getClusterRefs cmd).1 = Return clustersRefs /\
    forall ref,
      clustersRefs !! ref =
      if bool_decide
           (ref ∈ (ConsensusNodeComponent.cluster <$>
                     (nodeRecord (BaseCommand.remoteConfigManager cmd)).*2) /\
            ref ≠ "__proto__")
      then Some (readProperty
                   (LocalConfig.clusterRefs (BaseCommand.localConfig cmd)) ref)
      else None.
Proof.
  intros Hl. destruct (getContexts_run cmd) as [_ ->].
  rewrite getConsensusNodes_eval, Hl. cbn [fst]. eexists. split; [done|].
  intros ref. rewrite collectClusterRefs_lookup, lookup_empty.
  set (nodes := _ <$> Object_values _).
  assert (forall r, r ∈ ConsensusNode.cluster <$> nodes <->
                    r ∈ ConsensusNodeComponent.cluster <$>
                          (nodeRecord (BaseCommand.remoteConfigManager cmd)).*2) as Hc.
  { intros r. unfold nodes, Object_values.
    rewrite <- list_fmap_compose, ownEntries_Permutation. done. }
  destruct (decide (ref = "__proto__")) as [->|Hne].
  { rewrite bool_decide_eq_false_2; [done|]. by intros [_ ?]. }
  destruct (firstInCluster ref nodes) as [node|] eqn:Hf.
  - apply firstInCluster_Some in Hf as [Hin <-].
    rewrite bool_decide_eq_true_2.
    + apply list_elem_of_fmap in Hin as (record & -> & _). done.
    + split; [|done]. apply Hc. by apply list_elem_of_fmap_2.
  - apply firstInCluster_None in Hf. rewrite bool_decide_eq_false_2; [done|].
    intros [Hin _]. by apply Hf, Hc.
Qed.

Lemma getClusterRefs_restricts_local_config_witness :
  exists clustersRefs,
    (getClusterRefs loadedCommand).1 = Return clustersRefs /\
    clustersRefs !! "cluster-1" = Some (Stored "kind-one") /\
    clustersRefs !! "cluster-3" = Some Undefined /\
    clustersRefs !! "cluster-4" = None.
Proof.
  destruct (getClusterRefs_restricts_local_config loadedCommand eq_refl)
    as (clustersRefs & Hrefs & Hlookup).
  exists clustersRefs. split; [exact Hrefs|].
  rewrite !Hlookup. repeat split; reflexivity.
Defined.

(** X6: with a loaded remote configuration, every value of the record
    [getClusterRefs] returns is one of the contexts [getContexts] returns.
    When no node record lies in the cluster [__proto__], the contexts are
    exactly the values of that record, and there are at most as many
    contexts as cluster references. *)
Theorem getContexts_are_values_of_getClusterRefs cmd :
  RemoteConfigManager.isLoaded (BaseCommand.remoteConfigManager cmd) = true ->
  exists contexts clustersRefs,
    (getContexts cmd).1 = Return contexts /\
    (getClusterRefs cmd).1 = Return clustersRefs /\
    (forall context ref, clustersRefs !! ref = Some context -> context ∈ contexts) /\
    ("__proto__" ∉ (ConsensusNodeComponent.cluster <$>
                      (nodeRecord (BaseCommand.remoteConfigManager cmd)).*2) ->
     (forall context,
        context ∈ contexts <-> exists ref, clustersRefs !! ref = Some context) /\
     length contexts <= size clustersRefs).
Proof.
  intros Hl. destruct (getContexts_run cmd) as [-> ->].
  rewrite getConsensusNodes_eval, Hl. cbn [fst].
  set (nodes := _ <$> Object_values _).
  assert (forall r, r ∈ ConsensusNode.cluster <$> nodes <->
                    r ∈ ConsensusNodeComponent.cluster <$>
                          (nodeRecord (BaseCommand.remoteConfigManager cmd)).*2) as Hc.
  { intros r. unfold nodes, Object_values.
    rewrite <- list_fmap_compose, ownEntries_Permutation. done. }
  assert (forall node, node ∈ nodes ->
            ConsensusNode.context node =
            readProperty (LocalConfig.clusterRefs (BaseCommand.localConfig cmd))
              (ConsensusNode.cluster node)) as Hctx.
  { intros node (record & -> & _)%list_elem_of_fmap. done. }
  assert (forall context ref,
            collectClusterRefs nodes ∅ !! ref = Some context ->
            context ∈ collectContexts nodes []) as Hvalues.
  { intros context ref Href.
    rewrite collectClusterRefs_lookup, lookup_empty in Href.
    destruct (decide (ref = "__proto__")); [done|].
    destruct (firstInCluster ref nodes) as [first|] eqn:Hf; [|done].
    apply firstInCluster_Some in Hf as [Hfirst _]. injection Href as <-.
    rewrite collectContexts_spec, app_nil_l, elem_of_distinctFirstSeen,
      list_elem_of_filter, list_elem_of_fmap.
    split; [apply not_elem_of_nil|]. eauto. }
  eexists _, _. split; [done|]. split; [done|]. split; [exact Hvalues|].
  intros Hproto.
  assert (forall context,
            context ∈ collectContexts nodes [] <->
            exists ref, collectClusterRefs nodes ∅ !! ref = Some context) as Hiff.
  { intros context. split; [|intros (ref & Href); by eapply Hvalues].
    rewrite collectContexts_spec, app_nil_l, elem_of_distinctFirstSeen,
      list_elem_of_filter, list_elem_of_fmap.
    intros (_ & node & -> & Hin). exists (ConsensusNode.cluster node).
    rewrite collectClusterRefs_lookup, lookup_empty.
    rewrite decide_False.
    2: { intros Heq. apply Hproto, Hc. rewrite <- Heq.
         by apply list_elem_of_fmap_2. }
    destruct (firstInCluster (ConsensusNode.cluster node) nodes) as [first|] eqn:Hf.
    - apply firstInCluster_Some in Hf as [Hfirst Hcl]. simpl.
      by rewrite (Hctx _ Hfirst), (Hctx _ Hin), Hcl.
    - apply firstInCluster_None in Hf. exfalso. apply Hf.
      by apply list_elem_of_fmap_2. }
  split; [exact Hiff|].
  rewrite <- length_map_to_list, <- (length_fmap snd).
  apply submseteq_length, NoDup_submseteq.
  - rewrite collectContexts_spec, app_nil_l. apply NoDup_distinctFirstSeen.
  - intros context (ref & Href)%Hiff. apply list_elem_of_fmap.
    exists (ref, context). split; [done|]. by apply elem_of_map_to_list.
Qed.

Lemma getContexts_are_values_of_getClusterRefs_witness :
  exists contexts clustersRefs,
    (getContexts loadedCommand).1 = Return contexts /\
    (getClusterRefs loadedCommand).1 = Return clustersRefs /\
    (forall context,
       context ∈ contexts <-> exists ref, clustersRefs !! ref = Some context) /\
    length contexts <= size clustersRefs.
Proof.
  destruct (getContexts_are_values_of_getClusterRefs loadedCommand eq_refl)
    as (contexts & clustersRefs & Hc & Hr & _ & Hall).
  exists contexts, clustersRefs. split; [exact Hc|]. split; [exact Hr|].
  apply Hall. intros Hin.
  repeat (apply elem_of_cons in Hin as [Hin|Hin]; [discriminate Hin|]).
  by apply elem_of_nil in Hin.
Defined.

End DerivedViews.

(** ** Construction of configuration objects *)

Section Construction.

Import NewConfigClass ConfigObject.

Implicit Types (o : NewConfigClass.t) (d : string * Value * bool)
  (done : list (string * Value * bool)).

Lemma underscore_ne key : "_" +:+ key ≠ key.
Proof.
  intros H. apply (f_equal String.length) in H.
  rewrite length_underscore in H. lia.
Qed.

Lemma underscore_inj key1 key2 : "_" +:+ key1 = "_" +:+ key2 -> key1 = key2.
Proof.
  intros H. change (String "_" key1 = String "_" key2) in H. by injection H.
Qed.

Lemma set_data o key value :
  isAccessor (properties o !! key) = false ->
  set key value o =
  (Return tt, setProperties (insert key (DataProperty value)) o).
Proof.
  intros Hk. unfold set, callDepth. cbn [Nat.add]. rewrite setProperty_S.
  by destruct (properties o !! key) as [[v|s c]|].
Qed.

(** Declaring a name that is new. *)
Lemma declare_fresh done o d :
  declaredState done o ->
  wellFormedNames (declaredAs (done ++ [d])) ->
  exists props',
    declare d o =
      (Return tt,
       Build (flags o) (extraProperties o) (usedConfigs o) props' (getterCalls o)) /\
    declaredState (done ++ [d])
      (Build (flags o) (extraProperties o) (usedConfigs o) props' (getterCalls o)).
Proof.
  intros (Hmap & Hmeth & Hacc & Hdata & Hdone) (Hnodup & Halias & Hmember).
  unfold declaredAs in *. rewrite fmap_app in Hnodup, Halias, Hmember.
  cbn [fmap list_fmap] in Hnodup, Halias, Hmember.
  destruct d as [[name value] hasSetter]. cbn [fst snd] in *.
  apply NoDup_app in Hnodup as (Hnd & Hfresh & _).
  assert (name ∉ (fun d => d.1.1) <$> done) as Hname.
  { intros Hin. apply (Hfresh _ Hin). by left. }
  assert (~ classMember name) as Hnomember.
  { apply Hmember, elem_of_app. right. by left. }
  assert (("_" +:+ name) ∉ (fun d => d.1.1) <$> done) as Hbacking.
  { intros Hin. apply (Halias name); apply elem_of_app; [right; by left|by left]. }
  assert (forall n, n ∈ (fun d => d.1.1) <$> done -> "_" +:+ n ≠ name) as Hnotbacking.
  { intros n Hn Heq. apply (Halias n); apply elem_of_app; [by left|].
    right. rewrite Heq. by left. }
  assert (properties o !! name = None) as Hnone.
  { destruct (properties o !! name) as [[v|s c]|] eqn:Hk; [| |done].
    - apply Hdata in Hk as [->|(n & Hn & Heq)].
      + exfalso. apply Hnomember. by left.
      + exfalso. by apply (Hnotbacking n).
    - exfalso. apply Hname, Hacc. by rewrite Hk. }
  unfold declare, mbind, M_bind. cbn [fst snd].
  rewrite set_data.
  2: { apply not_true_is_false. intros Hk. by apply Hbacking, Hacc. }
  unfold defineProperty, mbind, M_bind, gets, modify, setProperties.
  cbn [properties flags extraProperties usedConfigs getterCalls].
  rewrite lookup_insert_ne by apply underscore_ne. rewrite Hnone.
  eexists. split; [reflexivity|].
  unfold declaredState, declaredAs. cbn [properties]. rewrite fmap_app.
  cbn [fmap list_fmap fst snd].
  split; [|split; [|split; [|split]]].
  - rewrite !lookup_insert_ne; [done| |]; intros Heq.
    + discriminate Heq.
    + apply Hnomember. left. done.
  - rewrite !lookup_insert_ne; [done| |]; intros Heq.
    + discriminate Heq.
    + apply Hnomember. right. done.
  - intros k. rewrite elem_of_app, list_elem_of_singleton.
    destruct (decide (name = k)) as [<-|Hne].
    + rewrite lookup_insert_eq. simpl. tauto.
    + rewrite lookup_insert_ne by done.
      destruct (decide ("_" +:+ name = k)) as [<-|Hne2].
      * rewrite lookup_insert_eq. simpl. split; [done|].
        intros [Hin|Heq]; [done|]. by apply underscore_ne in Heq.
      * rewrite lookup_insert_ne by done. rewrite Hacc. split; [tauto|].
        intros [?|?]; [done|congruence].
  - intros k v. destruct (decide (name = k)) as [<-|Hne].
    + by rewrite lookup_insert_eq.
    + rewrite lookup_insert_ne by done.
      destruct (decide ("_" +:+ name = k)) as [<-|Hne2].
      * intros _. right. exists name. split; [|done].
        apply elem_of_app. right. by left.
      * rewrite lookup_insert_ne by done. intros [->|(n & Hn & ->)]%Hdata.
        -- by left.
        -- right. exists n. split; [|done]. apply elem_of_app. by left.
  - intros d' [Hd'| ->%list_elem_of_singleton]%elem_of_app.
    + destruct (Hdone d' Hd') as [Ha Hb].
      assert (d'.1.1 ∈ (fun d => d.1.1) <$> done) as Hn'
        by (apply list_elem_of_fmap; eauto).
      split; rewrite !lookup_insert_ne; try done; intros Heq;
        first [ by apply (Hnotbacking _ Hn')
              | apply underscore_inj in Heq; apply Hname; by rewrite Heq
              | apply Hname; by rewrite Heq
              | apply Hbacking; by rewrite Heq ].
    + cbn [fst snd]. rewrite lookup_insert_eq.
      rewrite lookup_insert_ne by (intros Heq; symmetry in Heq; by apply underscore_ne in Heq).
      by rewrite lookup_insert_eq.
Qed.

(** Declaring a name that is declared already. *)
Lemma declare_again done o d :
  declaredState done o ->
  d.1.1 ∈ declaredAs done -> ("_" +:+ d.1.1) ∉ declaredAs done ->
  exists o', declare d o = (Throw (TypeError "Cannot redefine property"), o').
Proof.
  intros (Hmap & Hmeth & Hacc & Hdata & Hdone) Hin Hbacking.
  destruct d as [[name value] hasSetter]. cbn [fst snd] in *.
  unfold declare, mbind, M_bind. cbn [fst snd].
  rewrite set_data.
  2: { apply not_true_is_false. intros Hk. by apply Hbacking, Hacc. }
  unfold defineProperty, mbind, M_bind, gets, modify, throw, setProperties.
  cbn [properties]. rewrite lookup_insert_ne by apply underscore_ne.
  apply list_elem_of_fmap in Hin as (d' & -> & Hd').
  destruct (Hdone d' Hd') as [-> _]. eauto.
Qed.

Lemma wellFormedNames_prefix (l1 l2 : list string) :
  wellFormedNames (l1 ++ l2) -> wellFormedNames l1.
Proof.
  intros (Hnd & Halias & Hmember). split; [|split].
  - by apply NoDup_app in Hnd as (? & _).
  - intros n Hn Hb. apply (Halias n); apply elem_of_app; by left.
  - intros n Hn. apply Hmember, elem_of_app. by left.
Qed.

Lemma forEach_app {S A B} (f : A -> B -> M S B) (l1 l2 : list A) acc s :
  forEach (l1 ++ l2) f acc s =
  match forEach l1 f acc s with
  | (Return acc', s') => forEach l2 f acc' s'
  | (Throw e, s') => (Throw e, s')
  end.
Proof.
  revert acc s. induction l1 as [|x l1 IH]; intros acc s; [done|].
  simpl. unfold mbind, M_bind. destruct (f x acc s) as [[acc'|e] s']; [|done].
  apply IH.
Qed.

(** A loop of declarations of new names returns. *)
Lemma forEach_declare_returns {A} (toDecl : A -> string * Value * bool)
    (l : list A) done o :
  declaredState done o ->
  wellFormedNames (declaredAs (done ++ (toDecl <$> l))) ->
  exists props',
    forEach l (fun x _ => declare (toDecl x)) tt o =
      (Return tt,
       Build (flags o) (extraProperties o) (usedConfigs o) props' (getterCalls o)) /\
    declaredState (done ++ (toDecl <$> l))
      (Build (flags o) (extraProperties o) (usedConfigs o) props' (getterCalls o)).
Proof.
  revert done o. induction l as [|x l IH]; intros done o Hstate Hwf.
  - exists (properties o). rewrite app_nil_r, <- eta. done.
  - cbn [fmap list_fmap] in Hwf.
    rewrite (assoc_L (++) done [toDecl x] (toDecl <$> l) :
               done ++ toDecl x :: (toDecl <$> l) = _) in Hwf.
    destruct (declare_fresh done o (toDecl x) Hstate) as (props1 & Hstep & Hstate1).
    { unfold declaredAs in *. rewrite fmap_app in Hwf.
      by apply wellFormedNames_prefix in Hwf. }
    destruct (IH _ _ Hstate1 Hwf) as (props' & Hrest & Hstate').
    exists props'. cbn [forEach]. unfold mbind at 1, M_bind at 1.
    rewrite Hstep, Hrest. cbn [fmap list_fmap].
    by rewrite (assoc_L (++) done [toDecl x] (toDecl <$> l) :
                  done ++ toDecl x :: (toDecl <$> l) = _).
Qed.

(** A loop of declarations throws at the first name that is declared a
    second time. *)
Lemma forEach_declare_throws {A} (toDecl : A -> string * Value * bool)
    (l1 : list A) x (l2 : list A) done o :
  declaredState done o ->
  wellFormedNames (declaredAs (done ++ (toDecl <$> l1))) ->
  (toDecl x).1.1 ∈ declaredAs (done ++ (toDecl <$> l1)) ->
  ("_" +:+ (toDecl x).1.1) ∉ declaredAs (done ++ (toDecl <$> l1)) ->
  exists o',
    forEach (l1 ++ x :: l2) (fun x _ => declare (toDecl x)) tt o =
    (Throw (TypeError "Cannot redefine property"), o').
Proof.
  intros Hstate Hwf Hin Hbacking. rewrite forEach_app.
  destruct (forEach_declare_returns toDecl l1 done o Hstate Hwf)
    as (props1 & -> & Hstate1).
  destruct (declare_again _ _ (toDecl x) Hstate1 Hin Hbacking) as (o' & Hthrow).
  exists o'. cbn [forEach]. unfold mbind, M_bind. by rewrite Hthrow.
Qed.

Lemma declaredAs_declarations cm F E :
  declaredAs (declarations cm F E) = declaredNames F E.
Proof.
  unfold declaredAs, declarations, declaredNames.
  rewrite fmap_app, <- !list_fmap_compose. f_equal.
  by rewrite <- (list_fmap_id (default [] E)) at 2.
Qed.

Lemma declaredState_fresh F E :
  declaredState []
    (Build F E ∅ {[ "usedConfigs" := DataProperty VUsedConfigsMap ]} []).
Proof.
  unfold declaredState, declaredAs. cbn.
  split; [done|]. split; [done|]. split; [|split].
  - intros k. rewrite elem_of_nil.
    destruct (decide (k = "usedConfigs")) as [->|Hne].
    + by rewrite lookup_singleton_eq.
    + by rewrite lookup_singleton_ne.
  - intros k v Hk. left. destruct (decide (k = "usedConfigs")) as [->|Hne]; [done|].
    by rewrite lookup_singleton_ne in Hk.
  - by intros d ?%elem_of_nil.
Qed.

(** The constructor as two loops of declarations. *)
Lemma constructor_loops cm F E :
  constructor cm (Build F E ∅ ∅ []) =
  match forEach (default [] F)
          (fun flag _ => declare (flagDeclaration cm flag))
          tt (Build F E ∅ {[ "usedConfigs" := DataProperty VUsedConfigsMap ]} []) with
  | (Return _, o1) =>
      forEach (default [] (extraProperties o1))
        (fun name _ => declare (extraDeclaration name)) tt o1
  | (Throw e, o1) => (Throw e, o1)
  end.
Proof.
  unfold constructor. unfold mbind at 1, M_bind at 1.
  rewrite set_usedConfigs_fresh.
  unfold mbind at 1, M_bind at 1, gets at 1. cbn [flags].
  unfold mbind at 1, M_bind at 1.
  change (fun (flag : CommandFlag.t) (_ : ()) =>
            set ("_" +:+ CommandFlag.constName flag) (ConfigManager.getFlag cm flag)
              ≫= (fun _ : () => defineProperty (CommandFlag.constName flag) false))
    with (fun (flag : CommandFlag.t) (_ : ()) => declare (flagDeclaration cm flag)).
  destruct (forEach _ _ _ _) as [[[]|e] o1]; [|done].
  unfold mbind at 1, M_bind at 1, gets at 1. reflexivity.
Qed.

(** With well-formed names the constructor returns, and the object is as
    declared. *)
Lemma constructor_returns cm F E :
  wellFormedNames (declaredNames F E) ->
  exists props,
    constructor cm (Build F E ∅ ∅ []) = (Return tt, Build F E ∅ props []) /\
    declaredState (declarations cm F E) (Build F E ∅ props []).
Proof.
  intros Hwf. rewrite <- (declaredAs_declarations cm) in Hwf.
  rewrite constructor_loops. unfold declarations in *.
  destruct (forEach_declare_returns (flagDeclaration cm)
              (default [] F) [] _ (declaredState_fresh F E))
    as (props1 & -> & Hstate1).
  { unfold declaredAs in *. rewrite fmap_app in Hwf.
    by apply wellFormedNames_prefix in Hwf. }
  cbn [extraProperties flags usedConfigs getterCalls] in *.
  destruct (forEach_declare_returns extraDeclaration
              (default [] E) _ _ Hstate1)
    as (props2 & -> & Hstate2); [done|].
  exists props2. done.
Qed.

Lemma first_duplicate {A} `{EqDecision A} (a b : list A) :
  NoDup a -> ~ NoDup (a ++ b) ->
  exists b1 x b2, b = b1 ++ x :: b2 /\ NoDup (a ++ b1) /\ x ∈ a ++ b1.
Proof.
  revert a. induction b as [|x b IH]; intros a Ha Hdup.
  - by rewrite app_nil_r in Hdup.
  - destruct (decide (x ∈ a)) as [Hx|Hx].
    + exists [], x, b. rewrite app_nil_r. done.
    + destruct (IH (a ++ [x])) as (b1 & y & b2 & -> & Hnd & Hy).
      * apply NoDup_app. split; [done|]. split; [|apply NoDup_singleton].
        intros z Hz ->%list_elem_of_singleton. done.
      * by rewrite <- (assoc_L (++)).
      * exists (x :: b1), y, b2. rewrite <- (assoc_L (++)) in Hnd, Hy. done.
Qed.

Lemma aliasFree_subset (l l' : list string) :
  aliasFree l -> (forall x, x ∈ l' -> x ∈ l) -> aliasFree l'.
Proof. intros Hl Hsub n Hn Hb. apply (Hl n); auto. Qed.

(** With a name declared twice the constructor throws. *)
Lemma constructor_throws cm F E :
  aliasFree (declaredNames F E) ->
  (forall name, name ∈ declaredNames F E -> ~ classMember name) ->
  ~ NoDup (declaredNames F E) ->
  exists o',
    constructor cm (Build F E ∅ ∅ []) =
    (Throw (TypeError "Cannot redefine property"), o').
Proof.
  intros Halias Hmember Hdup. rewrite constructor_loops.
  unfold declaredNames in *.
  assert (forall l : list CommandFlag.t,
            declaredAs (flagDeclaration cm <$> l) = CommandFlag.constName <$> l) as HnamesF.
  { intros l. unfold declaredAs. by rewrite <- list_fmap_compose. }
  assert (forall l : list string, declaredAs (extraDeclaration <$> l) = l) as HnamesE.
  { intros l. unfold declaredAs. rewrite <- list_fmap_compose. apply list_fmap_id. }
  destruct (decide (NoDup (CommandFlag.constName <$> default [] F))) as [HndF|HdupF].
  - destruct (forEach_declare_returns (flagDeclaration cm) (default [] F) [] _ (declaredState_fresh F E))
      as (props1 & -> & Hstate1).
    { cbn [app]. rewrite HnamesF. split; [done|]. split.
      - eapply aliasFree_subset; [done|]. intros x Hx. apply elem_of_app. by left.
      - intros n Hn. apply Hmember, elem_of_app. by left. }
    cbn [extraProperties flags usedConfigs getterCalls app] in *.
    destruct (first_duplicate _ _ HndF Hdup) as (E1 & e & E2 & HE & Hnd & He).
    rewrite HE.
    destruct (forEach_declare_throws extraDeclaration E1 e E2 _ _ Hstate1) as (o' & ->).
    + unfold declaredAs in *. rewrite fmap_app. fold (declaredAs (flagDeclaration cm <$> default [] F)).
      fold (declaredAs (extraDeclaration <$> E1)). rewrite HnamesF, HnamesE.
      split; [done|]. split.
      * eapply aliasFree_subset; [done|]. intros x Hx. rewrite HE.
        apply elem_of_app in Hx as [Hx|Hx]; apply elem_of_app; [by left|right].
        apply elem_of_app. by left.
      * intros n Hn. apply Hmember. rewrite HE.
        apply elem_of_app in Hn as [Hn|Hn]; apply elem_of_app; [by left|right].
        apply elem_of_app. by left.
    + unfold declaredAs in *. rewrite fmap_app. fold (declaredAs (flagDeclaration cm <$> default [] F)).
      fold (declaredAs (extraDeclaration <$> E1)). by rewrite HnamesF, HnamesE.
    + unfold declaredAs in *. rewrite fmap_app. fold (declaredAs (flagDeclaration cm <$> default [] F)).
      fold (declaredAs (extraDeclaration <$> E1)). rewrite HnamesF, HnamesE. cbn [fst].
      intros Hb. apply (Halias e).
      * rewrite HE. apply elem_of_app. right. apply elem_of_app. right. by left.
      * rewrite HE. apply elem_of_app in Hb as [Hb|Hb]; apply elem_of_app; [by left|right].
        apply elem_of_app. by left.
    + eauto.
  - destruct (first_duplicate [] _ (NoDup_nil_2) HdupF) as (n1 & c & n2 & Hn & Hnd & Hc).
    cbn [app] in Hnd, Hc.
    apply fmap_app_inv in Hn as (F1 & F2' & -> & Hn2 & HF).
    symmetry in Hn2. apply fmap_cons_inv in Hn2 as (f & F2 & -> & -> & ->).
    rewrite HF.
    destruct (forEach_declare_throws (flagDeclaration cm) F1 f F2 [] _ (declaredState_fresh F E))
      as (o' & ->).
    + cbn [app]. rewrite HnamesF. split; [done|]. split.
      * eapply aliasFree_subset; [done|]. intros x Hx. rewrite HF, fmap_app.
        apply elem_of_app. left. apply elem_of_app. by left.
      * intros n Hn. apply Hmember. rewrite HF, fmap_app.
        apply elem_of_app. left. apply elem_of_app. by left.
    + cbn [app]. by rewrite HnamesF.
    + cbn [app]. rewrite HnamesF. cbn [fst]. intros Hb. apply (Halias (CommandFlag.constName f)).
      * rewrite HF, fmap_app. apply elem_of_app. left. apply elem_of_app. right. by left.
      * rewrite HF, fmap_app. apply elem_of_app. left. apply elem_of_app. by left.
    + eauto.
Qed.

End Construction.

(** ** Values of configuration objects *)

Section ObjectValues.

Import NewConfigClass ConfigObject.

Implicit Types (o : NewConfigClass.t) (d : string * Value * bool)
  (done : list (string * Value * bool)).

Lemma declaredAs_afterWrites trace done :
  declaredAs (afterWrites trace done) = declaredAs done.
Proof. unfold declaredAs, afterWrites. by rewrite <- list_fmap_compose. Qed.

Lemma afterWrites_nil done : afterWrites [] done = done.
Proof.
  unfold afterWrites. rewrite <- (list_fmap_id done) at 2.
  apply list_fmap_ext. intros i [[n v] []] _; reflexivity.
Qed.

Lemma afterWrites_cons a trace done :
  afterWrites (a :: trace) done = afterWrites trace (afterWrites [a] done).
Proof.
  unfold afterWrites. rewrite <- list_fmap_compose.
  apply list_fmap_ext. intros i [[n v] []] _; reflexivity.
Qed.

(** Reading a declared name returns the value of its backing field and
    records one getter call. *)
Lemma get_declared done o d :
  declaredState done o -> aliasFree (declaredAs done) -> d ∈ done ->
  get d.1.1 o =
  (Return d.1.2,
   Build (flags o) (extraProperties o)
     (<[d.1.1 := nextCount (usedConfigs o) d.1.1]> (usedConfigs o))
     (properties o) (d.1.1 :: getterCalls o)).
Proof.
  intros (Hmap & Hmeth & Hacc & Hdata & Hdone) Halias Hd.
  destruct (Hdone d Hd) as [Hname Hbacking].
  unfold get, callDepth. cbn [Nat.add].
  rewrite getProperty_S, Hname, getProperty_S. cbn [recordGetterCall properties].
  rewrite Hmap. rewrite getProperty_S.
  cbn [setUsedConfigs recordGetterCall properties flags extraProperties
         usedConfigs getterCalls].
  by rewrite Hbacking.
Qed.

(** Reading any other key neither changes the object nor calls a getter. *)
Lemma get_undeclared done o key :
  declaredState done o -> key ∉ declaredAs done ->
  exists v, get key o = (Return v, o).
Proof.
  intros (Hmap & Hmeth & Hacc & Hdata & Hdone) Hkey.
  unfold get, callDepth. cbn [Nat.add]. rewrite getProperty_S.
  destruct (properties o !! key) as [[v|s c]|] eqn:Hk; eauto.
  exfalso. apply Hkey, Hacc. by rewrite Hk.
Qed.

(** Writing a declared name without a setter throws and changes nothing. *)
Lemma set_readonly done o d value :
  declaredState done o -> d ∈ done -> d.2 = false ->
  set d.1.1 value o =
  (Throw (TypeError "Cannot set property which has only a getter"), o).
Proof.
  intros (Hmap & Hmeth & Hacc & Hdata & Hdone) Hd Hs.
  destruct (Hdone d Hd) as [Hname _]. rewrite Hs in Hname.
  unfold set, callDepth. cbn [Nat.add]. by rewrite setProperty_S, Hname.
Qed.

(** Writing a declared name with a setter assigns its backing field. *)
Lemma set_writable done o d value :
  declaredState done o -> d ∈ done -> d.2 = true ->
  set d.1.1 value o =
  (Return tt, setProperties (insert ("_" +:+ d.1.1) (DataProperty value)) o).
Proof.
  intros (Hmap & Hmeth & Hacc & Hdata & Hdone) Hd Hs.
  destruct (Hdone d Hd) as [Hname Hbacking]. rewrite Hs in Hname.
  unfold set, callDepth. cbn [Nat.add].
  by rewrite setProperty_S, Hname, setProperty_S, Hbacking.
Qed.

Lemma NoDup_fmap_eq {A B} (f : A -> B) (l : list A) x y :
  NoDup (f <$> l) -> x ∈ l -> y ∈ l -> f x = f y -> x = y.
Proof.
  induction l as [|z l IH]; [by intros _ ?%elem_of_nil|].
  cbn [fmap list_fmap]. intros [Hz Hnd]%NoDup_cons Hx Hy Hf.
  apply elem_of_cons in Hx as [->|Hx], Hy as [->|Hy]; [done| | |by apply IH].
  - exfalso. apply Hz. rewrite Hf. by apply list_elem_of_fmap_2.
  - exfalso. apply Hz. rewrite <- Hf. by apply list_elem_of_fmap_2.
Qed.

Lemma afterWrites_read key done : afterWrites [Read key] done = done.
Proof.
  unfold afterWrites. rewrite <- (list_fmap_id done) at 2.
  apply list_fmap_ext. intros i [[n v] []] _; reflexivity.
Qed.

Lemma afterWrites_readonly d value done :
  NoDup (declaredAs done) -> d ∈ done -> d.2 = false ->
  afterWrites [Write d.1.1 value] done = done.
Proof.
  intros Hnd Hd Hs. unfold afterWrites. rewrite <- (list_fmap_id done) at 2.
  apply list_fmap_ext. intros i d' Hi. apply list_elem_of_lookup_2 in Hi.
  destruct d' as [[n v] hs]. cbn [fst snd id lastWritten foldl].
  destruct hs; [|done]. destruct (decide (d.1.1 = n)) as [Heq|]; [|done].
  assert (d = (n, v, true)) as Hsame
    by (apply (NoDup_fmap_eq (fun d => d.1.1) done); done).
  rewrite Hsame in Hs. done.
Qed.

(** What one access does to a constructed object. *)
Lemma objectAccess_state done o a :
  declaredState done o -> wellFormedNames (declaredAs done) ->
  (forall key value, a = Write key value -> key ∈ declaredAs done) ->
  exists used' calls',
    (objectAccess a o).2 =
      Build (flags o) (extraProperties o) used'
        (properties (objectAccess a o).2) calls' /\
    declaredState (afterWrites [a] done) (objectAccess a o).2.
Proof.
  intros Hstate (Hnd & Halias & Hmember) Hwrite.
  pose proof Hstate as (Hmap & Hmeth & Hacc & Hdata & Hdone).
  destruct a as [key|key value]; cbn [objectAccess].
  - rewrite afterWrites_read.
    destruct (decide (key ∈ declaredAs done)) as [Hin|Hout].
    + apply list_elem_of_fmap in Hin as (d & -> & Hd).
      rewrite (get_declared done o d); [|done..]. cbn [snd properties].
      eexists _, _. split; [done|]. done.
    + destruct (get_undeclared done o key Hstate Hout) as (v & ->).
      cbn [snd]. eexists _, _. split; [apply eta|done].
  - specialize (Hwrite key value eq_refl).
    apply list_elem_of_fmap in Hwrite as (d & -> & Hd).
    unfold mbind, M_bind. destruct (d.2) eqn:Hs.
    + rewrite (set_writable done o d); [|done..]. cbn [snd mret M_ret].
      unfold setProperties. cbn [properties].
      eexists _, _. split; [done|].
      assert (("_" +:+ d.1.1) ∉ declaredAs done) as Hbacking.
      { apply Halias. apply list_elem_of_fmap. eauto. }
      unfold declaredState. cbn [properties]. rewrite declaredAs_afterWrites.
      split; [|split; [|split; [|split]]].
      * rewrite lookup_insert_ne; [done|]. intros Heq. discriminate Heq.
      * rewrite lookup_insert_ne; [done|]. intros Heq. discriminate Heq.
      * intros k. destruct (decide ("_" +:+ d.1.1 = k)) as [<-|Hne].
        -- rewrite lookup_insert_eq. simpl. split; [done|]. done.
        -- rewrite lookup_insert_ne by done. apply Hacc.
      * intros k v. destruct (decide ("_" +:+ d.1.1 = k)) as [<-|Hne].
        -- intros _. right. exists d.1.1. split; [|done].
           apply list_elem_of_fmap. eauto.
        -- rewrite lookup_insert_ne by done. apply Hdata.
      * intros d' (d0 & -> & Hd0)%list_elem_of_fmap. cbn [fst snd].
        destruct (Hdone d0 Hd0) as [Hname0 Hbacking0]. split.
        -- rewrite lookup_insert_ne; [done|]. intros Heq. apply Hbacking.
           rewrite Heq. apply list_elem_of_fmap. eauto.
        -- destruct (decide (d.1.1 = d0.1.1)) as [Heq|Hne].
           ++ assert (d = d0) as <-
                by (apply (NoDup_fmap_eq (fun d => d.1.1) done); done).
              rewrite lookup_insert_eq, Hs. cbn [lastWritten foldl].
              by rewrite decide_True.
           ++ rewrite lookup_insert_ne by (intros Hb%underscore_inj; done).
              rewrite Hbacking0. destruct (d0.2); [|done].
              cbn [lastWritten foldl]. by rewrite decide_False.
    + rewrite (set_readonly done o d); [|done..]. cbn [snd].
      rewrite afterWrites_readonly by done.
      eexists _, _. split; [apply eta|done].
Qed.

End ObjectValues.

(** ** Reads and writes of configuration objects *)

Section ConfigValues.

Implicit Types (cmd : BaseCommand.t) (o : NewConfigClass.t)
  (done : list (string * Value * bool)).

Lemma access_object ref a cmd o :
  BaseCommand.objects cmd !! ref = Some o ->
  (access ref a cmd).1 = (objectAccess a o).1 /\
  BaseCommand.objects (access ref a cmd).2
    = <[ref := (objectAccess a o).2]> (BaseCommand.objects cmd) /\
  BaseCommand._configMaps (access ref a cmd).2 = BaseCommand._configMaps cmd.
Proof.
  intros Hobj. destruct a as [key|key value];
    unfold access, onObject, objectAccess; rewrite Hobj.
  - by destruct (ConfigObject.get key o).
  - by destruct ((ConfigObject.set key value;; mret value) o).
Qed.

(** The object after a sequence of accesses that write declared names
    only. *)
Lemma accesses_state ref trace done cmd o :
  BaseCommand.objects cmd !! ref = Some o ->
  declaredState done o -> wellFormedNames (declaredAs done) ->
  (forall key value, Write key value ∈ trace -> key ∈ declaredAs done) ->
  exists o',
    BaseCommand.objects (accesses ref trace cmd) !! ref = Some o' /\
    BaseCommand._configMaps (accesses ref trace cmd) = BaseCommand._configMaps cmd /\
    declaredState (afterWrites trace done) o'.
Proof.
  revert done cmd o.
  induction trace as [|a trace IH]; intros done cmd o Hobj Hstate Hwf Hwrite.
  - exists o. by rewrite afterWrites_nil.
  - destruct (access_object ref a cmd o Hobj) as (_ & Hobjs & Hmaps).
    destruct (objectAccess_state done o a Hstate Hwf) as (_ & _ & _ & Hstate1).
    { intros key value ->. apply (Hwrite key value). by left. }
    destruct (IH (afterWrites [a] done) (access ref a cmd).2 (objectAccess a o).2)
      as (o' & Hobj' & Hmaps' & Hstate').
    + by rewrite Hobjs, lookup_insert_eq.
    + done.
    + by rewrite declaredAs_afterWrites.
    + intros key value Hin. rewrite declaredAs_afterWrites.
      apply (Hwrite key value). by right.
    + exists o'. change (accesses ref (a :: trace) cmd)
        with (accesses ref trace (access ref a cmd).2).
      rewrite afterWrites_cons. split; [done|]. split; [congruence|done].
Qed.

(** With well-formed names [getConfig] returns, and the new object is as
    the constructor declared it. *)
Lemma getConfig_returns configName F E cmd :
  wellFormedNames (declaredNames F E) ->
  exists props,
    getConfig configName F E cmd =
      (Return (fresh (dom (BaseCommand.objects cmd))),
       BaseCommand.Build (BaseCommand.configManager cmd)
         (BaseCommand.localConfig cmd) (BaseCommand.remoteConfigManager cmd)
         (<[configName := fresh (dom (BaseCommand.objects cmd))]>
            (BaseCommand._configMaps cmd))
         (<[fresh (dom (BaseCommand.objects cmd)) :=
              NewConfigClass.Build F E ∅ props []]> (BaseCommand.objects cmd))) /\
    declaredState (declarations (BaseCommand.configManager cmd) F E)
      (NewConfigClass.Build F E ∅ props []).
Proof.
  intros Hwf.
  destruct (constructor_returns (BaseCommand.configManager cmd) F E Hwf)
    as (props & Hnew & Hstate).
  exists props. unfold getConfig. by rewrite Hnew.
Qed.

(** What a returned [getConfig] has built. *)
Lemma getConfig_built configName F E cmd ref cmd1 :
  wellFormedNames (declaredNames F E) ->
  getConfig configName F E cmd = (Return ref, cmd1) ->
  exists props,
    BaseCommand.objects cmd1 !! ref = Some (NewConfigClass.Build F E ∅ props []) /\
    declaredState (declarations (BaseCommand.configManager cmd) F E)
      (NewConfigClass.Build F E ∅ props []) /\
    BaseCommand._configMaps cmd1 = <[configName := ref]> (BaseCommand._configMaps cmd) /\
    BaseCommand.objects cmd !! ref = None /\
    (forall other, other ≠ ref ->
       BaseCommand.objects cmd1 !! other = BaseCommand.objects cmd !! other).
Proof.
  intros Hwf Hcfg.
  destruct (getConfig_returns configName F E cmd Hwf) as (props & Hret & Hstate).
  rewrite Hret in Hcfg. injection Hcfg as <- <-. exists props.
  cbn [BaseCommand.objects BaseCommand._configMaps].
  split; [apply lookup_insert_eq|]. split; [done|]. split; [done|]. split.
  - apply not_elem_of_dom, is_fresh.
  - intros other Hne. by rewrite lookup_insert_ne.
Qed.



Lemma sample_wellFormedNames :
  wellFormedNames (declaredNames sampleFlags sampleExtraProperties).
Proof.
  split; [|split].
  - apply (bool_decide_unpack _). reflexivity.
  - intros name Hin.
    apply (proj1 (Forall_forall
      (fun n => ("_" +:+ n) ∉ declaredNames sampleFlags sampleExtraProperties)
      (declaredNames sampleFlags sampleExtraProperties))); [|done].
    repeat constructor; apply (bool_decide_unpack _); reflexivity.
  - intros name Hin. apply (proj1 (Forall_forall (fun n => ~ classMember n)
      (declaredNames sampleFlags sampleExtraProperties))); [|done].
    repeat constructor; intros [?|?]; discriminate.
Qed.

Lemma sample_writes_declared key v :
  Write key v ∈ sampleTrace ->
  key ∈ declaredNames sampleFlags sampleExtraProperties.
Proof.
  intros Hin.
  apply (proj1 (Forall_forall
    (fun a => match a with
              | Write k _ => k ∈ declaredNames sampleFlags sampleExtraProperties
              | Read _ => True
              end) sampleTrace)) in Hin; [done|].
  repeat constructor; apply (bool_decide_unpack _); reflexivity.
Qed.

Lemma sample_getConfig :
  getConfig "deployConfigs" sampleFlags sampleExtraProperties loadedCommand =
  (Return 0%nat,
   (getConfig "deployConfigs" sampleFlags sampleExtraProperties loadedCommand).2).
Proof.
  rewrite (surjective_pairing (getConfig _ _ _ _)) at 1.
  apply (f_equal2 pair); [vm_compute; reflexivity|reflexivity].
Qed.



(** X7: when a name is declared twice among the flags and the extra
    properties, [getConfig] throws a [TypeError], stores no instance, and
    leaves the command as it was. *)
Theorem getConfig_rejects_repeated_names cmd configName flags extraProperties :
  aliasFree (declaredNames flags extraProperties) ->
  (forall name, name ∈ declaredNames flags extraProperties -> ~ classMember name) ->
  ~ NoDup (declaredNames flags extraProperties) ->
  getConfig configName flags extraProperties cmd =
  (Throw (TypeError "Cannot redefine property"), cmd).
Proof.
  intros Halias Hmember Hdup.
  destruct (constructor_throws (BaseCommand.configManager cmd) flags extraProperties
              Halias Hmember Hdup) as (o' & Hthrow).
  unfold getConfig. by rewrite Hthrow.
Qed.

Lemma getConfig_rejects_repeated_names_witness :
  getConfig "deployConfigs" repeatedFlags sampleExtraProperties loadedCommand =
  (Throw (TypeError "Cannot redefine property"), loadedCommand).
Proof.
  apply getConfig_rejects_repeated_names.
  - intros name Hin.
    apply (proj1 (Forall_forall
      (fun n => ("_" +:+ n) ∉ declaredNames repeatedFlags sampleExtraProperties)
      (declaredNames repeatedFlags sampleExtraProperties))); [|done].
    repeat constructor; apply (bool_decide_unpack _); reflexivity.
  - intros name Hin. apply (proj1 (Forall_forall (fun n => ~ classMember n)
      (declaredNames repeatedFlags sampleExtraProperties))); [|done].
    repeat constructor; intros [?|?]; discriminate.
  - apply (bool_decide_unpack _). reflexivity.
Defined.

Lemma filter_not_in_nil (l : list string) :
  filter (fun name => name ∉ @nil string) l = l.
Proof.
  induction l as [|n l IH]; [done|].
  rewrite filter_cons_True by apply not_elem_of_nil. by f_equal.
Qed.

Lemma declaredState_objectInvariant done o :
  declaredState done o ->
  NewConfigClass.usedConfigs o = ∅ -> NewConfigClass.getterCalls o = [] ->
  objectInvariant (declaredAs done) o.
Proof.
  intros (Hmap & Hmeth & Hacc & _) Hused Hcalls.
  split; [done|]. split; [done|]. split; [done|].
  intros k. rewrite Hused, Hcalls, lookup_empty, elem_of_nil.
  split; [by intros [? ?]|done].
Qed.

(** X8: when the declared names are distinct, none is the backing field of
    another and none a member of the class, [getConfig] returns a new
    instance: it is stored under [configName], the other instances stay as
    they are, and [getUnusedConfigs] reports every declared name as
    unused. *)
Theorem getConfig_builds_fresh_instance cmd configName flags extraProperties :
  wellFormedNames (declaredNames flags extraProperties) ->
  exists ref cmd1,
    getConfig configName flags extraProperties cmd = (Return ref, cmd1) /\
    BaseCommand.objects cmd !! ref = None /\
    BaseCommand._configMaps cmd1 = <[configName := ref]> (BaseCommand._configMaps cmd) /\
    (forall other, other ≠ ref ->
       BaseCommand.objects cmd1 !! other = BaseCommand.objects cmd !! other) /\
    (getUnusedConfigs configName cmd1).1 = Return (declaredNames flags extraProperties).
Proof.
  intros Hwf.
  destruct (getConfig_returns configName flags extraProperties cmd Hwf)
    as (props & Hret & _).
  eexists _, _. split; [exact Hret|].
  destruct (getConfig_built _ _ _ _ _ _ Hwf Hret)
    as (props' & Hobj & Hstate & Hmaps & Hnew & Hother).
  split; [done|]. split; [done|]. split; [done|].
  rewrite (getUnusedConfigs_spec (declaredNames flags extraProperties)
             configName (fresh (dom (BaseCommand.objects cmd))) _
             (NewConfigClass.Build flags extraProperties ∅ props' [])).
  - f_equal. cbn [NewConfigClass.getterCalls]. apply filter_not_in_nil.
  - rewrite Hmaps. apply lookup_insert_eq.
  - exact Hobj.
  - rewrite <- (declaredAs_declarations (BaseCommand.configManager cmd)).
    by apply declaredState_objectInvariant.
  - done.
Qed.

Lemma getConfig_builds_fresh_instance_witness :
  exists ref cmd1,
    getConfig "deployConfigs" sampleFlags sampleExtraProperties loadedCommand
      = (Return ref, cmd1) /\
    (getUnusedConfigs "deployConfigs" cmd1).1 =
      Return ["devMode"; "quiet"; "force"; "nodeClient"; "stagingDir"].
Proof.
  destruct (getConfig_builds_fresh_instance loadedCommand "deployConfigs"
              sampleFlags sampleExtraProperties sample_wellFormedNames)
    as (ref & cmd1 & Hcfg & _ & _ & _ & Hunused).
  exists ref, cmd1. split; [exact Hcfg|exact Hunused].
Defined.

Lemma accesses_frame ref trace cmd :
  BaseCommand._configMaps (accesses ref trace cmd) = BaseCommand._configMaps cmd /\
  forall other, other ≠ ref ->
    BaseCommand.objects (accesses ref trace cmd) !! other
      = BaseCommand.objects cmd !! other.
Proof.
  revert cmd. induction trace as [|a trace IH]; intros cmd; [done|].
  change (accesses ref (a :: trace) cmd)
    with (accesses ref trace (access ref a cmd).2).
  destruct (IH (access ref a cmd).2) as [-> Hobjs].
  assert (BaseCommand._configMaps (access ref a cmd).2 = BaseCommand._configMaps cmd /\
          forall other, other ≠ ref ->
            BaseCommand.objects (access ref a cmd).2 !! other
              = BaseCommand.objects cmd !! other) as [-> Hone].
  { destruct (BaseCommand.objects cmd !! ref) as [o|] eqn:Hobj.
    - destruct (access_object ref a cmd o Hobj) as (_ & -> & ->).
      split; [done|]. intros other Hne. by rewrite lookup_insert_ne.
    - destruct a; unfold access, onObject; by rewrite Hobj. }
  split; [done|]. intros other Hne. by rewrite Hobjs, Hone.
Qed.

(** X11: a second [getConfig] under the same [configName], none of whose
    declared names is a member of the class, replaces the instance:
    whatever the caller then reads or writes on the first instance,
    [getUnusedConfigs] reports on the second one, of which nothing has
    been read. *)
Theorem getConfig_replaces_instance
    cmd configName flags1 extra1 ref1 cmd1 flags2 extra2 ref2 cmd2 trace :
  (forall name, name ∈ declaredNames flags2 extra2 -> ~ classMember name) ->
  getConfig configName flags1 extra1 cmd = (Return ref1, cmd1) ->
  getConfig configName flags2 extra2 cmd1 = (Return ref2, cmd2) ->
  ref2 ≠ ref1 /\
  (getUnusedConfigs configName (accesses ref1 trace cmd2)).1 =
    Return (declaredNames flags2 extra2).
Proof.
  intros Hmember Hcfg1 Hcfg2.
  assert (ref2 ≠ ref1) as Hne.
  { unfold getConfig in Hcfg1, Hcfg2.
    destruct (ConfigObject.constructor _ _) as [[[]|e1] o1] in Hcfg1; [|done].
    destruct (ConfigObject.constructor _ _) as [[[]|e2] o2] in Hcfg2; [|done].
    injection Hcfg1 as <- <-. injection Hcfg2 as <- _.
    cbn [BaseCommand.objects]. intros Heq.
    apply (is_fresh (dom (<[fresh (dom (BaseCommand.objects cmd)) := o1]>
                            (BaseCommand.objects cmd)))).
    rewrite Heq at 1. apply elem_of_dom. by rewrite lookup_insert_eq. }
  split; [done|].
  destruct (getConfig_spec _ _ _ _ _ _ Hmember Hcfg2)
    as (o & Hobj & Hmaps & Hinv & Hdecl & Hcalls).
  destruct (accesses_frame ref1 trace cmd2) as [Hmaps' Hobjs'].
  rewrite (getUnusedConfigs_spec (declaredNames flags2 extra2) configName ref2 _ o).
  - f_equal. rewrite Hcalls. apply filter_not_in_nil.
  - by rewrite Hmaps'.
  - by rewrite Hobjs'.
  - done.
  - done.
Qed.

Lemma getConfig_replaces_instance_witness :
  let first :=
    (getConfig "deployConfigs" sampleFlags sampleExtraProperties loadedCommand).2 in
  exists ref2 cmd2,
    getConfig "deployConfigs" sampleFlags None first = (Return ref2, cmd2) /\
    ref2 ≠ 0%nat /\
    (getUnusedConfigs "deployConfigs" (accesses 0 sampleTrace cmd2)).1 =
      Return ["devMode"; "quiet"; "force"].
Proof.
  intros first.
  destruct (getConfig "deployConfigs" sampleFlags None first) as [c cmd2] eqn:Hcfg2.
  assert (c = Return 1%nat) as ->.
  { pose proof (f_equal fst Hcfg2) as Hc. cbn [fst] in Hc. rewrite <- Hc.
    vm_compute. reflexivity. }
  exists 1%nat, cmd2. split; [reflexivity|].
  apply (getConfig_replaces_instance loadedCommand "deployConfigs"
           sampleFlags sampleExtraProperties 0 first sampleFlags None 1 cmd2 sampleTrace).
  - intros name Hin. apply (proj1 (Forall_forall (fun n => ~ classMember n)
      (declaredNames sampleFlags None))); [|done].
    repeat constructor; intros [?|?]; discriminate.
  - exact sample_getConfig.
  - exact Hcfg2.
Defined.

(** What one access does to the usage counts. *)
Lemma objectAccess_used done o a :
  declaredState done o -> wellFormedNames (declaredAs done) ->
  (forall key value, a = Write key value -> key ∈ declaredAs done) ->
  NewConfigClass.usedConfigs (objectAccess a o).2 =
  match a with
  | Read key =>
      if decide (key ∈ declaredAs done)
      then <[key := ConfigObject.nextCount (NewConfigClass.usedConfigs o) key]>
             (NewConfigClass.usedConfigs o)
      else NewConfigClass.usedConfigs o
  | Write _ _ => NewConfigClass.usedConfigs o
  end.
Proof.
  intros Hstate (Hnd & Halias & Hmember) Hwrite.
  destruct a as [key|key value]; cbn [objectAccess].
  - destruct (decide (key ∈ declaredAs done)) as [Hin|Hout].
    + apply list_elem_of_fmap in Hin as (d & -> & Hd).
      by rewrite (get_declared done o d).
    + by destruct (get_undeclared done o key Hstate Hout) as (v & ->).
  - specialize (Hwrite key value eq_refl).
    apply list_elem_of_fmap in Hwrite as (d & -> & Hd).
    unfold mbind, M_bind. destruct (d.2) eqn:Hs.
    + by rewrite (set_writable done o d).
    + by rewrite (set_readonly done o d).
Qed.

Lemma accesses_snoc ref trace a cmd :
  accesses ref (trace ++ [a]) cmd = (access ref a (accesses ref trace cmd)).2.
Proof. unfold accesses. by rewrite foldl_app. Qed.

Lemma readCount_snoc key trace a :
  readCount key (trace ++ [a]) =
  (readCount key trace + if decide (a = Read key) then 1 else 0)%nat.
Proof.
  unfold readCount. rewrite filter_app, length_app. f_equal.
  destruct (decide (a = Read key)) as [Heq|Hne].
  - by rewrite filter_cons_True.
  - by rewrite filter_cons_False.
Qed.

(** The usage counts after a sequence of accesses on a new object. *)
Lemma accesses_used ref trace done cmd o :
  BaseCommand.objects cmd !! ref = Some o ->
  declaredState done o -> wellFormedNames (declaredAs done) ->
  (forall key value, Write key value ∈ trace -> key ∈ declaredAs done) ->
  NewConfigClass.usedConfigs o = ∅ ->
  exists o',
    BaseCommand.objects (accesses ref trace cmd) !! ref = Some o' /\
    forall key,
      NewConfigClass.usedConfigs o' !! key =
      if decide (key ∈ declaredAs done /\ (0 < readCount key trace)%nat)
      then Some (Z.of_nat (readCount key trace)) else None.
Proof.
  intros Hobj Hstate Hwf. induction trace as [|a trace IH] using rev_ind;
    intros Hwrite Hempty.
  - exists o. split; [done|]. intros key. rewrite Hempty, lookup_empty.
    rewrite decide_False; [done|]. intros [_ Hpos]. cbn in Hpos. lia.
  - destruct IH as (o1 & Hobj1 & Hused1); [|done|].
    { intros key value Hin. apply (Hwrite key value), elem_of_app. by left. }
    destruct (accesses_state ref trace done cmd o Hobj Hstate Hwf)
      as (o1' & Hobj1' & _ & Hstate1).
    { intros key value Hin. apply (Hwrite key value), elem_of_app. by left. }
    rewrite Hobj1 in Hobj1'. injection Hobj1' as <-.
    destruct (access_object ref a _ o1 Hobj1) as (_ & Hobjs & _).
    exists (objectAccess a o1).2. rewrite accesses_snoc, Hobjs.
    split; [apply lookup_insert_eq|]. intros key.
    rewrite (objectAccess_used (afterWrites trace done)); [|done| |].
    2: { by rewrite declaredAs_afterWrites. }
    2: { intros k v ->. rewrite declaredAs_afterWrites.
         apply (Hwrite k v), elem_of_app. right. by left. }
    rewrite declaredAs_afterWrites, readCount_snoc.
    destruct (decide (a = Read key)) as [->|Hother].
    + destruct (decide (key ∈ declaredAs done)) as [Hk|Hk].
      * rewrite lookup_insert_eq.
        rewrite decide_True by (split; [done|lia]).
        unfold ConfigObject.nextCount. rewrite Hused1.
        destruct (decide (key ∈ declaredAs done /\ (0 < readCount key trace)%nat))
          as [[_ Hpos]|Hzero].
        -- rewrite decide_False by lia. f_equal. lia.
        -- f_equal. assert (readCount key trace = 0%nat) as ->; [|done].
           destruct (readCount key trace); [done|]. destruct Hzero.
           split; [done|lia].
      * rewrite Hused1. by rewrite !decide_False by (intros [? _]; done).
    + rewrite Nat.add_0_r, <- Hused1. destruct a as [k|k v]; [|done].
      destruct (decide (k ∈ declaredAs done)); [|done].
      rewrite lookup_insert_ne; [done|congruence].
Qed.

(** X23: [usedConfigs] counts the reads.  Provided the declared names are
    distinct, none is the backing field of another and none is a member of
    the class, and the caller assigns declared names only: after any such
    reads and writes of a new configuration object, its map of usage
    counts has an entry for exactly the flags and extra properties that
    were read, and the entry is the number of times the property was
    read. *)
Theorem getConfig_counts_reads
    cmd configName flags extraProperties ref cmd1 trace :
  wellFormedNames (declaredNames flags extraProperties) ->
  (forall key v, Write key v ∈ trace -> key ∈ declaredNames flags extraProperties) ->
  getConfig configName flags extraProperties cmd = (Return ref, cmd1) ->
  exists o,
    BaseCommand.objects (accesses ref trace cmd1) !! ref = Some o /\
    forall key,
      NewConfigClass.usedConfigs o !! key =
      if decide (key ∈ declaredNames flags extraProperties /\
                 (0 < readCount key trace)%nat)
      then Some (Z.of_nat (readCount key trace)) else None.
Proof.
  intros Hwf Hwrite Hcfg.
  destruct (getConfig_built _ _ _ _ _ _ Hwf Hcfg) as (props & Hobj & Hstate & _).
  rewrite <- (declaredAs_declarations (BaseCommand.configManager cmd)) in Hwf, Hwrite.
  destruct (accesses_used ref trace _ cmd1 _ Hobj Hstate Hwf Hwrite eq_refl)
    as (o & Hobj' & Hused).
  exists o. split; [done|]. intros key. rewrite Hused.
  by rewrite declaredAs_declarations.
Qed.

Lemma getConfig_counts_reads_witness :
  let built :=
    (getConfig "deployConfigs" sampleFlags sampleExtraProperties loadedCommand).2 in
  exists o,
    BaseCommand.objects (accesses 0 sampleTrace built) !! 0%nat = Some o /\
    NewConfigClass.usedConfigs o !! "quiet" = Some 2%Z /\
    NewConfigClass.usedConfigs o !! "nodeClient" = Some 1%Z /\
    NewConfigClass.usedConfigs o !! "stagingDir" = None.
Proof.
  cbv zeta.
  destruct (getConfig_counts_reads loadedCommand "deployConfigs"
              sampleFlags sampleExtraProperties 0 _ sampleTrace
              sample_wellFormedNames sample_writes_declared sample_getConfig)
    as (o & Hobj & Hused).
  exists o. split; [exact Hobj|]. rewrite !Hused. repeat split; reflexivity.
Defined.

End ConfigValues.

(** ** Values files per cluster *)

Section ValuesFilesProperties.

#[local] Set Default Proof Using "Type".

Variables (KEY_COMMON : string)
          (parseValuesFilesInput : string -> Completion (list (string * list string)))
          (path_join : list string -> string).

Implicit Types (valuesFiles : gmap string string)
  (parsed : list (string * list string)) (ref : string).

Lemma string_app_assoc (a b c : string) : (a +:+ b) +:+ c = a +:+ b +:+ c.
Proof. induction a as [|x a IH]; [done|]. by rewrite !append_cons, IH. Qed.

Lemma string_app_empty_r (a : string) : a +:+ "" = a.
Proof. induction a as [|x a IH]; [done|]. by rewrite append_cons, IH. Qed.

Lemma elem_of_Object_keys {A} (record : gmap string A) key :
  key ∈ Object_keys record <-> key ∈ dom record.
Proof.
  unfold Object_keys. rewrite list_elem_of_fmap, elem_of_dom. split.
  - intros ([k v] & -> & Hkv). apply elem_of_map_to_list in Hkv. eauto.
  - intros [v Hv]. exists (key, v). split; [done|]. by apply elem_of_map_to_list.
Qed.

Lemma initial_lookup (keys : list string) valuesFiles ref :
  foldl (fun valuesFiles clusterRef => <[clusterRef := ""]> valuesFiles)
        valuesFiles keys !! ref =
  if decide (ref ∈ keys) then Some "" else valuesFiles !! ref.
Proof.
  revert valuesFiles. induction keys as [|k keys IH]; intros valuesFiles;
    cbn [foldl].
  - by rewrite decide_False by apply not_elem_of_nil.
  - rewrite IH. destruct (decide (ref ∈ keys)) as [Hin|Hout].
    + by rewrite decide_True by by right.
    + destruct (decide (k = ref)) as [->|Hne].
      * rewrite lookup_insert_eq. by rewrite decide_True by by left.
      * rewrite lookup_insert_ne by done. rewrite decide_False; [done|].
        intros [?|?]%elem_of_cons; congruence.
Qed.

Lemma addParsed_cons entry parsed valuesFiles :
  addParsed KEY_COMMON (entry :: parsed) valuesFiles =
  addParsed KEY_COMMON parsed
    (if decide (entry.1 = KEY_COMMON)
     then appendToAll (valuesArguments entry.2) valuesFiles
     else appendTo entry.1 (valuesArguments entry.2) valuesFiles).
Proof. reflexivity. Qed.

(** A key that is present collects the arguments of its own entries and of
    the common ones, in their order. *)
Lemma addParsed_lookup_Some parsed valuesFiles ref value :
  valuesFiles !! ref = Some value ->
  addParsed KEY_COMMON parsed valuesFiles !! ref =
  Some (value +:+ argumentsFor KEY_COMMON parsed ref).
Proof.
  revert valuesFiles value.
  induction parsed as [|[k files] parsed IH]; intros valuesFiles value Href.
  - cbn. by rewrite string_app_empty_r.
  - rewrite addParsed_cons. cbn [fst snd argumentsFor foldr].
    fold (argumentsFor KEY_COMMON parsed ref).
    destruct (decide (k = KEY_COMMON)) as [->|Hk].
    + rewrite (IH _ (value +:+ valuesArguments files)).
      * rewrite decide_True by by left. by rewrite string_app_assoc.
      * unfold appendToAll. by rewrite lookup_fmap, Href.
    + destruct (decide (k = ref)) as [->|Hne].
      * rewrite (IH _ (value +:+ valuesArguments files)).
        -- rewrite decide_True by by right. by rewrite string_app_assoc.
        -- unfold appendTo, readProperty. by rewrite lookup_insert_eq, Href.
      * rewrite (IH _ value).
        -- rewrite decide_False; [done|]. intros [?|?]; done.
        -- unfold appendTo. by rewrite lookup_insert_ne.
Qed.

(** A key that is absent and has no entry stays absent. *)
Lemma addParsed_lookup_None parsed valuesFiles ref :
  valuesFiles !! ref = None -> ref ∉ parsed.*1 ->
  addParsed KEY_COMMON parsed valuesFiles !! ref = None.
Proof.
  revert valuesFiles.
  induction parsed as [|[k files] parsed IH]; intros valuesFiles Href Hout; [done|].
  rewrite addParsed_cons. cbn [fst snd]. cbn [fmap list_fmap fst] in Hout.
  apply not_elem_of_cons in Hout as [Hne Hout].
  apply IH; [|done]. destruct (decide (k = KEY_COMMON)).
  - unfold appendToAll. by rewrite lookup_fmap, Href.
  - unfold appendTo. by rewrite lookup_insert_ne.
Qed.

(** A key that is absent when its first entry comes starts from the text
    of what the record reads for it. *)
Lemma addParsed_lookup_missing parsed valuesFiles ref :
  valuesFiles !! ref = None -> ref ≠ KEY_COMMON -> ref ∈ parsed.*1 ->
  exists rest,
    addParsed KEY_COMMON parsed valuesFiles !! ref = Some (missingText ref +:+ rest).
Proof.
  revert valuesFiles.
  induction parsed as [|[k files] parsed IH]; intros valuesFiles Href Hne Hin.
  - by apply elem_of_nil in Hin.
  - rewrite addParsed_cons. cbn [fst snd]. cbn [fmap list_fmap fst] in Hin.
    destruct (decide (k = KEY_COMMON)) as [->|Hk].
    + apply elem_of_cons in Hin as [?|Hin]; [done|].
      apply IH; [|done..]. unfold appendToAll. by rewrite lookup_fmap, Href.
    + destruct (decide (k = ref)) as [->|Hkr].
      * eexists.
        rewrite (addParsed_lookup_Some _ _ _ (missingText ref +:+ valuesArguments files)).
        -- by rewrite string_app_assoc.
        -- unfold appendTo, readProperty, missingText.
           rewrite lookup_insert_eq, Href. by destruct (bool_decide _).
      * apply elem_of_cons in Hin as [?|Hin]; [done|].
        apply IH; [|done..]. unfold appendTo. by rewrite lookup_insert_ne.
Qed.



(** The record before the common key is dropped: what each key holds. *)
Lemma prepareValuesFilesMap_collected {A} (clusterRefs : gmap string A) chartDirectory
    profileValuesFile valuesFileInput profileParsed inputParsed :
  parsedInput parseValuesFilesInput profileValuesFile = Return profileParsed ->
  parsedInput parseValuesFilesInput valuesFileInput = Return inputParsed ->
  exists collected : gmap string string,
    prepareValuesFilesMap KEY_COMMON parseValuesFilesInput path_join
      clusterRefs chartDirectory profileValuesFile valuesFileInput =
    Return (if decide (1 < size collected)
            then delete KEY_COMMON collected else collected) /\
    (forall ref, ref = KEY_COMMON \/ ref ∈ dom clusterRefs ->
       collected !! ref =
       Some (chartArguments path_join chartDirectory +:+
             argumentsFor KEY_COMMON profileParsed ref +:+
             argumentsFor KEY_COMMON inputParsed ref)) /\
    (forall ref, ref ≠ KEY_COMMON -> ref ∉ dom clusterRefs ->
       ref ∉ profileParsed.*1 -> ref ∉ inputParsed.*1 ->
       collected !! ref = None) /\
    (forall ref, ref ≠ KEY_COMMON -> ref ∉ dom clusterRefs ->
       ref ∈ profileParsed.*1 \/ ref ∈ inputParsed.*1 ->
       exists rest, collected !! ref = Some (missingText ref +:+ rest)).
Proof.
  intros Hprofile Hinput.
  set (initial := foldl (fun valuesFiles clusterRef => <[clusterRef := ""]> valuesFiles)
                        ({[ KEY_COMMON := "" ]} : gmap string string)
                        (Object_keys clusterRefs)).
  set (charted := appendToAll (chartArguments path_join chartDirectory) initial).
  exists (addParsed KEY_COMMON inputParsed (addParsed KEY_COMMON profileParsed charted)).
  assert (forall ref, ref = KEY_COMMON \/ ref ∈ dom clusterRefs ->
            charted !! ref = Some (chartArguments path_join chartDirectory)) as Hknown.
  { intros ref Href. unfold charted, appendToAll, initial.
    rewrite lookup_fmap, initial_lookup.
    destruct (decide (ref ∈ Object_keys clusterRefs)) as [Hin|Hout]; [done|].
    destruct Href as [->|Href].
    - by rewrite lookup_singleton_eq.
    - by apply elem_of_Object_keys in Href. }
  assert (forall ref, ref ≠ KEY_COMMON -> ref ∉ dom clusterRefs ->
            charted !! ref = None) as Hunknown.
  { intros ref Hne Hout. unfold charted, appendToAll, initial.
    rewrite lookup_fmap, initial_lookup.
    rewrite decide_False by by rewrite elem_of_Object_keys.
    by rewrite lookup_singleton_ne. }
  split; [|split; [|split]].
  - unfold prepareValuesFilesMap, addInput. cbv zeta. fold initial.
    unfold parsedInput in Hprofile, Hinput.
    assert ((match truthyString chartDirectory with
             | Some directory =>
                 appendToAll
                   (" --values " +:+
                    path_join [directory; "solo-deployment"; "values.yaml"])
                   initial
             | None => initial
             end) = charted) as ->.
    { unfold charted, chartArguments.
      destruct (truthyString chartDirectory); [done|].
      unfold appendToAll. rewrite <- (map_fmap_id initial) at 1.
      apply map_fmap_ext. intros _ value _. by rewrite string_app_empty_r. }
    destruct (truthyString profileValuesFile);
      [rewrite Hprofile | injection Hprofile as <-];
      (destruct (truthyString valuesFileInput);
       [rewrite Hinput | injection Hinput as <-]); reflexivity.
  - intros ref Href.
    erewrite addParsed_lookup_Some; [|erewrite addParsed_lookup_Some; [done|auto]].
    by rewrite string_app_assoc.
  - intros ref Hne Hout HoutP HoutI.
    apply addParsed_lookup_None; [|done].
    apply addParsed_lookup_None; auto.
  - intros ref Hne Hout Hin.
    destruct (decide (ref ∈ profileParsed.*1)) as [HinP|HoutP].
    + destruct (addParsed_lookup_missing profileParsed charted ref)
        as [rest Hrest]; auto.
      eexists. erewrite addParsed_lookup_Some; [|exact Hrest].
      by rewrite string_app_assoc.
    + destruct Hin as [?|HinI]; [done|].
      apply addParsed_lookup_missing; [|done..].
      apply addParsed_lookup_None; auto.
Qed.



(** X14: a cluster reference other than [__proto__] that only an input
    names (it is not in [clusterRefs] and is not the common key) is still
    a key of the result, and its arguments start with the text of what the
    record read for it when its first file was added: the text
    [undefined], unless the reference is the name of a member of
    [Object.prototype], whose text it is then, as for [constructor]. *)
Theorem prepareValuesFilesMap_unknown_cluster_ref {A} (clusterRefs : gmap string A) chartDirectory
    profileValuesFile valuesFileInput profileParsed inputParsed ref :
  parsedInput parseValuesFilesInput profileValuesFile = Return profileParsed ->
  parsedInput parseValuesFilesInput valuesFileInput = Return inputParsed ->
  ref ≠ KEY_COMMON -> ref ≠ "__proto__" -> ref ∉ dom clusterRefs ->
  ref ∈ profileParsed.*1 \/ ref ∈ inputParsed.*1 ->
  exists valuesFiles rest,
    prepareValuesFilesMap KEY_COMMON parseValuesFilesInput path_join
      clusterRefs chartDirectory profileValuesFile valuesFileInput =
    Return valuesFiles /\
    valuesFiles !! ref = Some (missingText ref +:+ rest) /\
    (ref ∉ Object_prototype -> missingText ref = "undefined") /\
    (ref = "constructor" ->
     missingText ref = "function Object() { [native code] }").
Proof.
  intros Hprofile Hinput Hne Hproto Hout Hin.
  destruct (prepareValuesFilesMap_collected clusterRefs chartDirectory _ _ _ _
              Hprofile Hinput) as (collected & -> & _ & _ & Hmissing).
  destruct (Hmissing ref Hne Hout Hin) as [rest Hrest].
  eexists _, rest. split; [done|]. split; [|split].
  - destruct (decide (1 < size collected)); [|done].
    by rewrite lookup_delete_ne.
  - intros Hmember. unfold missingText. by rewrite bool_decide_eq_false_2.
  - by intros ->.
Qed.

End ValuesFilesProperties.



Lemma prepareValuesFilesMap_unknown_cluster_ref_witness :
  exists valuesFiles rest,
    prepareValuesFilesMap sampleKeyCommon sampleParse samplePathJoin
      sampleClusterRefs None None (Some "cluster-3=user.yaml") =
    Return valuesFiles /\
    valuesFiles !! "cluster-3" = Some ("undefined" +:+ rest).
Proof.
  destruct (prepareValuesFilesMap_unknown_cluster_ref sampleKeyCommon sampleParse
              samplePathJoin sampleClusterRefs None None
              (Some "cluster-3=user.yaml") [] [("cluster-3", ["user.yaml"])]
              "cluster-3" eq_refl eq_refl)
    as (valuesFiles & rest & Hreturn & Hlookup & Hundefined & _);
    [discriminate|discriminate|apply not_elem_of_dom; reflexivity|
     right; apply list_elem_of_singleton; reflexivity|].
  exists valuesFiles, rest. split; [exact Hreturn|].
  rewrite Hlookup, Hundefined; [reflexivity|].
  apply (bool_decide_unpack _). reflexivity.
Defined.

(** ** The configuration manager *)

Section ConfigManagerProperties.

#[local] Set Default Proof Using "Type".

Variables (namespace clusterSetupNamespace quiet : CommandFlag.t)
          (instanceofNamespaceName : Value -> bool)
          (NamespaceName_of : Value -> Completion Value)
          (allFlagsMap : gmap string CommandFlag.t)
          (defaultValue : CommandFlag.t -> Value)
          (disablePrompt : CommandFlag.t -> bool)
          (prompt : CommandFlag.t -> option (Value -> Completion Value)).



(** Whatever [setFlag] does, it leaves the entries of the other flags. *)
Lemma setFlag_frame flag value cm key :
  key ≠ CommandFlag.name flag ->
  ConfigManager.flags
    (setFlag namespace clusterSetupNamespace instanceofNamespaceName
       NamespaceName_of (Some flag) value cm).2 !! key =
  ConfigManager.flags cm !! key.
Proof.
  intros Hne. unfold setFlag. cbv zeta.
  destruct (decide (CommandFlag.name flag = "")); [done|].
  assert (forall v, ConfigManager.flags (storeFlag (CommandFlag.name flag) v cm) !! key =
                    ConfigManager.flags cm !! key) as Hstore.
  { intros v. unfold storeFlag. cbn. by rewrite lookup_insert_ne. }
  destruct (decide _) as [Hnamespace|Hplain]; [|apply Hstore].
  destruct (instanceofNamespaceName value); [apply Hstore|].
  unfold mbind, M_bind, lift.
  destruct (NamespaceName_of value); [apply Hstore|done].
Qed.


(** One step of the loop of [applyPrecedence] touches its own key only. *)
Lemma applyPrecedenceTo_other cm argv key other :
  other ≠ key ->
  applyPrecedenceTo allFlagsMap defaultValue cm argv key !! other = argv !! other.
Proof.
  intros Hne. unfold applyPrecedenceTo.
  destruct (allFlagsMap !! key); [|done].
  destruct (decide _); [done|].
  destruct (hasFlag cm _); by rewrite lookup_insert_ne.
Qed.

Lemma applyPrecedenceTo_self cm argv key :
  applyPrecedenceTo allFlagsMap defaultValue cm argv key !! key =
  match allFlagsMap !! key with
  | Some flag =>
      if decide (readKey argv key <> VUndefined) then argv !! key
      else Some (if hasFlag cm flag then ConfigManager.getFlag cm flag
                 else defaultValue flag)
  | None => argv !! key
  end.
Proof.
  unfold applyPrecedenceTo.
  destruct (allFlagsMap !! key); [|done].
  destruct (decide _); [done|].
  destruct (hasFlag cm _); by rewrite lookup_insert_eq.
Qed.

Lemma applyPrecedenceTo_self_ext cm argv1 argv2 key :
  argv1 !! key = argv2 !! key ->
  applyPrecedenceTo allFlagsMap defaultValue cm argv1 key !! key =
  applyPrecedenceTo allFlagsMap defaultValue cm argv2 key !! key.
Proof.
  intros Heq. rewrite !applyPrecedenceTo_self. unfold readKey. by rewrite Heq.
Qed.

Lemma foldl_applyPrecedenceTo cm keys argv key :
  NoDup keys ->
  foldl (applyPrecedenceTo allFlagsMap defaultValue cm) argv keys !! key =
  if decide (key ∈ keys)
  then applyPrecedenceTo allFlagsMap defaultValue cm argv key !! key
  else argv !! key.
Proof.
  intros Hnodup. revert argv.
  induction Hnodup as [|k keys Hk Hnodup IH]; intros argv; cbn [foldl].
  - by rewrite decide_False by apply not_elem_of_nil.
  - rewrite IH. destruct (decide (key = k)) as [->|Hne].
    + rewrite decide_False by done. by rewrite decide_True by by left.
    + destruct (decide (key ∈ keys)) as [Hin|Hout].
      * rewrite decide_True by by right.
        apply applyPrecedenceTo_self_ext. by apply applyPrecedenceTo_other.
      * rewrite decide_False by (intros [?|?]%elem_of_cons; done).
        by apply applyPrecedenceTo_other.
Qed.

Lemma NoDup_Object_keys {A} (record : gmap string A) : NoDup (Object_keys record).
Proof. apply NoDup_fst_map_to_list. Qed.

Lemma applyPrecedence_lookup {A} cm argv (aliases : gmap string A) key :
  applyPrecedence allFlagsMap defaultValue cm argv aliases !! key =
  if decide (key ∈ dom aliases)
  then applyPrecedenceTo allFlagsMap defaultValue cm argv key !! key
  else argv !! key.
Proof.
  unfold applyPrecedence.
  rewrite foldl_applyPrecedenceTo by apply NoDup_Object_keys.
  destruct (decide (key ∈ Object_keys aliases)) as [Hin|Hout].
  - by rewrite decide_True by by apply elem_of_Object_keys.
  - by rewrite decide_False by by rewrite <- elem_of_Object_keys.
Qed.

(** X16: the precedence [applyPrecedence] gives a key.  What the user
    entered stays; a key that is no alias or names no flag is left alone;
    an alias that names a flag the user did not enter gets the cached
    value of the flag when there is one, and the flag's default value
    otherwise. *)
Theorem applyPrecedence_precedence {A} cm argv (aliases : gmap string A) key :
  let argv' := applyPrecedence allFlagsMap defaultValue cm argv aliases in
  (readKey argv key <> VUndefined -> argv' !! key = argv !! key) /\
  (key ∉ dom aliases \/ allFlagsMap !! key = None -> argv' !! key = argv !! key) /\
  (forall flag,
     key ∈ dom aliases -> allFlagsMap !! key = Some flag ->
     readKey argv key = VUndefined ->
     argv' !! key =
     Some (if hasFlag cm flag then ConfigManager.getFlag cm flag
           else defaultValue flag)).
Proof.
  cbv zeta. rewrite applyPrecedence_lookup, applyPrecedenceTo_self.
  split; [|split].
  - intros Huser. destruct (decide (key ∈ dom aliases)); [|done].
    destruct (allFlagsMap !! key); [|done]. by rewrite decide_True.
  - intros [Hout|Hnone].
    + by rewrite decide_False.
    + rewrite Hnone. by destruct (decide _).
  - intros flag Hin -> Hundefined.
    rewrite decide_True by done.
    by rewrite decide_False by (intros Hdefined; by destruct Hdefined).
Qed.

(** X17: applying the precedence a second time changes nothing. *)
Theorem applyPrecedence_idempotent {A} cm argv (aliases : gmap string A) :
  applyPrecedence allFlagsMap defaultValue cm
    (applyPrecedence allFlagsMap defaultValue cm argv aliases) aliases =
  applyPrecedence allFlagsMap defaultValue cm argv aliases.
Proof.
  apply map_eq. intros key.
  rewrite (applyPrecedence_lookup cm (applyPrecedence _ _ _ _ _)).
  destruct (decide (key ∈ dom aliases)) as [Hin|Hout]; [|done].
  rewrite applyPrecedenceTo_self.
  destruct (allFlagsMap !! key) as [flag|] eqn:Hflag; [|done].
  destruct (decide _) as [Hdefined|Hundefined]; [done|].
  revert Hundefined. unfold readKey.
  rewrite applyPrecedence_lookup, decide_True by done.
  rewrite applyPrecedenceTo_self, Hflag.
  destruct (decide _) as [Hdefined|_]; [|done].
  intros Hundefined. by destruct Hundefined.
Qed.

(** X18: once the flag [quiet] is set, [executePrompt] runs no prompt and
    leaves the configuration as it is, whatever the flags of the list. *)
Theorem executePrompt_quiet cm flagList :
  truthy (ConfigManager.getFlag cm quiet) = true ->
  executePrompt namespace clusterSetupNamespace quiet instanceofNamespaceName
    NamespaceName_of disablePrompt prompt flagList cm = (Return tt, cm).
Proof.
  intros Hquiet. induction flagList as [|flag rest IH]; [done|].
  cbn [executePrompt].
  destruct (if disablePrompt flag then None else prompt flag); [|exact IH].
  unfold mbind, M_bind, gets. by rewrite Hquiet.
Qed.

(** X19: [executePrompt] changes the entries of no flag but those of the
    list whose prompt is enabled, also when it stops early or a prompt
    fails. *)
Theorem executePrompt_frame cm flagList key :
  key ∉ CommandFlag.name <$> prompted disablePrompt prompt flagList ->
  ConfigManager.flags
    (executePrompt namespace clusterSetupNamespace quiet instanceofNamespaceName
       NamespaceName_of disablePrompt prompt flagList cm).2 !! key =
  ConfigManager.flags cm !! key.
Proof.
  revert cm. induction flagList as [|flag rest IH]; intros cm Hout; [done|].
  cbn [executePrompt]. unfold prompted in Hout.
  destruct (disablePrompt flag) eqn:Hdisabled.
  { rewrite filter_cons_False in Hout by (intros [? _]; congruence).
    by apply IH. }
  destruct (prompt flag) as [ask|] eqn:Hprompt.
  2: { rewrite filter_cons_False in Hout by (intros [_ []]; congruence).
       by apply IH. }
  rewrite filter_cons_True in Hout by (split; [done|by rewrite Hprompt]).
  cbn [fmap list_fmap] in Hout. apply not_elem_of_cons in Hout as [Hne Hout].
  unfold mbind at 1, M_bind at 1, gets at 1.
  destruct (truthy _); [done|].
  unfold mbind at 1, M_bind at 1, gets at 1.
  unfold mbind at 1, M_bind at 1, lift at 1.
  destruct (ask _) as [input|e]; [|done].
  unfold mbind at 1, M_bind at 1.
  pose proof (setFlag_frame flag input cm key Hne) as Hframe.
  destruct (setFlag _ _ _ _ (Some flag) input cm) as [[[]|e] cm1]; cbn [snd] in *.
  - rewrite <- Hframe. by apply IH.
  - done.
Qed.

End ConfigManagerProperties.


Lemma applyPrecedence_precedence_witness :
  let argv' :=
    applyPrecedence sampleAllFlagsMap sampleDefaultValue
      (sampleConfigManager true) sampleArgv sampleAliases in
  argv' !! "dev" = Some (VBool true) /\
  argv' !! "quiet" = Some (VBool true) /\
  argv' !! "force" = Some (VBool false) /\
  argv' !! "cache-dir" = None.
Proof.
  cbv zeta.
  pose proof (applyPrecedence_precedence sampleAllFlagsMap sampleDefaultValue
                (sampleConfigManager true) sampleArgv sampleAliases) as Hkey.
  cbv zeta in Hkey.
  split; [|split; [|split]].
  - rewrite (proj1 (Hkey "dev")); [reflexivity|discriminate].
  - rewrite (proj2 (proj2 (Hkey "quiet")) quietFlag); [reflexivity| |reflexivity..].
    apply elem_of_dom. by eexists.
  - rewrite (proj2 (proj2 (Hkey "force")) forceFlag); [reflexivity| |reflexivity..].
    apply elem_of_dom. by eexists.
  - rewrite (proj1 (proj2 (Hkey "cache-dir"))); [reflexivity|].
    left. apply not_elem_of_dom. reflexivity.
Defined.

Lemma executePrompt_quiet_witness :
  executePrompt namespaceFlag clusterSetupNamespaceFlag quietFlag
    (fun _ => false) (fun value => Return value) (fun _ => false) samplePrompt
    [devFlag; forceFlag] (sampleConfigManager true) =
  (Return tt, sampleConfigManager true).
Proof.
  apply (executePrompt_quiet namespaceFlag clusterSetupNamespaceFlag quietFlag
           (fun _ => false) (fun value => Return value) (fun _ => false)
           samplePrompt (sampleConfigManager true) [devFlag; forceFlag]).
  reflexivity.
Defined.

Lemma executePrompt_frame_witness :
  ConfigManager.flags
    (executePrompt namespaceFlag clusterSetupNamespaceFlag quietFlag
       (fun _ => false) (fun value => Return value) (fun _ => false)
       samplePrompt [devFlag; forceFlag] (sampleConfigManager false)).2 !! "dev" =
  Some (VBool false).
Proof.
  rewrite (executePrompt_frame namespaceFlag clusterSetupNamespaceFlag quietFlag
             (fun _ => false) (fun value => Return value) (fun _ => false)
             samplePrompt (sampleConfigManager false) [devFlag; forceFlag] "dev").
  - reflexivity.
  - intros Hin. apply list_elem_of_singleton in Hin. discriminate Hin.
Defined.

(** ** The home directories *)

Section HomeDirectoryProperties.

#[local] Set Default Proof Using "Type".

Variables (FS : Type)
          (existsSync : Value -> FS -> bool)
          (mkdirSync : Value -> FS -> Completion unit * FS)
          (SOLO_HOME_DIR SOLO_LOGS_DIR SOLO_CACHE_DIR SOLO_VALUES_DIR : string)
          (cacheDir : CommandFlag.t).

Implicit Types (host : Host FS) (dirs : list Value).

(** One directory: it is created when it is missing, and logged. *)
Lemma setupDirectory_run dirPath host :
  setupDirectory existsSync mkdirSync dirPath tt host =
  if existsSync dirPath (fileSystem host)
  then (Return tt, MkHost (fileSystem host)
                     (logged host ++ [DebugSetupDirectory dirPath]))
  else match mkdirSync dirPath (fileSystem host) with
       | (Return _, fs) =>
           (Return tt, MkHost fs (logged host ++ [DebugSetupDirectory dirPath]))
       | (Throw e, fs) => (Throw e, MkHost fs (logged host))
       end.
Proof.
  unfold setupDirectory, mbind, M_bind, gets, mkdir, log, modify.
  destruct (existsSync dirPath (fileSystem host)); cbn; [done|].
  by destruct (mkdirSync dirPath (fileSystem host)) as [[[]|e] fs].
Qed.

(** The loop over the directories, when it returns. *)
Lemma forEach_setupDirectory_returns dirs host host' :
  mkdirSyncCreates existsSync mkdirSync ->
  forEach dirs (setupDirectory existsSync mkdirSync) tt host = (Return tt, host') ->
  (forall dirPath, dirPath ∈ dirs -> existsSync dirPath (fileSystem host') = true) /\
  (forall other, existsSync other (fileSystem host) = true ->
                 existsSync other (fileSystem host') = true) /\
  logged host' = logged host ++ (DebugSetupDirectory <$> dirs).
Proof.
  intros Hcreates. revert host.
  induction dirs as [|dirPath dirs IH]; intros host Hrun.
  - injection Hrun as <-. rewrite app_nil_r.
    split; [by intros ? ?%elem_of_nil|done].
  - cbn [forEach] in Hrun. unfold mbind, M_bind in Hrun.
    rewrite setupDirectory_run in Hrun.
    assert (exists host1,
              forEach dirs (setupDirectory existsSync mkdirSync) tt host1 =
              (Return tt, host') /\
              existsSync dirPath (fileSystem host1) = true /\
              (forall other, existsSync other (fileSystem host) = true ->
                             existsSync other (fileSystem host1) = true) /\
              logged host1 = logged host ++ [DebugSetupDirectory dirPath])
      as (host1 & Hrest & Hpresent & Hkept & Hlog).
    { destruct (existsSync dirPath (fileSystem host)) eqn:Hexists.
      - eexists. split; [exact Hrun|]. done.
      - destruct (mkdirSync dirPath (fileSystem host)) as [[[]|e] fs] eqn:Hmkdir;
          [|discriminate Hrun].
        destruct (Hcreates _ _ _ Hmkdir) as [Hnew Hold].
        eexists. split; [exact Hrun|]. done. }
    destruct (IH host1 Hrest) as (Hall & Hkept1 & Hlog1).
    split; [|split].
    + intros d [->|Hin]%elem_of_cons; auto.
    + auto.
    + rewrite Hlog1, Hlog, <- app_assoc. done.
Qed.

(** The loop over the directories, when it throws. *)
Lemma forEach_setupDirectory_throws dirs host host' e :
  forEach dirs (setupDirectory existsSync mkdirSync) tt host = (Throw e, host') ->
  exists done dirPath rest fs,
    dirs = done ++ dirPath :: rest /\
    existsSync dirPath fs = false /\
    mkdirSync dirPath fs = (Throw e, fileSystem host') /\
    logged host' = logged host ++ (DebugSetupDirectory <$> done).
Proof.
  revert host. induction dirs as [|dirPath dirs IH]; intros host Hrun;
    [discriminate Hrun|].
  cbn [forEach] in Hrun. unfold mbind, M_bind in Hrun.
  rewrite setupDirectory_run in Hrun.
  assert (forall fs,
            forEach dirs (setupDirectory existsSync mkdirSync) tt
              (MkHost fs (logged host ++ [DebugSetupDirectory dirPath])) =
            (Throw e, host') ->
            exists done dirPath0 rest fs0,
              dirPath :: dirs = done ++ dirPath0 :: rest /\
              existsSync dirPath0 fs0 = false /\
              mkdirSync dirPath0 fs0 = (Throw e, fileSystem host') /\
              logged host' = logged host ++ (DebugSetupDirectory <$> done))
    as Hlater.
  { intros fs Hrest.
    destruct (IH _ Hrest) as (done & d & rest & fs0 & -> & Hmissing & Hmkdir & Hlog).
    exists (dirPath :: done), d, rest, fs0. split; [done|].
    split; [done|]. split; [done|].
    rewrite Hlog. cbn [logged fmap list_fmap]. by rewrite <- app_assoc. }
  destruct (existsSync dirPath (fileSystem host)) eqn:Hexists; [by eapply Hlater|].
  destruct (mkdirSync dirPath (fileSystem host)) as [[[]|e'] fs] eqn:Hmkdir;
    [by eapply Hlater|].
  injection Hrun as -> <-.
  exists [], dirPath, dirs, (fileSystem host). cbn [fileSystem logged].
  split; [done|]. split; [done|]. split; [done|]. by rewrite app_nil_r.
Qed.

(** X20: when [setupHomeDirectory] returns, it returns the directories it
    was given (the home directories when it was given none), each of them
    exists, whatever existed before still exists, and the log has one
    entry per directory, in their order. *)
Theorem setupHomeDirectory_sets_up cm dirs host directories host' :
  mkdirSyncCreates existsSync mkdirSync ->
  setupHomeDirectory existsSync mkdirSync SOLO_HOME_DIR SOLO_LOGS_DIR
    SOLO_CACHE_DIR SOLO_VALUES_DIR cacheDir cm dirs host =
  (Return directories, host') ->
  directories =
    match dirs with
    | [] => homeDirectories SOLO_HOME_DIR SOLO_LOGS_DIR SOLO_CACHE_DIR
              SOLO_VALUES_DIR cacheDir cm
    | _ => dirs
    end /\
  (forall dirPath, dirPath ∈ directories ->
     existsSync dirPath (fileSystem host') = true) /\
  (forall other, existsSync other (fileSystem host) = true ->
     existsSync other (fileSystem host') = true) /\
  logged host' = logged host ++ (DebugSetupDirectory <$> directories).
Proof.
  intros Hcreates. unfold setupHomeDirectory. cbv zeta.
  set (ds := match dirs with [] => _ | _ => dirs end).
  unfold mbind, M_bind, try_catch.
  destruct (forEach ds _ tt host) as [[[]|e] host1] eqn:Hloop.
  - intros Hrun. injection Hrun as <- <-. split; [done|].
    by apply forEach_setupDirectory_returns.
  - unfold log, modify, throw. discriminate.
Qed.

(** X21: when [setupHomeDirectory] throws, a directory was missing and
    [fs.mkdirSync] threw some [e] for it.  The error thrown is a
    [SoloError] with cause [e]; the directories before that one were set
    up and logged, then [e] was logged, and the directories after it were
    not looked at. *)
Theorem setupHomeDirectory_failure cm dirs host thrown host' :
  setupHomeDirectory existsSync mkdirSync SOLO_HOME_DIR SOLO_LOGS_DIR
    SOLO_CACHE_DIR SOLO_VALUES_DIR cacheDir cm dirs host =
  (Throw thrown, host') ->
  exists e done dirPath rest fs,
    thrown = SoloError ("failed to create directory: " +:+ message e) (Some e) /\
    match dirs with
    | [] => homeDirectories SOLO_HOME_DIR SOLO_LOGS_DIR SOLO_CACHE_DIR
              SOLO_VALUES_DIR cacheDir cm
    | _ => dirs
    end = done ++ dirPath :: rest /\
    existsSync dirPath fs = false /\
    mkdirSync dirPath fs = (Throw e, fileSystem host') /\
    logged host' =
    logged host ++ (DebugSetupDirectory <$> done) ++ [LoggedError e].
Proof.
  unfold setupHomeDirectory. cbv zeta.
  set (ds := match dirs with [] => _ | _ => dirs end).
  unfold mbind, M_bind, try_catch.
  destruct (forEach ds _ tt host) as [[[]|e] host1] eqn:Hloop; [discriminate|].
  unfold log, modify, throw. intros Hrun. injection Hrun as <- <-.
  destruct (forEach_setupDirectory_throws _ _ _ _ Hloop)
    as (done & dirPath & rest & fs & Hds & Hmissing & Hmkdir & Hlog).
  exists e, done, dirPath, rest, fs. cbn [fileSystem logged].
  split; [done|]. split; [done|]. split; [done|]. split; [done|].
  by rewrite Hlog, <- app_assoc.
Qed.

(** X22: when every directory exists already, [setupHomeDirectory] returns
    them and leaves the file system as it is: [fs.mkdirSync] is not
    called. *)
Theorem setupHomeDirectory_existing cm dirs host :
  let directories :=
    match dirs with
    | [] => homeDirectories SOLO_HOME_DIR SOLO_LOGS_DIR SOLO_CACHE_DIR
              SOLO_VALUES_DIR cacheDir cm
    | _ => dirs
    end in
  (forall dirPath, dirPath ∈ directories ->
     existsSync dirPath (fileSystem host) = true) ->
  setupHomeDirectory existsSync mkdirSync SOLO_HOME_DIR SOLO_LOGS_DIR
    SOLO_CACHE_DIR SOLO_VALUES_DIR cacheDir cm dirs host =
  (Return directories,
   MkHost (fileSystem host)
     (logged host ++ (DebugSetupDirectory <$> directories))).
Proof.
  cbv zeta. unfold setupHomeDirectory. cbv zeta.
  set (ds := match dirs with [] => _ | _ => dirs end). clearbody ds.
  intros Hall. unfold mbind, M_bind, try_catch.
  assert (forEach ds (setupDirectory existsSync mkdirSync) tt host =
          (Return tt, MkHost (fileSystem host)
                        (logged host ++ (DebugSetupDirectory <$> ds)))) as ->;
    [|done].
  revert host Hall. induction ds as [|dirPath ds IH]; intros host Hall.
  - cbn. rewrite app_nil_r. by destruct host.
  - cbn [forEach]. unfold mbind, M_bind.
    rewrite setupDirectory_run, Hall by by left.
    rewrite IH.
    + cbn [fileSystem logged fmap list_fmap]. by rewrite <- app_assoc.
    + intros d Hin. cbn [fileSystem]. apply Hall. by right.
Qed.

End HomeDirectoryProperties.

Lemma sample_mkdirSyncCreates : mkdirSyncCreates sampleExistsSync sampleMkdirSync.
Proof.
  intros dirPath fs fs'. unfold sampleMkdirSync, sampleExistsSync.
  destruct (decide _); [discriminate|]. intros Hrun. injection Hrun as <-.
  split.
  - apply bool_decide_eq_true. by left.
  - intros other Hin%bool_decide_eq_true. apply bool_decide_eq_true. by right.
Qed.

Lemma setupHomeDirectory_sets_up_witness :
  let directories := [VString "/home/solo"; VString "/home/solo/logs"] in
  let host' :=
    MkHost [VString "/home/solo/logs"; VString "/home/solo"]
           (DebugSetupDirectory <$> directories) in
  directories = directories /\
  (forall dirPath, dirPath ∈ directories ->
     sampleExistsSync dirPath (fileSystem host') = true) /\
  (forall other, sampleExistsSync other (fileSystem sampleHost) = true ->
     sampleExistsSync other (fileSystem host') = true) /\
  logged host' = logged sampleHost ++ (DebugSetupDirectory <$> directories).
Proof.
  cbv zeta.
  apply (setupHomeDirectory_sets_up (list Value) sampleExistsSync sampleMkdirSync
           "/home/solo" "/home/solo/logs" "/home/solo/cache" "/home/solo/values"
           cacheDirFlag (sampleConfigManager false)
           [VString "/home/solo"; VString "/home/solo/logs"] sampleHost).
  - exact sample_mkdirSyncCreates.
  - reflexivity.
Defined.

Lemma setupHomeDirectory_failure_witness :
  exists e done dirPath rest fs,
    SoloError "failed to create directory: EACCES: permission denied"
      (Some homeFailure) =
    SoloError ("failed to create directory: " +:+ message e) (Some e) /\
    [VString "/home/solo/logs"; VString "/proc/solo"; VString "/home/solo/cache"] =
    done ++ dirPath :: rest /\
    sampleExistsSync dirPath fs = false /\
    sampleMkdirSync dirPath fs =
    (Throw e, [VString "/home/solo/logs"; VString "/home/solo"]) /\
    [DebugSetupDirectory (VString "/home/solo/logs"); LoggedError homeFailure] =
    [] ++ (DebugSetupDirectory <$> done) ++ [LoggedError e].
Proof.
  apply (setupHomeDirectory_failure (list Value) sampleExistsSync sampleMkdirSync
           "/home/solo" "/home/solo/logs" "/home/solo/cache" "/home/solo/values"
           cacheDirFlag (sampleConfigManager false)
           [VString "/home/solo/logs"; VString "/proc/solo";
            VString "/home/solo/cache"]
           sampleHost
           (SoloError "failed to create directory: EACCES: permission denied"
              (Some homeFailure))
           (MkHost [VString "/home/solo/logs"; VString "/home/solo"]
              [DebugSetupDirectory (VString "/home/solo/logs");
               LoggedError homeFailure])).
  reflexivity.
Defined.

Lemma setupHomeDirectory_existing_witness :
  let directories :=
    [VString "/home/solo"; VString "/home/solo/logs"; VString "/home/solo/cache";
     VString "/home/solo/values"] in
  setupHomeDirectory sampleExistsSync sampleMkdirSync
    "/home/solo" "/home/solo/logs" "/home/solo/cache" "/home/solo/values"
    cacheDirFlag (sampleConfigManager false) [] (MkHost directories []) =
  (Return directories,
   MkHost directories (DebugSetupDirectory <$> directories)).
Proof.
  cbv zeta.
  apply (setupHomeDirectory_existing (list Value) sampleExistsSync sampleMkdirSync
           "/home/solo" "/home/solo/logs" "/home/solo/cache" "/home/solo/values"
           cacheDirFlag (sampleConfigManager false) []
           (MkHost [VString "/home/solo"; VString "/home/solo/logs";
                    VString "/home/solo/cache"; VString "/home/solo/values"] [])).
  intros dirPath Hin.
  repeat (apply elem_of_cons in Hin as [->|Hin]; [reflexivity|]).
  by apply elem_of_nil in Hin.
Defined.
